(** * The flow module of mentpy ([src/mentpy/state/flow.py])

    A shallow embedding of [find_flow] and of the helpers it calls, and the
    properties of the specification that are about them.

    Conventions of the embedding.
    - Vertex labels are Python ints, here [Z].
    - A Python call either returns a value or raises; [res] adds a third
      outcome, [OutOfFuel], which is an artefact of the embedding (the
      recursive functions and the [while] loops take a [fuel : nat]) and is
      no Python outcome. More fuel never changes an outcome. Python's limit
      on the depth of recursion is not modelled.
    - The functions of flow.py mutate [fam], [visited], [sup] and [status] in
      place and return those same objects, and every caller rebinds its
      variables to what the callee returns; the objects are created inside the
      call of [find_flow] and reachable through these variables only, so the
      embedding threads their values through the calls. Where the variable
      [fam] is rebound to [None], the value of the object is kept next to it.
    - numpy arrays of floats that hold integers ([visited], [P], [L],
      [status], [sup]) are lists of [Z] (floats are exact on integers below
      2^53); an index follows numpy: [v] with [-len <= v < len] is accepted,
      negative ones counting from the end; any other index raises IndexError
      when it fits the 64-bit index type of numpy ([-2^63 <= v < 2^63]) and
      OverflowError when it does not.
    - networkx graphs keep nodes, neighbours, successors and predecessors in
      insertion order; [neighbors], [successors] and [predecessors] return
      iterators.
    - The order in which Python iterates a set is a parameter, [set_iter]. *)

From Stdlib Require Import ZArith Lia.
From stdpp Require Import base decidable option list sorting gmap.

Open Scope Z_scope.

(** ** Outcomes of a Python call *)

Inductive exn :=
  | ValueError | UserWarning | RuntimeError | IndexError | KeyError
  | AttributeError | StopIteration | NetworkXError | NetworkXUnfeasible
  | OverflowError.

Inductive res (A : Type) :=
  | Ok (a : A)
  | Raise (e : exn)
  | OutOfFuel.
Arguments Ok {A} a.
Arguments Raise {A} e.
Arguments OutOfFuel {A}.

#[global] Instance exn_eq_dec : EqDecision exn.
Proof. solve_decision. Defined.

#[global] Instance res_ret : MRet res := λ A a, Ok a.
#[global] Instance res_bind : MBind res := λ A B k m,
  match m with
  | Ok a => k a
  | Raise e => Raise e
  | OutOfFuel => OutOfFuel
  end.

(** Truth value of a Python int. *)
Definition py_truth (z : Z) : bool := bool_decide (z ≠ 0).

(** [next(it)] on a fresh iterator over [l]. *)
Definition py_next (l : list Z) : res Z :=
  match l with
  | x :: _ => Ok x
  | [] => Raise StopIteration
  end.

(** [x in it] on an iterator: consumes the iterator up to and including the
    first element equal to [x], or entirely when there is none. The second
    component is what the iterator still yields afterwards. *)
Fixpoint iter_contains (x : Z) (it : list Z) : bool * list Z :=
  match it with
  | [] => (false, [])
  | y :: it' => if decide (x = y) then (true, it') else iter_contains x it'
  end.

(** [l.index(x)] of a Python list. *)
Fixpoint list_index (x : Z) (l : list Z) : res Z :=
  match l with
  | [] => Raise ValueError
  | y :: l' => if decide (y = x) then Ok 0 else i ← list_index x l'; Ok (i + 1)
  end.

(** ** numpy arrays *)

Definition np_zeros (n : nat) : list Z := replicate n 0.

(** [a[v]] on an array of length [len] (an array has fewer than 2^63
    cells): the cell that the index [v] denotes, or the exception. *)
Definition np_index (len : nat) (v : Z) : res nat :=
  if decide (0 ≤ v < Z.of_nat len) then Ok (Z.to_nat v)
  else if decide (- Z.of_nat len ≤ v < 0) then Ok (Z.to_nat (v + Z.of_nat len))
  else if decide (- 2 ^ 63 ≤ v < 2 ^ 63) then Raise IndexError
  else Raise OverflowError.

Definition np_get (a : list Z) (v : Z) : res Z :=
  i ← np_index (length a) v;
  match a !! i with
  | Some x => Ok x
  | None => Raise IndexError
  end.

Definition np_set (a : list Z) (v x : Z) : res (list Z) :=
  i ← np_index (length a) v;
  Ok (<[i:=x]> a).

(** Two-dimensional arrays, [a[r, v]]; the row index comes from
    [enumerate], the column index is a vertex label. *)
Definition np_zeros2 (rows cols : nat) : list (list Z) :=
  replicate rows (np_zeros cols).

Definition np_get2 (a : list (list Z)) (r : nat) (v : Z) : res Z :=
  match a !! r with
  | Some row => np_get row v
  | None => Raise IndexError
  end.

Definition np_set2 (a : list (list Z)) (r : nat) (v x : Z) : res (list (list Z)) :=
  match a !! r with
  | Some row => row' ← np_set row v x; Ok (<[r:=row']> a)
  | None => Raise IndexError
  end.

(** ** networkx graphs *)

(** [nx.Graph]: the adjacency structure, a dict from node to the dict of its
    neighbours, both in insertion order. *)
Definition Graph : Type := list (Z * list Z).

Definition graph_nodes (g : Graph) : list Z := g.*1.

Fixpoint graph_adj (g : Graph) (v : Z) : option (list Z) :=
  match g with
  | [] => None
  | (u, ns) :: g' => if decide (u = v) then Some ns else graph_adj g' v
  end.

(** [g.neighbors(v)] *)
Definition graph_neighbors (g : Graph) (v : Z) : res (list Z) :=
  match graph_adj g v with
  | Some ns => Ok ns
  | None => Raise NetworkXError
  end.

Definition graph_add_node (v : Z) (g : Graph) : Graph :=
  if decide (v ∈ graph_nodes g) then g else g ++ [(v, [])].

Fixpoint graph_add_nbr (u w : Z) (g : Graph) : Graph :=
  match g with
  | [] => []
  | (x, ns) :: g' =>
      if decide (x = u)
      then (x, if decide (w ∈ ns) then ns else ns ++ [w]) :: g'
      else (x, ns) :: graph_add_nbr u w g'
  end.

(** [g.add_edge(u, v)] and [g.add_edges_from(es)] on an undirected graph. *)
Definition graph_add_edge (g : Graph) (e : Z * Z) : Graph :=
  let '(u, v) := e in
  graph_add_nbr v u (graph_add_nbr u v (graph_add_node v (graph_add_node u g))).

Definition graph_add_edges_from (es : list (Z * Z)) (g : Graph) : Graph :=
  foldl graph_add_edge g es.

(** The invariant of [nx.Graph]: nodes are the keys of a dict, the
    neighbours of a node are the keys of a dict and are nodes themselves,
    and adjacency is symmetric. *)
Definition adj_closed (g : Graph) (v : Z) (ns : list Z) : Prop :=
  NoDup ns ∧
  Forall (λ w, match graph_adj g w with Some ms => v ∈ ms | None => False end) ns.

Definition wf_graph (g : Graph) : Prop :=
  NoDup (graph_nodes g) ∧ Forall (λ e, adj_closed g e.1 e.2) g.

#[global] Instance adj_closed_dec g v ns : Decision (adj_closed g v ns).
Proof.
  unfold adj_closed. apply and_dec; [apply _|]. apply Forall_dec.
  intros w. destruct (graph_adj g w); apply _.
Defined.

#[global] Instance wf_graph_dec g : Decision (wf_graph g).
Proof. unfold wf_graph. apply _. Defined.

(** [nx.DiGraph]: the nodes in insertion order and the edges in insertion
    order; the successors (predecessors) of a node are listed in the order
    in which the edges still present were added. *)
Record DiGraph := mkDiGraph { dg_nodes : list Z; dg_edges : list (Z * Z) }.

#[global] Instance DiGraph_eq_dec : EqDecision DiGraph.
Proof. solve_decision. Defined.

Definition dg_empty : DiGraph := mkDiGraph [] [].

Definition dg_add_node (v : Z) (ns : list Z) : list Z :=
  if decide (v ∈ ns) then ns else ns ++ [v].

Definition dg_add_edge (g : DiGraph) (u v : Z) : DiGraph :=
  mkDiGraph (dg_add_node v (dg_add_node u (dg_nodes g)))
            (if decide ((u, v) ∈ dg_edges g) then dg_edges g
             else dg_edges g ++ [(u, v)]).

Definition dg_remove_edge (g : DiGraph) (u v : Z) : res DiGraph :=
  if decide ((u, v) ∈ dg_edges g)
  then Ok (mkDiGraph (dg_nodes g) (filter (λ e, e ≠ (u, v)) (dg_edges g)))
  else Raise NetworkXError.

Definition dg_has_edge (g : DiGraph) (u v : Z) : bool :=
  bool_decide ((u, v) ∈ dg_edges g).

Definition dg_successors (g : DiGraph) (v : Z) : res (list Z) :=
  if decide (v ∈ dg_nodes g)
  then Ok ((filter (λ e, e.1 = v) (dg_edges g)).*2)
  else Raise NetworkXError.

Definition dg_predecessors (g : DiGraph) (v : Z) : res (list Z) :=
  if decide (v ∈ dg_nodes g)
  then Ok ((filter (λ e, e.2 = v) (dg_edges g)).*1)
  else Raise NetworkXError.

Definition dg_in_degree (g : DiGraph) (v : Z) : Z :=
  Z.of_nat (length (filter (λ e, e.2 = v) (dg_edges g))).

(** ** The graph state *)

(** [GraphStateCircuit], as far as flow.py reads it: the graph and the two
    node lists. *)
Record GraphStateCircuit := mkState {
  graph : Graph;
  input_nodes : list Z;
  output_nodes : list Z
}.

(** Modelled from the spec: the property [outputc] of [GraphStateCircuit]
    is defined outside flow.py; the spec gives it as
    [OutputComplement = V \ Output], here listed in the order of the graph's
    nodes. *)
Definition outputc (state : GraphStateCircuit) : list Z :=
  filter (λ v, v ∉ output_nodes state) (graph_nodes (graph state)).

(** [set(state.graph) - set(state.output_nodes)] (lines 77 and 96). *)
Definition output_complement_set (state : GraphStateCircuit) : gset Z :=
  list_to_set (graph_nodes (graph state)) ∖ list_to_set (output_nodes state).

(** [len(state.graph)], [state.graph.number_of_nodes()] *)
Definition number_of_nodes (state : GraphStateCircuit) : nat :=
  length (graph_nodes (graph state)).

(** ** Path cover *)

(** The variable [fam]. [_build_path_cover] creates one [DiGraph] object;
    [fam] refers to it ([FamRef g], with [g] the current value of the
    object) or, after line 182 of flow.py, is [None] ([FamNone g], with [g]
    the value of the object that the variable no longer refers to). A method
    called on [None] raises AttributeError. *)
Inductive fam_var :=
  | FamRef (g : DiGraph)
  | FamNone (g : DiGraph).

Definition with_fam {A} (fam : fam_var) (k : DiGraph → res A) : res A :=
  match fam with
  | FamRef g => k g
  | FamNone _ => Raise AttributeError
  end.

Definition search_ret : Type := fam_var * list Z * Z.

Section AugmentedSearch.
Context (state : GraphStateCircuit) (iter : Z).
(** The recursive call [_augmented_search(state, fam, iter, visited, u)]. *)
Context (rec : fam_var → list Z → Z → res search_ret).

(** [next(fam.predecessors(v))] *)
Definition first_pred (fam : fam_var) (v : Z) : res Z :=
  with_fam fam (λ g, ps ← dg_predecessors g v; py_next ps).

(** [visited[next(fam.predecessors(v))] < iter] *)
Definition pred_unvisited (fam : fam_var) (visited : list Z) (v : Z) : res bool :=
  p ← first_pred fam v;
  x ← np_get visited p;
  Ok (bool_decide (x < iter)).

(** The loop of lines 185-203 over the neighbours [ws] still to visit. *)
Fixpoint scan_neighbors (v : Z) (ws : list Z) (fam : fam_var)
    (visited : list Z) : res search_ret :=
  match ws with
  | [] => Ok (fam, visited, 0)
  | w :: ws' =>
      x ← np_get visited w;
      c ← (if decide (x < iter) then
             if decide (w ∉ input_nodes state) then
               he ← with_fam fam (λ g, Ok (dg_has_edge g v w)); Ok (negb he)
             else Ok false
           else Ok false);
      if c : bool then
        ns ← with_fam fam (λ g, Ok (dg_nodes g));
        if decide (w ∉ ns) then
          '(fam, visited, status) ← rec fam visited w;
          if py_truth status then
            fam ← with_fam fam (λ g, Ok (FamRef (dg_add_edge g v w)));
            Ok (fam, visited, 1)
          else scan_neighbors v ws' fam visited
        else
          c' ← pred_unvisited fam visited w;
          if c' : bool then
            p ← first_pred fam w;
            '(fam, visited, status) ← rec fam visited p;
            if py_truth status then
              fam ← with_fam fam (λ g,
                ps ← dg_predecessors g w; p' ← py_next ps;
                g ← dg_remove_edge g p' w;
                Ok (FamRef (dg_add_edge g v w)));
              Ok (fam, visited, 1)
            else scan_neighbors v ws' fam visited
          else scan_neighbors v ws' fam visited
      else scan_neighbors v ws' fam visited
  end.

(** The condition of lines 173-177. *)
Definition owns_unvisited_pred (fam : fam_var) (visited : list Z) (v : Z) : res bool :=
  ns ← with_fam fam (λ g, Ok (dg_nodes g));
  if decide (v ∈ ns) then
    if decide (v ∉ input_nodes state) then pred_unvisited fam visited v
    else Ok false
  else Ok false.

(** Lines 178-183: re-root the predecessor of [v]. [inl] is a [return],
    [inr] falls through to the loop. Line 182 removes the edge from the
    object and assigns the result of [remove_edge], which is [None], to
    [fam]. *)
Definition reroot_pred (fam : fam_var) (visited : list Z) (v : Z)
    : res (search_ret + fam_var * list Z) :=
  p ← first_pred fam v;
  '(fam, visited, status) ← rec fam visited p;
  if py_truth status then
    g ← with_fam fam (λ g,
      ps ← dg_predecessors g v; p' ← py_next ps; dg_remove_edge g p' v);
    Ok (inl (FamNone g, visited, 1))
  else Ok (inr (fam, visited)).

Definition search_body (fam : fam_var) (visited : list Z) (v : Z) : res search_ret :=
  visited ← np_set visited v iter;
  if decide (v ∈ output_nodes state) then Ok (fam, visited, 1)
  else
    c ← owns_unvisited_pred fam visited v;
    r ← (if c : bool then reroot_pred fam visited v else Ok (inr (fam, visited)));
    match r with
    | inl ret => Ok ret
    | inr (fam, visited) =>
        ws ← graph_neighbors (graph state) v;
        scan_neighbors v ws fam visited
    end.
End AugmentedSearch.

Fixpoint _augmented_search (fuel : nat) (state : GraphStateCircuit)
    (fam : fam_var) (iter : Z) (visited : list Z) (v : Z) : res search_ret :=
  match fuel with
  | O => OutOfFuel
  | S fuel' =>
      search_body state iter
        (λ fam visited u, _augmented_search fuel' state fam iter visited u)
        fam visited v
  end.

(** What [_build_path_cover] returns: an int (a status, or [0]) or the
    family; [truthy] is its truth value in [if tau:], which for a networkx
    graph is [len(tau) > 0], the number of nodes. *)
Inductive pyval :=
  | PyInt (z : Z)
  | PyDiGraph (g : DiGraph).

Definition truthy (x : pyval) : bool :=
  match x with
  | PyInt z => py_truth z
  | PyDiGraph g => bool_decide (length (dg_nodes g) ≠ 0%nat)
  end.

(** The loop of lines 153-157; [inl] is the early [return status]. *)
Fixpoint path_cover_loop (fuel : nat) (state : GraphStateCircuit) (ins : list Z)
    (fam : fam_var) (visited : list Z) (iter : Z)
    : res (pyval + fam_var * list Z) :=
  match ins with
  | [] => Ok (inr (fam, visited))
  | i :: ins' =>
      let iter := iter + 1 in
      '(fam, visited, status) ← _augmented_search fuel state fam iter visited i;
      if negb (py_truth status) then Ok (inl (PyInt status))
      else path_cover_loop fuel state ins' fam visited iter
  end.

Definition _build_path_cover (fuel : nat) (state : GraphStateCircuit) : res pyval :=
  let fam := FamRef dg_empty in
  let visited := np_zeros (number_of_nodes state) in
  r ← path_cover_loop fuel state (input_nodes state) fam visited 0;
  match r with
  | inl ret => Ok ret
  | inr (fam, visited) =>
      ns ← with_fam fam (λ g, Ok (dg_nodes g));
      if decide (length (list_difference (remove_dups (graph_nodes (graph state))) ns) = 0%nat)
      then with_fam fam (λ g, Ok (PyDiGraph g))
      else Ok (PyInt 0)
  end.

(** ** Chain decomposition *)

(** A Python dict with int keys, read with [d[k]]. *)
Definition dict_get {A} (d : gmap Z A) (k : Z) : res A :=
  match d !! k with
  | Some x => Ok x
  | None => Raise KeyError
  end.

(** [C.successors(v)]; [C] is what [_build_path_cover] returned. *)
Definition tau_successors (C : pyval) (v : Z) : res (list Z) :=
  match C with
  | PyDiGraph g => dg_successors g v
  | PyInt _ => Raise AttributeError
  end.

Definition chain_ret : Type := gmap Z Z * list Z * list Z.

(** The [while] loop of lines 80-85 followed by line 86, from vertex [v] at
    depth [l] on the chain of input [i]. *)
Fixpoint chain_walk (fuel : nat) (state : GraphStateCircuit) (C : pyval)
    (i v l : Z) (f : gmap Z Z) (P L : list Z) : res chain_ret :=
  match fuel with
  | O => OutOfFuel
  | S fuel' =>
      if decide (v ∈ output_nodes state) then
        P ← np_set P v i;
        L ← np_set L v l;
        Ok (f, P, L)
      else
        ss ← tau_successors C v;
        w ← py_next ss;
        let f := <[v:=w]> f in
        P ← np_set P v i;
        L ← np_set L v l;
        chain_walk fuel' state C i w (l + 1) f P L
  end.

Fixpoint chain_loop (fuel : nat) (state : GraphStateCircuit) (C : pyval)
    (ins : list Z) (f : gmap Z Z) (P L : list Z) : res chain_ret :=
  match ins with
  | [] => Ok (f, P, L)
  | i :: ins' =>
      '(f, P, L) ← chain_walk fuel state C i i 0 f P L;
      chain_loop fuel state C ins' f P L
  end.

(** The dict comprehension of line 77 gives every element of the set the
    value [0]; a finite map does not record the order of insertion, so the
    order in which the set is iterated does not show. *)
Definition _get_chain_decomposition (fuel : nat) (state : GraphStateCircuit)
    (C : pyval) : res chain_ret :=
  let P := np_zeros (number_of_nodes state) in
  let L := np_zeros (number_of_nodes state) in
  let f : gmap Z Z := gset_to_gmap 0 (output_complement_set state) in
  chain_loop fuel state C (input_nodes state) f P L.

(** ** Suprema *)

(** [{v: index for index, v in enumerate(state.input_nodes)}] *)
Definition vertex2index (ins : list Z) : gmap Z nat :=
  foldl (λ m p, <[p.2:=p.1]> m) ∅ (zip (seq 0 (length ins)) ins).

Definition sup_status : Type := list (list Z) * list Z.

(** Lines 134-138 for one vertex [v]. *)
Fixpoint init_inputs (state : GraphStateCircuit) (P L : list Z) (v : Z)
    (ins : list Z) (sup : list (list Z)) : res (list (list Z)) :=
  match ins with
  | [] => Ok sup
  | i :: ins' =>
      pv ← np_get P v;
      sup ← (if decide (i = pv) then
               lv ← np_get L v;
               r ← dict_get (vertex2index (input_nodes state)) i;
               np_set2 sup r v lv
             else
               r ← dict_get (vertex2index (input_nodes state)) i;
               np_set2 sup r v (Z.of_nat (number_of_nodes state)));
      init_inputs state P L v ins' sup
  end.

Fixpoint init_nodes (state : GraphStateCircuit) (P L : list Z) (vs : list Z)
    (sup : list (list Z)) (status : list Z) : res sup_status :=
  match vs with
  | [] => Ok (sup, status)
  | v :: vs' =>
      sup ← init_inputs state P L v (input_nodes state) sup;
      status ← np_set status v (if decide (v ∈ output_nodes state) then 2 else 0);
      init_nodes state P L vs' sup status
  end.

Definition _init_status (state : GraphStateCircuit) (P L : list Z) : res sup_status :=
  let sup := np_zeros2 (length (input_nodes state)) (number_of_nodes state) in
  let status := np_zeros (number_of_nodes state) in
  init_nodes state P L (graph_nodes (graph state)) sup status.

Section TraverseInflWalk.
Context (state : GraphStateCircuit) (f : gmap Z Z).
(** The recursive call [_traverse_infl_walk(state, f, sup, status, w)]. *)
Context (rec : list (list Z) → list Z → Z → res sup_status).

(** Lines 118-120. *)
Fixpoint tighten (v w : Z) (ins : list Z) (sup : list (list Z)) : res (list (list Z)) :=
  match ins with
  | [] => Ok sup
  | i :: ins' =>
      r ← dict_get (vertex2index (input_nodes state)) i;
      a ← np_get2 sup r v;
      b ← np_get2 sup r w;
      sup ← (if decide (a > b) then np_set2 sup r v b else Ok sup);
      tighten v w ins' sup
  end.

(** The loop of lines 111-120 over the neighbours [ws] still to visit;
    [inl] is the [return] of line 116. *)
Fixpoint walk_neighbors (v : Z) (ws : list Z) (sup : list (list Z))
    (status : list Z) : res (sup_status + sup_status) :=
  match ws with
  | [] => Ok (inr (sup, status))
  | w :: ws' =>
      fv ← dict_get f v;
      if decide (w = fv ∧ w ≠ v) then
        s ← np_get status w;
        '(sup, status) ← (if decide (s = 0) then rec sup status w
                          else Ok (sup, status));
        s ← np_get status w;
        if decide (s = 1) then Ok (inl (sup, status))
        else
          sup ← tighten v w (input_nodes state) sup;
          walk_neighbors v ws' sup status
      else walk_neighbors v ws' sup status
  end.

Definition traverse_body (sup : list (list Z)) (status : list Z) (v : Z) : res sup_status :=
  status ← np_set status v 1;
  ws ← graph_neighbors (graph state) v;
  r ← walk_neighbors v ws sup status;
  match r with
  | inl ret => Ok ret
  | inr (sup, status) =>
      status ← np_set status v 2;
      Ok (sup, status)
  end.
End TraverseInflWalk.

Fixpoint _traverse_infl_walk (fuel : nat) (state : GraphStateCircuit)
    (f : gmap Z Z) (sup : list (list Z)) (status : list Z) (v : Z) : res sup_status :=
  match fuel with
  | O => OutOfFuel
  | S fuel' =>
      traverse_body state f
        (λ sup status w, _traverse_infl_walk fuel' state f sup status w)
        sup status v
  end.

(** The loop of lines 96-101 over the vertices [vs] still to visit; [None]
    is the [return None] of line 101. *)
Fixpoint suprema_loop (fuel : nat) (state : GraphStateCircuit) (f : gmap Z Z)
    (vs : list Z) (sup : list (list Z)) (status : list Z)
    : res (option (list (list Z))) :=
  match vs with
  | [] => Ok (Some sup)
  | v :: vs' =>
      s ← np_get status v;
      '(sup, status) ← (if decide (s = 0)
                        then _traverse_infl_walk fuel state f sup status v
                        else Ok (sup, status));
      s ← np_get status v;
      if decide (s = 1) then Ok None
      else suprema_loop fuel state f vs' sup status
  end.

(** ** Flow, flow graph, topological order *)

(** The closure [flow] returned by [_flow_from_array(state, f)]. *)
Definition _flow_from_array (state : GraphStateCircuit) (f : gmap Z Z) (v : Z) : res Z :=
  if decide (v ∈ outputc state) then dict_get f v
  else Raise UserWarning.

Fixpoint flowgraph_loop (flow : Z → res Z) (vs : list Z) (H : DiGraph) : res DiGraph :=
  match vs with
  | [] => Ok H
  | v :: vs' =>
      w ← flow v;
      flowgraph_loop flow vs' (dg_add_edge H v w)
  end.

Definition _get_flowgraph (state : GraphStateCircuit) (flow : Z → res Z) : res DiGraph :=
  flowgraph_loop flow (outputc state) dg_empty.

(** [list(nx.topological_sort(G))] of networkx (2.6 and later), which
    concatenates [nx.topological_generations(G)]: Kahn's algorithm, one
    generation of nodes of in-degree zero after the other. *)
Fixpoint topo_children (cs : list Z) (indegree_map : gmap Z Z) (zero_indegree : list Z)
    : res (gmap Z Z * list Z) :=
  match cs with
  | [] => Ok (indegree_map, zero_indegree)
  | child :: cs' =>
      match indegree_map !! child with
      | None => Raise RuntimeError
      | Some d =>
          if decide (d - 1 = 0)
          then topo_children cs' (delete child indegree_map) (zero_indegree ++ [child])
          else topo_children cs' (<[child:=d - 1]> indegree_map) zero_indegree
      end
  end.

Fixpoint topo_generation (G : DiGraph) (gen : list Z) (indegree_map : gmap Z Z)
    (zero_indegree : list Z) : res (gmap Z Z * list Z) :=
  match gen with
  | [] => Ok (indegree_map, zero_indegree)
  | node :: gen' =>
      if decide (node ∈ dg_nodes G) then
        cs ← dg_successors G node;
        '(indegree_map, zero_indegree) ← topo_children cs indegree_map zero_indegree;
        topo_generation G gen' indegree_map zero_indegree
      else Raise RuntimeError
  end.

Fixpoint topo_loop (fuel : nat) (G : DiGraph) (zero_indegree : list Z)
    (indegree_map : gmap Z Z) (yielded : list Z) : res (list Z) :=
  match zero_indegree with
  | [] => if decide (indegree_map = ∅) then Ok yielded
          else Raise NetworkXUnfeasible
  | _ =>
      match fuel with
      | O => OutOfFuel
      | S fuel' =>
          '(indegree_map, zero') ← topo_generation G zero_indegree indegree_map [];
          topo_loop fuel' G zero' indegree_map (yielded ++ zero_indegree)
      end
  end.

Definition topological_sort (fuel : nat) (G : DiGraph) : res (list Z) :=
  let indegree_map : gmap Z Z :=
    list_to_map (filter (λ p, p.2 > 0) ((λ v, (v, dg_in_degree G v)) <$> dg_nodes G)) in
  let zero_indegree :=
    filter (λ v, dg_in_degree G v = 0) (dg_nodes G) in
  topo_loop fuel G zero_indegree indegree_map [].

(** ** Iteration over a Python set

    Python does not specify the order in which a set is iterated: it depends
    on the hashes and on the history of the hash table. Two places of
    flow.py iterate a set where the order can show (lines 96 and 216); the
    embedding takes the order as a parameter [set_iter], any function that
    lists every element of the set once. *)
Definition set_iteration (set_iter : gset Z → list Z) : Prop :=
  ∀ X, set_iter X ≡ₚ elements X.

(** What [find_flow] returns: the pair [(flow, top_order)], or [None] when
    the end of the function body is reached (the [if] of line 46 has no
    [else]). *)
Inductive find_flow_ret :=
  | RetNone
  | RetFlow (flow : Z → res Z) (top_order : list Z).

Section WithSetIteration.
Context (set_iter : gset Z → list Z).

Definition _compute_suprema (fuel : nat) (state : GraphStateCircuit)
    (f : gmap Z Z) (P L : list Z) : res (option (list (list Z))) :=
  '(sup, status) ← _init_status state P L;
  suprema_loop fuel state f (set_iter (output_complement_set state)) sup status.

(** ** The validator *)

(** The list comprehension of line 216 over the elements [ks]. *)
Fixpoint order_before (top_order : list Z) (i : Z) (ks : list Z) : res (list bool) :=
  match ks with
  | [] => Ok []
  | k :: ks' =>
      oi ← list_index i top_order;
      ok ← list_index k top_order;
      bs ← order_before top_order i ks';
      Ok (bool_decide (oi < ok) :: bs)
  end.

(** [math.prod] of a list of bools. *)
Definition math_prod (bs : list bool) : Z := foldr (λ b z, Z.b2z b * z) 1 bs.

(** The loop of lines 211-218. [state.graph.neighbors] returns an
    iterator: the membership test of line 213 advances it, and the
    [set(nfi)] of line 216 collects what it still yields. *)
Fixpoint check_loop (state : GraphStateCircuit) (flow : Z → res Z)
    (top_order : list Z) (vs : list Z) (conds : Z) : res Z :=
  match vs with
  | [] => Ok conds
  | i :: vs' =>
      fi ← flow i;
      nfi ← graph_neighbors (graph state) fi;
      let '(c1, nfi) := iter_contains i nfi in
      oi ← list_index i top_order;
      fi ← flow i;
      ofi ← list_index fi top_order;
      let c2 := bool_decide (oi < ofi) in
      bs ← order_before top_order i (set_iter (list_to_set nfi ∖ {[i]}));
      let c3 := math_prod bs in
      check_loop state flow top_order vs' (conds * Z.b2z c1 * Z.b2z c2 * c3)
  end.

Definition _check_if_flow (state : GraphStateCircuit) (flow : Z → res Z)
    (top_order : list Z) : res Z :=
  check_loop state flow top_order (outputc state) 1.

(** ** find_flow *)

Definition find_flow (fuel : nat) (state : GraphStateCircuit)
    (sanity_check : bool) : res find_flow_ret :=
  let n_input := length (input_nodes state) in
  let n_output := length (output_nodes state) in
  if decide (n_input ≠ n_output) then Raise ValueError
  else
    tau ← _build_path_cover fuel state;
    if truthy tau then
      '(f, P, L) ← _get_chain_decomposition fuel state tau;
      sigma ← _compute_suprema fuel state f P L;
      match sigma with
      | Some _ =>
          let flow := _flow_from_array state f in
          g ← _get_flowgraph state flow;
          top_order ← topological_sort fuel g;
          if sanity_check then
            c ← _check_if_flow state flow top_order;
            if negb (py_truth c) then Raise RuntimeError
            else Ok (RetFlow flow top_order)
          else Ok (RetFlow flow top_order)
      | None => Ok RetNone
      end
    else Raise UserWarning.
End WithSetIteration.

(** ** States used below *)

(** The example of the docstring of [find_flow]: the path 0-1-2-3-4. *)
Definition path_graph : Graph :=
  graph_add_edges_from [(0, 1); (1, 2); (2, 3); (3, 4)] [].
Definition path_state : GraphStateCircuit := mkState path_graph [0] [4].

(** What the stages compute on [path_state]. *)
Definition path_cover : DiGraph :=
  mkDiGraph [3; 4; 2; 1; 0] [(3, 4); (2, 3); (1, 2); (0, 1)].
Definition path_f : gmap Z Z := list_to_map [(0, 1); (1, 2); (2, 3); (3, 4)].

(** The graph without vertices. *)
Definition empty_state : GraphStateCircuit := mkState [] [] [].

(** An instance of [set_iter]: the elements in ascending order. *)
Definition ascending (X : gset Z) : list Z := merge_sort Z.le (elements X).


(** A state on which the re-rooting of lines 173-183 succeeds: the search
    from input 3 reaches 2, re-roots its predecessor 1, whose predecessor 0
    finds the free output 4. [reroot_fam] is the family after the search
    from input 0. *)
Definition reroot_graph : Graph :=
  graph_add_edges_from [(0, 1); (1, 2); (3, 2); (0, 4)] [].
Definition reroot_state : GraphStateCircuit := mkState reroot_graph [0; 3] [2; 4].
Definition reroot_fam : DiGraph := mkDiGraph [1; 2; 0] [(1, 2); (0, 1)].

(** A triangle; [triangle_f] is the successor map that [find_flow] computes
    on it. *)
Definition triangle_graph : Graph :=
  graph_add_edges_from [(0, 1); (0, 2); (1, 2)] [].
Definition triangle_state : GraphStateCircuit := mkState triangle_graph [0] [2].
Definition triangle_f : gmap Z Z := list_to_map [(0, 1); (1, 2)].

(** Seven vertices, two of which, 0 and -7, index the same cell of an array
    of length 7. *)
Definition alias_graph : Graph :=
  graph_add_edges_from [(2, 3); (3, -7); (0, 1); (4, 1); (0, 3); (2, 5)] [].
Definition alias_state : GraphStateCircuit :=
  mkState alias_graph [0; 2; 4] [1; -7; 5].

(** Two vertices with negative labels. *)
Definition negative_state : GraphStateCircuit :=
  mkState (graph_add_edges_from [(-2, -1)] []) [-2] [-1].

(** The path 0-1 and an isolated vertex labelled 7. *)
Definition isolated_state : GraphStateCircuit :=
  mkState [(0, [1]); (1, [0]); (7, [])] [0] [1].

(** Two vertices, 2 and 3, that are each other's successor, next to the
    chain 0 -> 1; [cycle_P] and [cycle_L] are origins and depths. *)
Definition cycle_state : GraphStateCircuit :=
  mkState (graph_add_edges_from [(0, 1); (2, 3)] []) [0] [1].
Definition cycle_f : gmap Z Z := list_to_map [(0, 1); (2, 3); (3, 2)].
Definition cycle_P : list Z := [0; 0; 0; 0].
Definition cycle_L : list Z := [0; 1; 0; 0].

(** Two vertices labelled 5 and 6 that are each other's successor. *)
Definition far_cycle_state : GraphStateCircuit :=
  mkState (graph_add_edges_from [(5, 6)] []) [] [].
Definition far_cycle_f : gmap Z Z := list_to_map [(5, 6); (6, 5)].

(** The vertices 0 and 1 are each other's successor; the output -3 indexes
    the cell of 0 in an array of length 3. *)
Definition shared_cell_state : GraphStateCircuit :=
  mkState (graph_add_edges_from [(0, 1); (1, -3)] []) [] [-3].
Definition shared_cell_f : gmap Z Z := list_to_map [(0, 1); (1, 0)].

(** ** The flow conditions, in the words of the specification

    For every [v] of the output complement: (a) [v] is adjacent to
    [flow(v)]; (b) [order(v) < order(flow(v))]; (c) [order(v) < order(k)]
    for every other neighbour [k] of [flow(v)]. [order] is the position in
    [top_order]. *)
Definition flow_conditions_at (state : GraphStateCircuit) (flow : Z → res Z)
    (top_order : list Z) (v : Z) : Prop :=
  ∃ fv ns ov ofv,
    flow v = Ok fv ∧ graph_neighbors (graph state) fv = Ok ns ∧
    list_index v top_order = Ok ov ∧ list_index fv top_order = Ok ofv ∧
    v ∈ ns ∧
    ov < ofv ∧
    ∀ k, k ∈ ns → k ≠ v → ∃ ok, list_index k top_order = Ok ok ∧ ov < ok.

Definition flow_conditions (state : GraphStateCircuit) (flow : Z → res Z)
    (top_order : list Z) : Prop :=
  ∀ v, v ∈ outputc state → flow_conditions_at state flow top_order v.

(** ** Cycles of the successor map

    [cyc] is a set of vertices of the graph, none of them an output, that
    the traversal cannot leave: every vertex of [cyc] has its successor
    [f[v]] among its neighbours, different from itself, and again in [cyc].
    Following successors from a vertex of [cyc] never ends, so [cyc]
    contains a cycle; the vertices of a cycle form such a set. *)
Definition successor_closed (state : GraphStateCircuit) (f : gmap Z Z) (cyc : list Z) : Prop :=
  Forall (λ v,
    (v ∈ graph_nodes (graph state)) ∧ (v ∉ output_nodes state) ∧
    (∃ w ns, f !! v = Some w ∧ graph_adj (graph state) v = Some ns ∧
             w ∈ ns ∧ w ≠ v ∧ w ∈ cyc)) cyc.

Definition successor_cycle (state : GraphStateCircuit) (f : gmap Z Z) (cyc : list Z) : Prop :=
  cyc ≠ [] ∧ successor_closed state f cyc.

(** The vertex labels are the indices of an array of length [|V|]. *)
Definition labels_in_range (state : GraphStateCircuit) : Prop :=
  Forall (λ v, 0 ≤ v < Z.of_nat (number_of_nodes state)) (graph_nodes (graph state)).

(** The successor map is defined on the output complement. *)
Definition successor_total (state : GraphStateCircuit) (f : gmap Z Z) : Prop :=
  Forall (λ v, v ∈ output_nodes state ∨ is_Some (f !! v)) (graph_nodes (graph state)).

(** The shape of [sup]: one row per input node, one column per vertex. *)
Definition sup_shape (rows cols : nat) (sup : list (list Z)) : Prop :=
  length sup = rows ∧ Forall (λ row, length row = cols) sup.

(** The number of unvisited vertices, the measure of the traversal. *)
Fixpoint zeros (status : list Z) : nat :=
  match status with
  | [] => 0%nat
  | x :: status' => if decide (x = 0) then S (zeros status') else zeros status'
  end.

(** What the traversal maintains: no vertex of [cyc] is ever resolved, and
    the output nodes are resolved from the start. *)
Definition status_inv (state : GraphStateCircuit) (cyc : list Z) (status : list Z) : Prop :=
  length status = number_of_nodes state ∧
  (∀ u, u ∈ cyc →
     status !! Z.to_nat u = Some 0 ∨ status !! Z.to_nat u = Some 1) ∧
  (∀ u, u ∈ graph_nodes (graph state) → u ∈ output_nodes state →
     status !! Z.to_nat u = Some 2).

(** Only unvisited vertices change their status. *)
Definition status_frame (status status' : list Z) : Prop :=
  ∀ j x, status !! j = Some x → x ≠ 0 → status' !! j = Some x.

(** What a call of [_traverse_infl_walk] on [v] establishes. *)
Definition traverse_post (state : GraphStateCircuit) (cyc : list Z) (v : Z)
    (status : list Z) (ret : sup_status) : Prop :=
  sup_shape (length (input_nodes state)) (number_of_nodes state) ret.1 ∧
  status_inv state cyc ret.2 ∧
  status_frame status ret.2 ∧
  (zeros ret.2 ≤ zeros status)%nat ∧
  (ret.2 !! Z.to_nat v = Some 1 ∨ (ret.2 !! Z.to_nat v = Some 2 ∧ v ∉ cyc)).

(** [res_le r1 r2]: [r2] is the outcome [r1], or [r1] ran out of fuel. *)
Definition res_le {A} (r1 r2 : res A) : Prop := r1 = OutOfFuel ∨ r1 = r2.

(** [res_ok r Q]: the call returns, and its value satisfies [Q]. *)
Definition res_ok {A} (r : res A) (Q : A → Prop) : Prop := ∃ a, r = Ok a ∧ Q a.

(** ** Following the successor map

    [follow f k v] applies the successor map [k] times from [v]. *)
Fixpoint follow (f : gmap Z Z) (k : nat) (v : Z) : option Z :=
  match k with
  | O => Some v
  | S k' => w ← f !! v; follow f k' w
  end.

(** The path that the [while] loop of lines 80-85 walks: from [v] through
    the vertices [vs], none of them an output, to the output [o], each step
    going to the first successor in the cover. *)
Inductive walk_to (state : GraphStateCircuit) (C : pyval) : Z → list Z → Z → Prop :=
  | walk_done v : v ∈ output_nodes state → walk_to state C v [] v
  | walk_step v w ss vs o :
      v ∉ output_nodes state →
      tau_successors C v = Ok ss → py_next ss = Ok w →
      walk_to state C w vs o →
      walk_to state C v (v :: vs) o.

(** The successor map [f] holds for [u] the first successor of [u] in the
    cover. *)
Definition agrees (C : pyval) (f : gmap Z Z) (u : Z) : Prop :=
  ∃ ss w, tau_successors C u = Ok ss ∧ py_next ss = Ok w ∧ f !! u = Some w.

(** What the augmenting search maintains: [visited] keeps its length, and
    the nodes of the family are vertices of the graph and indices of
    [visited]. *)
Definition label_ok (state : GraphStateCircuit) (x : Z) : Prop :=
  x ∈ graph_nodes (graph state) ∧
  - Z.of_nat (number_of_nodes state) ≤ x < Z.of_nat (number_of_nodes state).

Definition search_inv (state : GraphStateCircuit) (fam : fam_var)
    (visited : list Z) : Prop :=
  length visited = number_of_nodes state ∧
  ∀ g, fam = FamRef g → Forall (label_ok state) (dg_nodes g).

(** [res_post r Q]: if the call returns, its value satisfies [Q]. *)
Definition res_post {A} (r : res A) (Q : A → Prop) : Prop := ∀ a, r = Ok a → Q a.

(** ** Precedence in an order

    [u] comes before [v] in [top_order]. *)
Definition precedes (top_order : list Z) (u v : Z) : Prop :=
  ∃ iu iv, list_index u top_order = Ok iu ∧ list_index v top_order = Ok iv ∧ iu < iv.

(** The value of [c3] on line 215. *)
Definition c3_of (top_order : list Z) (i : Z) (ks : list Z) : res Z :=
  bs ← order_before top_order i ks; Ok (math_prod bs).

(** ** What the search maintains about the edges of the family *)

(** What the augmenting search maintains about the family: an edge of the
    family is an edge of the graph that leaves no output node and enters no
    input node. *)
Definition cover_edge_ok (state : GraphStateCircuit) (e : Z * Z) : Prop :=
  (e.1 ∉ output_nodes state) ∧ (e.2 ∉ input_nodes state) ∧
  (∃ ns, graph_adj (graph state) e.1 = Some ns ∧ e.2 ∈ ns).

(** A node of the family is not both an input and an output node. *)
Definition cover_node_ok (state : GraphStateCircuit) (x : Z) : Prop :=
  x ∉ input_nodes state ∨ x ∉ output_nodes state.

(** [cover_inv state fam]: the two properties hold of the object that
    [fam] refers to. *)
Definition cover_inv (state : GraphStateCircuit) (fam : fam_var) : Prop :=
  ∀ g, fam = FamRef g →
    Forall (cover_edge_ok state) (dg_edges g) ∧ Forall (cover_node_ok state) (dg_nodes g).

(** [flow_path state flow v vs o]: following [flow] from [v] passes through
    the vertices [vs] in turn, each step along an edge of the graph, and
    arrives at [o]. *)
Fixpoint flow_path (state : GraphStateCircuit) (flow : Z → res Z) (v : Z)
    (vs : list Z) (o : Z) : Prop :=
  match vs with
  | [] => v = o
  | u :: vs' =>
      u = v ∧ ∃ w ns, flow v = Ok w ∧ graph_adj (graph state) v = Some ns ∧ w ∈ ns
                      ∧ flow_path state flow w vs' o
  end.

(** One vertex, which is both the input and the output node. *)
Definition loop_state : GraphStateCircuit := mkState [(0, [])] [0] [0].

(** ** Measures of the two recursions *)

(** [res_runs r Q]: the call does not run out of fuel, and if it returns,
    its value satisfies [Q]. *)
Definition res_runs {A} (r : res A) (Q : A → Prop) : Prop :=
  r ≠ OutOfFuel ∧ ∀ a, r = Ok a → Q a.

(** The number of cells of [visited] that carry a stamp below [iter], the
    measure of the augmenting search. *)
Fixpoint stale (iter : Z) (visited : list Z) : nat :=
  match visited with
  | [] => 0%nat
  | x :: visited' =>
      if decide (x < iter) then S (stale iter visited') else stale iter visited'
  end.

(** What a call of [_augmented_search] with the stamp [iter] does to
    [visited]. *)
Definition search_post (iter : Z) (visited : list Z) (ret : search_ret) : Prop :=
  length ret.1.2 = length visited ∧
  (stale iter ret.1.2 ≤ stale iter visited)%nat ∧
  (Forall (λ x, x ≤ iter) visited → Forall (λ x, x ≤ iter) ret.1.2).

(** What a call of [_traverse_infl_walk] does to [status] in any case:
    its length stays, and so does every cell that was pending or
    resolved. *)
Definition frame_post (status : list Z) (ret : sup_status) : Prop :=
  length ret.2 = length status ∧ status_frame status ret.2.

(** ** The tests of the validator *)

(** What the validator tests at [v]: [v] is listed among the neighbours of
    [flow(v)], it comes before [flow(v)] in [top_order], and it comes before
    every neighbour of [flow(v)] that is listed after [v]. *)
Definition checked_at (state : GraphStateCircuit) (flow : Z → res Z)
    (top_order : list Z) (v : Z) : Prop :=
  ∃ fv pre rest ov ofv,
    flow v = Ok fv ∧ graph_neighbors (graph state) fv = Ok (pre ++ v :: rest) ∧
    (v ∉ pre) ∧
    list_index v top_order = Ok ov ∧ list_index fv top_order = Ok ofv ∧
    ov < ofv ∧
    ∀ k, k ∈ rest → k ≠ v → ∃ ok, list_index k top_order = Ok ok ∧ ov < ok.

(** ** Exceptions *)

(** [raises_only E r]: if the call raises, the exception satisfies [E]. *)
Definition raises_only {A} (E : exn → Prop) (r : res A) : Prop :=
  ∀ e, r = Raise e → E e.

(** The exceptions that come from numpy, networkx, a dict, an iterator or
    [None], and the RuntimeError of the sanity check. *)
Definition internal_error (e : exn) : Prop :=
  e ∈ [RuntimeError; IndexError; KeyError; AttributeError; StopIteration;
       NetworkXError; NetworkXUnfeasible; OverflowError].

(** ** The edges that the traversal follows *)

(** An edge that the traversal follows from a vertex [u] that is no output:
    [w] is the successor [f[u]], a neighbour of [u] other than [u], and no
    output either. *)
Definition fstep (state : GraphStateCircuit) (f : gmap Z Z) (u w : Z) : Prop :=
  (u ∉ output_nodes state) ∧ f !! u = Some w ∧ w ≠ u ∧ (w ∉ output_nodes state) ∧
  (∃ ns, graph_adj (graph state) u = Some ns ∧ w ∈ ns).

(** The output nodes are resolved. *)
Definition outputs_resolved (state : GraphStateCircuit) (status : list Z) : Prop :=
  ∀ u, u ∈ graph_nodes (graph state) → u ∈ output_nodes state →
    status !! Z.to_nat u = Some 2.

(** What a call of [_traverse_infl_walk] on [v] establishes when the
    successor map has no cycle: [v] is resolved, and no vertex has become
    pending. *)
Definition resolved_post (state : GraphStateCircuit) (status : list Z) (v : Z)
    (ret : sup_status) : Prop :=
  length ret.2 = length status ∧
  status_frame status ret.2 ∧
  ret.2 !! Z.to_nat v = Some 2 ∧
  (∀ p, p ∈ graph_nodes (graph state) →
     ret.2 !! Z.to_nat p = Some 1 → status !! Z.to_nat p = Some 1).

(** ** The topological sort *)

(** The invariant of [nx.DiGraph]: the nodes are the keys of a dict, and
    the end points of an edge are nodes. *)
Definition wf_digraph (G : DiGraph) : Prop :=
  NoDup (dg_nodes G) ∧ ∀ u v, (u, v) ∈ dg_edges G → u ∈ dg_nodes G ∧ v ∈ dg_nodes G.

(** The number of edges that enter [c] from a node outside [done], the
    value that [indegree_map] holds for [c] once the nodes of [done] have
    been processed. *)
Definition pending_in (G : DiGraph) (done : list Z) (c : Z) : nat :=
  length (filter (λ e, e.2 = c ∧ e.1 ∉ done) (dg_edges G)).

(** How often [c] occurs in [cs]. *)
Definition occurrences (c : Z) (cs : list Z) : nat :=
  length (filter (λ x, x = c) cs).

(** [indegree_map] has no entry for a node without pending edges. *)
Definition indegree_entry (n : nat) : option Z :=
  if decide (n = 0%nat) then None else Some (Z.of_nat n).

(** ** Origins and depths *)

(** [walk_at state C i k u]: [u] is the vertex at position [k] of the walk
    of lines 80-86 from [i] in the cover [C], the output that ends the walk
    included. *)
Definition walk_at (state : GraphStateCircuit) (C : pyval) (i : Z) (k : nat) (u : Z) : Prop :=
  ∃ vs o, walk_to state C i vs o ∧ (vs ++ [o]) !! k = Some u.

(** The cells of [P] and [L] for [u] hold an input node whose walk passes
    through [u], and the position of [u] on that walk. *)
Definition origin_depth (state : GraphStateCircuit) (C : pyval) (P L : list Z) (u : Z) : Prop :=
  ∃ j k, j ∈ input_nodes state ∧ walk_at state C j k u ∧
         P !! Z.to_nat u = Some j ∧ L !! Z.to_nat u = Some (Z.of_nat k).

(** The same, read with the successor dict and the arrays as Python reads
    them: following [f] from the input [P[u]] for [L[u]] steps arrives at
    [u]. *)
Definition recorded (state : GraphStateCircuit) (f : gmap Z Z) (P L : list Z) (u : Z) : Prop :=
  ∃ j k, j ∈ input_nodes state ∧ follow f k j = Some u ∧
         np_get P u = Ok j ∧ np_get L u = Ok (Z.of_nat k).

(** A vertex that no walk has passed keeps the zeros of lines 75-76. *)
Definition untouched (P L : list Z) (u : Z) : Prop :=
  P !! Z.to_nat u = Some 0 ∧ L !! Z.to_nat u = Some 0.

(** ** The supremum table *)

(** The cell [sup[r, v]] for a label [v] in range. *)
Definition cell (sup : list (list Z)) (r : nat) (v : Z) : option Z :=
  row ← sup !! r; row !! Z.to_nat v.

(** The value that lines 135-138 store for the input [i] and the vertex
    [v]. *)
Definition init_value (state : GraphStateCircuit) (P L : list Z) (i v : Z) : res Z :=
  pv ← np_get P v;
  if decide (i = pv) then np_get L v else Ok (Z.of_nat (number_of_nodes state)).

(** ** Index and key errors *)

(** The path 0-1 and a third vertex that no chain can reach. *)
Definition uncovered_state : GraphStateCircuit :=
  mkState [(0, [1]); (1, [0]); (2, [])] [0] [1].

(** An exception of an array index or of a dict key. *)
Definition index_error (e : exn) : Prop := e = IndexError ∨ e = KeyError.

(** ** A failed search *)

(** What a call of [_augmented_search] returns: the status is 0 or 1, and
    with the status 0 the variable [fam] and the family are as they
    were. *)
Definition failure_post (fam : fam_var) (ret : search_ret) : Prop :=
  (ret.2 = 0 ∨ ret.2 = 1) ∧ (ret.2 = 0 → ret.1.1 = fam).

(** One vertex without neighbours as the input, and an output that is no
    vertex. *)
Definition stuck_state : GraphStateCircuit := mkState [(0, [])] [0] [1].

(** ** Labels that are no index *)

(** [v] is an index of an array of length [len]. *)
Definition valid_index (len : nat) (v : Z) : Prop :=
  - Z.of_nat len ≤ v < Z.of_nat len.

(** The exception of [a[v]] when [v] is no index of the array [a]. *)
Definition index_exn (v : Z) : exn :=
  if decide (- 2 ^ 63 ≤ v < 2 ^ 63) then IndexError else OverflowError.

(** [index_failure v e]: [e] is the IndexError of an index out of bounds
    or, only when [v] does not fit the 64-bit index type, OverflowError. *)
Definition index_failure (v : Z) (e : exn) : Prop :=
  e = IndexError ∨ (e = OverflowError ∧ ¬ (- 2 ^ 63 ≤ v < 2 ^ 63)).

(** A state with a vertex labelled 5 and one labelled [2^63]. *)
Definition far_label_state : GraphStateCircuit :=
  mkState [(5, [6]); (6, [5])] [5] [6].
Definition huge_label_state : GraphStateCircuit :=
  mkState [(2 ^ 63, [0]); (0, [2 ^ 63])] [2 ^ 63] [0].

(** ** Chains *)

(** [chain_of state C i v]: the walk of lines 80-85 from [i] passes through
    [v]. *)
Definition chain_of (state : GraphStateCircuit) (C : pyval) (i v : Z) : Prop :=
  ∃ vs o, walk_to state C i vs o ∧ v ∈ vs.

(** [on_chain state C v]: [v] is on the chain of some input node. *)
Definition on_chain (state : GraphStateCircuit) (C : pyval) (v : Z) : Prop :=
  ∃ i, i ∈ input_nodes state ∧ chain_of state C i v.

(** The input node 0 is listed twice: the two searches from 0 build the
    cover 0 -> 1, 0 -> 2 -> 3, and both walks of the chain decomposition
    go from 0 to 1. *)
Definition dup_state : GraphStateCircuit :=
  mkState (graph_add_edges_from [(0, 1); (0, 2); (2, 3)] []) [0; 0] [1; 3].
Definition dup_cover : DiGraph := mkDiGraph [0; 1; 2; 3] [(0, 1); (2, 3); (0, 2)].
Definition dup_f : gmap Z Z := list_to_map [(0, 1); (2, 0)].

(** ** The family as a system of chains *)

(** [dg_edge g u w]: the family has the edge from [u] to [w]. *)
Definition dg_edge (g : DiGraph) (u w : Z) : Prop := (u, w) ∈ dg_edges g.

(** No node has two successors; no node has two predecessors. *)
Definition out_unique (g : DiGraph) : Prop :=
  ∀ u w1 w2, dg_edge g u w1 → dg_edge g u w2 → w1 = w2.
Definition in_unique (g : DiGraph) : Prop :=
  ∀ u1 u2 w, dg_edge g u1 w → dg_edge g u2 w → u1 = u2.

(** The ends of an edge are nodes of the family, and the nodes are
    vertices of the graph. *)
Definition edges_closed (g : DiGraph) : Prop :=
  ∀ u w, dg_edge g u w → u ∈ dg_nodes g ∧ w ∈ dg_nodes g.
Definition nodes_in_graph (state : GraphStateCircuit) (g : DiGraph) : Prop :=
  ∀ x, x ∈ dg_nodes g → x ∈ graph_nodes (graph state).

(** Every node is reached along the edges from one of the input nodes
    [srcs]. *)
Definition rooted (srcs : list Z) (g : DiGraph) : Prop :=
  ∀ x, x ∈ dg_nodes g → ∃ i, i ∈ srcs ∧ rtc (dg_edge g) i x.

(** What the family is after the searches from the input nodes [srcs]:
    vertex-disjoint chains that start at these input nodes. *)
Definition chains_inv (state : GraphStateCircuit) (srcs : list Z) (g : DiGraph) : Prop :=
  Forall (cover_edge_ok state) (dg_edges g) ∧ nodes_in_graph state g ∧ edges_closed g
  ∧ out_unique g ∧ in_unique g ∧ rooted srcs g.

(** ** Stamps

    A vertex is stamped when its cell of [visited] holds the number [iter]
    of the current search, and unstamped when the cell holds less. *)
Definition unstamped (iter : Z) (V : list Z) (u : Z) : Prop :=
  ∃ z, V !! Z.to_nat u = Some z ∧ z < iter.
Definition stamped (iter : Z) (V : list Z) (u : Z) : Prop :=
  ∃ z, V !! Z.to_nat u = Some z ∧ iter ≤ z.

(** From [V] to [V'] cells have only been set to [iter]. *)
Definition stamps_grow (iter : Z) (V V' : list Z) : Prop :=
  length V' = length V ∧ ∀ j z, V' !! j = Some z → V !! j = Some z ∨ z = iter.

(** The predecessor in [g0] of a stamped vertex is stamped; [_but x]: or it
    is [x]. *)
Definition pred_closed (iter : Z) (g0 : DiGraph) (V : list Z) : Prop :=
  ∀ p u, dg_edge g0 p u → stamped iter V u → stamped iter V p.
Definition pred_closed_but (iter : Z) (g0 : DiGraph) (V : list Z) (x : Z) : Prop :=
  ∀ p u, dg_edge g0 p u → stamped iter V u → stamped iter V p ∨ p = x.

(** [augmented state iter srcs g0 V x g']: what a successful search from
    [x] has made of the family [g0], with [V] the stamps before it. Edges
    were removed only at unstamped sources; edges were added only from [x]
    or an unstamped source to an unstamped target; every node but [x]
    still has at most one successor, and [x] has one more than before;
    predecessors stay unique; every node is reached from an input node or
    from [x]; and the edges of [g0] that lead to [x] are all kept. *)
Definition augmented (state : GraphStateCircuit) (iter : Z) (srcs : list Z)
    (g0 : DiGraph) (V : list Z) (x : Z) (g' : DiGraph) : Prop :=
  nodes_in_graph state g' ∧ edges_closed g'
  ∧ (∀ y, y ∈ dg_nodes g0 → y ∈ dg_nodes g')
  ∧ (∀ a b, dg_edge g0 a b → ¬ dg_edge g' a b → unstamped iter V a ∧ a ≠ x)
  ∧ (∀ a b, dg_edge g' a b → ¬ dg_edge g0 a b →
       (a = x ∨ unstamped iter V a) ∧ unstamped iter V b ∧ b ≠ x)
  ∧ (∀ u w1 w2, u ≠ x → dg_edge g' u w1 → dg_edge g' u w2 → w1 = w2)
  ∧ (∃ t, ∀ w, dg_edge g' x w → dg_edge g0 x w ∨ w = t)
  ∧ in_unique g'
  ∧ (∀ y, y ∈ dg_nodes g' →
       (∃ i, i ∈ srcs ∧ rtc (dg_edge g') i y) ∨ rtc (dg_edge g') x y)
  ∧ (∀ a b, dg_edge g0 a b → rtc (dg_edge g0) b x → dg_edge g' a b).

(** What a call of [_augmented_search] on [x] that returns has done, with
    [g0] the family and [V] the stamps before the call. *)
Definition search_ok (state : GraphStateCircuit) (iter : Z) (srcs : list Z)
    (g0 : DiGraph) (V : list Z) (x : Z) (ret : search_ret) : Prop :=
  stamps_grow iter V ret.1.2 ∧ stamped iter ret.1.2 x
  ∧ (ret.2 = 0 → ret.1.1 = FamRef g0 ∧ pred_closed iter g0 ret.1.2)
  ∧ (ret.2 ≠ 0 →
       (∃ g, ret.1.1 = FamNone g ∧ x ∉ input_nodes state)
       ∨ ∃ g', ret.1.1 = FamRef g' ∧ augmented state iter srcs g0 V x g').

#[global] Instance dg_edge_dec g u w : Decision (dg_edge g u w).
Proof. unfold dg_edge. apply _. Defined.

(** * Properties *)

(** ** Fuel: more fuel never changes an outcome *)

Lemma res_le_refl {A} (r : res A) : res_le r r.
Proof. by right. Qed.

Lemma res_le_bind {A B} (m1 m2 : res A) (k1 k2 : A → res B) :
  res_le m1 m2 → (∀ a, res_le (k1 a) (k2 a)) → res_le (m1 ≫= k1) (m2 ≫= k2).
Proof.
  intros [->| ->] Hk; [by left|].
  destruct m2; simpl; [apply Hk|by right..].
Qed.


Lemma res_le_Raise {A} (r1 r2 : res A) e : res_le r1 r2 → r1 = Raise e → r2 = Raise e.
Proof. intros [->| ->]; congruence. Qed.

(** ** Outcomes of a sequence of calls *)

Lemma res_bind_Ok {A B} (m : res A) (k : A → res B) b :
  m ≫= k = Ok b → ∃ a, m = Ok a ∧ k a = Ok b.
Proof. destruct m; [by eexists|done..]. Qed.

Lemma res_post_bind {A B} (m : res A) (k : A → res B) (Q1 : A → Prop) (Q2 : B → Prop) :
  res_post m Q1 → (∀ a, Q1 a → res_post (k a) Q2) → res_post (m ≫= k) Q2.
Proof. intros Hm Hk b (a & Ha & Hb)%res_bind_Ok. by eapply Hk; [apply Hm|]. Qed.

Lemma res_post_any {A B} (m : res A) (k : A → res B) (Q : B → Prop) :
  (∀ a, res_post (k a) Q) → res_post (m ≫= k) Q.
Proof. intros Hk b (a & Ha & Hb)%res_bind_Ok. by eapply Hk. Qed.

Lemma res_ok_bind {A B} (m : res A) (k : A → res B) (Q1 : A → Prop) (Q2 : B → Prop) :
  res_ok m Q1 → (∀ a, Q1 a → res_ok (k a) Q2) → res_ok (m ≫= k) Q2.
Proof. intros (a & -> & Ha) Hk. by apply Hk. Qed.

(** Decidable facts about concrete values. *)
Ltac by_compute := apply (bool_decide_unpack _); vm_compute; exact I.

Ltac res_mono :=
  repeat first
    [ apply res_le_refl
    | assumption
    | match goal with
      | H : ∀ _, _ |- res_le _ _ => apply H
      end
    | apply res_le_bind; [|intros ?]
    | match goal with
      | |- res_le (match ?x with _ => _ end) (match ?x with _ => _ end) =>
          destruct x
      end ].

Section AugmentedSearchMono.
Context (state : GraphStateCircuit) (iter : Z).
Context (rec1 rec2 : fam_var → list Z → Z → res search_ret).
Hypothesis rec_le : ∀ fam visited u, res_le (rec1 fam visited u) (rec2 fam visited u).

Lemma scan_neighbors_mono v ws fam visited :
  res_le (scan_neighbors state iter rec1 v ws fam visited)
         (scan_neighbors state iter rec2 v ws fam visited).
Proof.
  revert fam visited. induction ws as [|w ws IH]; intros fam visited.
  - apply res_le_refl.
  - cbn [scan_neighbors]. res_mono.
Qed.

Lemma search_body_mono fam visited v :
  res_le (search_body state iter rec1 fam visited v)
         (search_body state iter rec2 fam visited v).
Proof.
  unfold search_body, reroot_pred. res_mono. apply scan_neighbors_mono.
Qed.
End AugmentedSearchMono.

Lemma _augmented_search_mono fuel fuel' state fam iter visited v :
  (fuel ≤ fuel')%nat →
  res_le (_augmented_search fuel state fam iter visited v)
         (_augmented_search fuel' state fam iter visited v).
Proof.
  revert fuel' fam visited v. induction fuel as [|fuel IH]; intros fuel' fam visited v Hle.
  - by left.
  - destruct fuel' as [|fuel']; [lia|]. cbn [_augmented_search].
    apply search_body_mono. intros. apply IH. lia.
Qed.

Lemma path_cover_loop_mono fuel fuel' state ins fam visited iter :
  (fuel ≤ fuel')%nat →
  res_le (path_cover_loop fuel state ins fam visited iter)
         (path_cover_loop fuel' state ins fam visited iter).
Proof.
  intros Hle. revert fam visited iter.
  induction ins as [|i ins IH]; intros fam visited iter; cbn [path_cover_loop].
  - apply res_le_refl.
  - apply res_le_bind; [by apply _augmented_search_mono|].
    intros [[fam' visited'] status]. destruct (negb (py_truth status)); [apply res_le_refl|apply IH].
Qed.

Lemma _build_path_cover_mono fuel fuel' state :
  (fuel ≤ fuel')%nat →
  res_le (_build_path_cover fuel state) (_build_path_cover fuel' state).
Proof.
  intros Hle. unfold _build_path_cover.
  apply res_le_bind; [by apply path_cover_loop_mono|]. intros; apply res_le_refl.
Qed.

Lemma chain_walk_mono fuel fuel' state C i v l f P L :
  (fuel ≤ fuel')%nat →
  res_le (chain_walk fuel state C i v l f P L) (chain_walk fuel' state C i v l f P L).
Proof.
  revert fuel' v l f P L. induction fuel as [|fuel IH]; intros fuel' v l f P L Hle.
  - by left.
  - destruct fuel' as [|fuel']; [lia|]. cbn [chain_walk].
    destruct (decide (v ∈ output_nodes state)); [apply res_le_refl|].
    repeat (apply res_le_bind; [apply res_le_refl|intros ?]). apply IH. lia.
Qed.

Lemma chain_loop_mono fuel fuel' state C ins f P L :
  (fuel ≤ fuel')%nat →
  res_le (chain_loop fuel state C ins f P L) (chain_loop fuel' state C ins f P L).
Proof.
  intros Hle. revert f P L.
  induction ins as [|i ins IH]; intros f P L; cbn [chain_loop].
  - apply res_le_refl.
  - apply res_le_bind; [by apply chain_walk_mono|]. intros [[f' P'] L']. apply IH.
Qed.

Lemma _get_chain_decomposition_mono fuel fuel' state C :
  (fuel ≤ fuel')%nat →
  res_le (_get_chain_decomposition fuel state C) (_get_chain_decomposition fuel' state C).
Proof. intros. by apply chain_loop_mono. Qed.

Section TraverseMono.
Context (state : GraphStateCircuit) (f : gmap Z Z).
Context (rec1 rec2 : list (list Z) → list Z → Z → res sup_status).
Hypothesis rec_le : ∀ sup status w, res_le (rec1 sup status w) (rec2 sup status w).

Lemma walk_neighbors_mono v ws sup status :
  res_le (walk_neighbors state f rec1 v ws sup status)
         (walk_neighbors state f rec2 v ws sup status).
Proof.
  revert sup status. induction ws as [|w ws IH]; intros sup status.
  - apply res_le_refl.
  - cbn [walk_neighbors]. res_mono.
Qed.

Lemma traverse_body_mono sup status v :
  res_le (traverse_body state f rec1 sup status v)
         (traverse_body state f rec2 sup status v).
Proof. unfold traverse_body. res_mono. apply walk_neighbors_mono. Qed.
End TraverseMono.

Lemma _traverse_infl_walk_mono fuel fuel' state f sup status v :
  (fuel ≤ fuel')%nat →
  res_le (_traverse_infl_walk fuel state f sup status v)
         (_traverse_infl_walk fuel' state f sup status v).
Proof.
  revert fuel' sup status v. induction fuel as [|fuel IH]; intros fuel' sup status v Hle.
  - by left.
  - destruct fuel' as [|fuel']; [lia|]. cbn [_traverse_infl_walk].
    apply traverse_body_mono. intros. apply IH. lia.
Qed.

Lemma suprema_loop_mono fuel fuel' state f vs sup status :
  (fuel ≤ fuel')%nat →
  res_le (suprema_loop fuel state f vs sup status)
         (suprema_loop fuel' state f vs sup status).
Proof.
  intros Hle. revert sup status.
  induction vs as [|v vs IH]; intros sup status; cbn [suprema_loop].
  - apply res_le_refl.
  - apply res_le_bind; [apply res_le_refl|intros s].
    apply res_le_bind.
    + destruct (decide (s = 0)); [by apply _traverse_infl_walk_mono|apply res_le_refl].
    + intros [sup' status']. apply res_le_bind; [apply res_le_refl|intros s'].
      destruct (decide (s' = 1)); [apply res_le_refl|apply IH].
Qed.

Lemma topo_loop_mono fuel fuel' G zero indeg yielded :
  (fuel ≤ fuel')%nat →
  res_le (topo_loop fuel G zero indeg yielded) (topo_loop fuel' G zero indeg yielded).
Proof.
  revert fuel' zero indeg yielded.
  induction fuel as [|fuel IH]; intros fuel' zero indeg yielded Hle.
  - destruct zero; [destruct fuel'; apply res_le_refl|by left].
  - destruct fuel' as [|fuel']; [lia|]. destruct zero as [|z zero]; [apply res_le_refl|].
    cbn [topo_loop]. apply res_le_bind; [apply res_le_refl|].
    intros [indeg' zero']. apply IH. lia.
Qed.

Lemma topological_sort_mono fuel fuel' G :
  (fuel ≤ fuel')%nat →
  res_le (topological_sort fuel G) (topological_sort fuel' G).
Proof. intros. by apply topo_loop_mono. Qed.

Section FindFlowMono.
Context (set_iter : gset Z → list Z).

Lemma _compute_suprema_mono fuel fuel' state f P L :
  (fuel ≤ fuel')%nat →
  res_le (_compute_suprema set_iter fuel state f P L)
         (_compute_suprema set_iter fuel' state f P L).
Proof.
  intros Hle. unfold _compute_suprema.
  apply res_le_bind; [apply res_le_refl|]. intros [sup status].
  by apply suprema_loop_mono.
Qed.

Lemma find_flow_mono fuel fuel' state sanity_check :
  (fuel ≤ fuel')%nat →
  res_le (find_flow set_iter fuel state sanity_check)
         (find_flow set_iter fuel' state sanity_check).
Proof.
  intros Hle. unfold find_flow.
  destruct (decide _); [apply res_le_refl|].
  apply res_le_bind; [by apply _build_path_cover_mono|]. intros tau.
  destruct (truthy tau); [|apply res_le_refl].
  apply res_le_bind; [by apply _get_chain_decomposition_mono|]. intros [[f P] L].
  apply res_le_bind; [by apply _compute_suprema_mono|]. intros [sup|]; [|apply res_le_refl].
  apply res_le_bind; [apply res_le_refl|]. intros g.
  apply res_le_bind; [by apply topological_sort_mono|]. intros; apply res_le_refl.
Qed.

(** Once an outcome is reached, it is the outcome for every larger fuel. *)
Lemma find_flow_fuel fuel fuel' state sanity_check r :
  (fuel ≤ fuel')%nat → r ≠ OutOfFuel →
  find_flow set_iter fuel state sanity_check = r →
  find_flow set_iter fuel' state sanity_check = r.
Proof.
  intros Hle Hr H. destruct (find_flow_mono fuel fuel' state sanity_check Hle) as [E|E];
    congruence.
Qed.
End FindFlowMono.

(** ** Concrete runs *)

Lemma ascending_set_iteration : set_iteration ascending.
Proof. intros X. unfold ascending. by rewrite merge_sort_Permutation. Qed.

Lemma path_build_path_cover :
  _build_path_cover 5 path_state = Ok (PyDiGraph path_cover).
Proof. vm_compute. reflexivity. Qed.

Lemma path_chain_decomposition :
  _get_chain_decomposition 5 path_state (PyDiGraph path_cover)
  = Ok (path_f, [0; 0; 0; 0; 0], [0; 1; 2; 3; 4]).
Proof. vm_compute. reflexivity. Qed.

Lemma path_suprema_loop vs sup status :
  _init_status path_state [0; 0; 0; 0; 0] [0; 1; 2; 3; 4] = Ok (sup, status) →
  vs ≡ₚ [0; 1; 2; 3] →
  suprema_loop 5 path_state path_f vs sup status = Ok (Some [[0; 1; 2; 3; 4]]).
Proof.
  intros Hinit Hperm. vm_compute in Hinit. injection Hinit as <- <-.
  symmetry in Hperm. apply permutations_Permutation in Hperm.
  vm_compute in Hperm.
  repeat (apply elem_of_cons in Hperm as [->|Hperm]);
    [vm_compute; reflexivity..|by apply elem_of_nil in Hperm].
Qed.

Lemma path_compute_suprema set_iter :
  set_iteration set_iter →
  _compute_suprema set_iter 5 path_state path_f [0; 0; 0; 0; 0] [0; 1; 2; 3; 4]
  = Ok (Some [[0; 1; 2; 3; 4]]).
Proof.
  intros Hiter. unfold _compute_suprema.
  destruct (_init_status _ _ _) as [[sup status]| |] eqn:Hinit;
    [|vm_compute in Hinit; discriminate..].
  cbn [mbind res_bind]. apply path_suprema_loop; [done|].
  rewrite (Hiter _). by_compute.
Qed.

(** ** The validator does not depend on the order of set iteration *)

Lemma list_index_outcome x l :
  (∃ i, list_index x l = Ok i) ∨ list_index x l = Raise ValueError.
Proof.
  induction l as [|y l IH]; cbn [list_index]; [by right|].
  destruct (decide (y = x)); [left; eauto|].
  destruct IH as [[i ->]| ->]; [left; eauto|by right].
Qed.

Lemma c3_of_cons top_order i k ks :
  c3_of top_order i (k :: ks)
  = oi ← list_index i top_order;
    ok ← list_index k top_order;
    c ← c3_of top_order i ks;
    Ok (Z.b2z (bool_decide (oi < ok)) * c).
Proof.
  unfold c3_of. cbn [order_before].
  destruct (list_index i top_order); [|done..]. cbn [mbind res_bind].
  destruct (list_index k top_order); [|done..]. cbn [mbind res_bind].
  by destruct (order_before top_order i ks).
Qed.

Lemma c3_of_outcome top_order i ks :
  (∃ c, c3_of top_order i ks = Ok c) ∨ c3_of top_order i ks = Raise ValueError.
Proof.
  induction ks as [|k ks IH]; [left; by eexists|].
  rewrite c3_of_cons.
  destruct (list_index_outcome i top_order) as [[oi ->]| ->]; [|by right].
  destruct (list_index_outcome k top_order) as [[ok ->]| ->]; [|by right].
  destruct IH as [[c ->]| ->]; [left; by eexists|by right].
Qed.

Lemma c3_of_Permutation top_order i ks ks' :
  ks ≡ₚ ks' → c3_of top_order i ks = c3_of top_order i ks'.
Proof.
  induction 1 as [|k ks ks' _ IH|x y ks|ks1 ks2 ks3 _ IH1 _ IH2].
  - done.
  - by rewrite !c3_of_cons, IH.
  - rewrite !c3_of_cons.
    destruct (list_index_outcome i top_order) as [[oi ->]| ->]; [|done].
    destruct (list_index_outcome x top_order) as [[ox ->]| ->],
             (list_index_outcome y top_order) as [[oy ->]| ->];
      cbn [mbind res_bind]; try done.
    destruct (c3_of_outcome top_order i ks) as [[c ->]| ->]; [|done].
    cbn [mbind res_bind]. f_equal. lia.
  - congruence.
Qed.

Lemma check_loop_set_iter set_iter state flow top_order vs conds :
  set_iteration set_iter →
  check_loop set_iter state flow top_order vs conds
  = check_loop elements state flow top_order vs conds.
Proof.
  intros Hiter. revert conds. induction vs as [|i vs IH]; intros conds; [done|].
  cbn [check_loop].
  destruct (flow i) as [fi| |]; [|done..]. cbn [mbind res_bind].
  destruct (graph_neighbors (graph state) fi) as [nfi| |]; [|done..]. cbn [mbind res_bind].
  destruct (iter_contains i nfi) as [c1 nfi'].
  destruct (list_index i top_order) as [oi| |]; [|done..]. cbn [mbind res_bind].
  destruct (list_index fi top_order) as [ofi| |]; [|done..]. cbn [mbind res_bind].
  pose proof (c3_of_Permutation top_order i _ _ (Hiter (list_to_set nfi' ∖ {[i]}))) as Hc.
  unfold c3_of in Hc.
  destruct (order_before top_order i (set_iter _)) as [bs| |],
           (order_before top_order i (elements _)) as [bs'| |];
    cbn [mbind res_bind] in Hc |- *; congruence.
Qed.

Lemma _check_if_flow_set_iter set_iter state flow top_order :
  set_iteration set_iter →
  _check_if_flow set_iter state flow top_order = _check_if_flow elements state flow top_order.
Proof. apply check_loop_set_iter. Qed.

(** ** The example of the docstring (C1) *)

Lemma find_flow_path_5 set_iter sanity_check :
  set_iteration set_iter →
  find_flow set_iter 5 path_state sanity_check
  = Ok (RetFlow (_flow_from_array path_state path_f) [0; 1; 2; 3; 4]).
Proof.
  intros Hiter. unfold find_flow.
  rewrite path_build_path_cover. cbn [mbind res_bind].
  destruct (decide _) as [Hne|_]; [by vm_compute in Hne|].
  change (truthy (PyDiGraph path_cover)) with true. cbv iota.
  rewrite path_chain_decomposition. cbn [mbind res_bind].
  rewrite path_compute_suprema by done. cbn [mbind res_bind].
  assert (_get_flowgraph path_state (_flow_from_array path_state path_f)
          = Ok (mkDiGraph [0; 1; 2; 3; 4] [(0, 1); (1, 2); (2, 3); (3, 4)])) as ->
    by (vm_compute; reflexivity).
  cbn [mbind res_bind].
  assert (topological_sort 5 (mkDiGraph [0; 1; 2; 3; 4] [(0, 1); (1, 2); (2, 3); (3, 4)])
          = Ok [0; 1; 2; 3; 4]) as -> by (vm_compute; reflexivity).
  cbn [mbind res_bind].
  destruct sanity_check; [|done].
  rewrite _check_if_flow_set_iter by done.
  assert (_check_if_flow elements path_state (_flow_from_array path_state path_f)
            [0; 1; 2; 3; 4] = Ok 1) as -> by (vm_compute; reflexivity).
  done.
Qed.

(** C1. On the path graph 0-1-2-3-4 with input 0 and output 4, [find_flow]
    returns a flow with [flow(v) = v + 1] for v = 0, 1, 2, 3 and the
    topological order [0, 1, 2, 3, 4]; this holds with and without the sanity
    check and whatever the order in which Python iterates its sets. *)
Theorem find_flow_path_graph set_iter fuel sanity_check :
  set_iteration set_iter → (5 ≤ fuel)%nat →
  ∃ flow,
    find_flow set_iter fuel path_state sanity_check = Ok (RetFlow flow [0; 1; 2; 3; 4])
    ∧ ∀ v, v ∈ [0; 1; 2; 3] → flow v = Ok (v + 1).
Proof.
  intros Hiter Hfuel. exists (_flow_from_array path_state path_f). split.
  - eapply find_flow_fuel; [exact Hfuel|done|by apply find_flow_path_5].
  - intros v Hv. repeat (apply elem_of_cons in Hv as [->|Hv]); try (vm_compute; reflexivity).
    by apply elem_of_nil in Hv.
Qed.

Lemma find_flow_path_graph_witness :
  ∃ flow,
    find_flow ascending 5 path_state false = Ok (RetFlow flow [0; 1; 2; 3; 4])
    ∧ ∀ v, v ∈ [0; 1; 2; 3] → flow v = Ok (v + 1).
Proof.
  apply (find_flow_path_graph ascending 5 false); [apply ascending_set_iteration|lia].
Defined.

(** ** Input shape (C6) *)

(** C6. When the numbers of input and output nodes differ, [find_flow]
    raises ValueError at once: the outcome needs no fuel and does not depend
    on the graph, so no search or traversal has run. *)
Theorem find_flow_input_shape set_iter fuel state sanity_check :
  length (input_nodes state) ≠ length (output_nodes state) →
  find_flow set_iter fuel state sanity_check = Raise ValueError.
Proof. intros Hne. unfold find_flow. by destruct (decide _). Qed.

Lemma find_flow_input_shape_witness :
  find_flow ascending 0 (mkState path_graph [0; 1] [4]) true = Raise ValueError.
Proof. apply find_flow_input_shape. simpl. lia. Defined.

(** ** The graph without vertices (C10) *)

(** C10. On the graph without vertices the path cover is built, and is the
    empty family; [find_flow] takes it for a failure, because an empty
    networkx graph is false, and raises the warning that no flow was
    found. *)
Theorem find_flow_empty_graph set_iter fuel sanity_check :
  _build_path_cover fuel empty_state = Ok (PyDiGraph dg_empty)
  ∧ truthy (PyDiGraph dg_empty) = false
  ∧ find_flow set_iter fuel empty_state sanity_check = Raise UserWarning.
Proof. done. Qed.

(** ** Re-rooting a predecessor (C3) *)

(** Whenever lines 178-183 return, the family they hand back is [None]. *)
Lemma reroot_pred_returns rec fam visited v ret :
  reroot_pred rec fam visited v = Ok (inl ret) → ∃ g, ret.1.1 = FamNone g ∧ ret.2 = 1.
Proof.
  unfold reroot_pred. destruct (first_pred fam v) as [p| |]; [|done..].
  cbn [mbind res_bind]. destruct (rec fam visited p) as [[[fam' visited'] status]| |]; [|done..].
  cbn [mbind res_bind]. destruct (py_truth status); [|done].
  destruct (with_fam _ _) as [g| |]; [|done..]. cbn [mbind res_bind].
  intros [= <-]. by exists g.
Qed.

(** C3, at [reroot_state]. In the search from input 3 the vertex 1 owns the
    chain edge 0 -> 1 and its predecessor 0 is unvisited; re-rooting 0
    succeeds (it takes the output 4). The call on 1 removes 0 -> 1 from the
    object and reports success, but hands back [None] in place of the
    family: the caller raises AttributeError and so does [find_flow]. *)
Theorem augmented_search_reroot set_iter fuel sanity_check :
  (4 ≤ fuel)%nat →
  _augmented_search 2 reroot_state (FamRef reroot_fam) 2 [1; 2; 1; 2; 0] 0
    = Ok (FamRef (mkDiGraph [1; 2; 0; 4] [(1, 2); (0, 1); (0, 4)]), [2; 2; 1; 2; 2], 1)
  ∧ _augmented_search 3 reroot_state (FamRef reroot_fam) 2 [1; 1; 1; 2; 0] 1
    = Ok (FamNone (mkDiGraph [1; 2; 0; 4] [(1, 2); (0, 4)]), [2; 2; 1; 2; 2], 1)
  ∧ find_flow set_iter fuel reroot_state sanity_check = Raise AttributeError.
Proof.
  intros Hfuel. split_and!; [by vm_compute..|].
  apply find_flow_fuel with 4%nat; [done|done|]. by vm_compute.
Qed.

Lemma augmented_search_reroot_witness :
  _augmented_search 2 reroot_state (FamRef reroot_fam) 2 [1; 2; 1; 2; 0] 0
    = Ok (FamRef (mkDiGraph [1; 2; 0; 4] [(1, 2); (0, 1); (0, 4)]), [2; 2; 1; 2; 2], 1)
  ∧ _augmented_search 3 reroot_state (FamRef reroot_fam) 2 [1; 1; 1; 2; 0] 1
    = Ok (FamNone (mkDiGraph [1; 2; 0; 4] [(1, 2); (0, 4)]), [2; 2; 1; 2; 2], 1)
  ∧ find_flow ascending 4 reroot_state false = Raise AttributeError.
Proof. apply (augmented_search_reroot ascending 4 false). lia. Defined.

(** ** The stages of [find_flow] *)

Lemma find_flow_stages set_iter fuel state sanity_check tau f P L sup g top_order :
  length (input_nodes state) = length (output_nodes state) →
  _build_path_cover fuel state = Ok tau → truthy tau = true →
  _get_chain_decomposition fuel state tau = Ok (f, P, L) →
  _compute_suprema set_iter fuel state f P L = Ok (Some sup) →
  _get_flowgraph state (_flow_from_array state f) = Ok g →
  topological_sort fuel g = Ok top_order →
  find_flow set_iter fuel state sanity_check
  = if sanity_check then
      c ← _check_if_flow set_iter state (_flow_from_array state f) top_order;
      if negb (py_truth c) then Raise RuntimeError
      else Ok (RetFlow (_flow_from_array state f) top_order)
    else Ok (RetFlow (_flow_from_array state f) top_order).
Proof.
  intros Hlen Hpc Htau Hcd Hsup Hg Htop. unfold find_flow.
  destruct (decide _); [done|].
  rewrite Hpc. cbn [mbind res_bind]. rewrite Htau, Hcd. cbn [mbind res_bind].
  rewrite Hsup. cbn [mbind res_bind]. rewrite Hg. cbn [mbind res_bind].
  by rewrite Htop.
Qed.

Lemma find_flow_RetFlow_inv set_iter fuel state sanity_check flow top_order :
  find_flow set_iter fuel state sanity_check = Ok (RetFlow flow top_order) →
  ∃ C f P L sup g,
    length (input_nodes state) = length (output_nodes state) ∧
    _build_path_cover fuel state = Ok C ∧ truthy C = true ∧
    _get_chain_decomposition fuel state C = Ok (f, P, L) ∧
    _compute_suprema set_iter fuel state f P L = Ok (Some sup) ∧
    _get_flowgraph state (_flow_from_array state f) = Ok g ∧
    topological_sort fuel g = Ok top_order ∧
    flow = _flow_from_array state f.
Proof.
  unfold find_flow. destruct (decide _) as [|Hlen]; [done|].
  destruct (_build_path_cover fuel state) as [C| |] eqn:Hpc; [|done..].
  cbn [mbind res_bind]. destruct (truthy C) eqn:HC; [|done].
  destruct (_get_chain_decomposition fuel state C) as [[[f P] L]| |] eqn:Hcd; [|done..].
  cbn [mbind res_bind].
  destruct (_compute_suprema set_iter fuel state f P L) as [[sup|]| |] eqn:Hsup; [|done..].
  cbn [mbind res_bind].
  destruct (_get_flowgraph _ _) as [g| |] eqn:Hg; [|done..]. cbn [mbind res_bind].
  destruct (topological_sort fuel g) as [o| |] eqn:Ho; [|done..]. cbn [mbind res_bind].
  intros H. exists C, f, P, L, sup, g.
  assert (RetFlow (_flow_from_array state f) o = RetFlow flow top_order) as [= <- <-].
  { destruct sanity_check; [|congruence].
    destruct (_check_if_flow _ _ _ _); [|done..]. cbn [mbind res_bind] in H.
    destruct (negb _); congruence. }
  split_and!; try done. by apply dec_stable.
Qed.

(** [_compute_suprema] iterates the set in one of the orders of its
    elements. *)
Lemma _compute_suprema_perms set_iter fuel state f P L r :
  set_iteration set_iter →
  (∀ vs,
     vs ∈ permutations (elements (output_complement_set state)) →
     ('(sup, status) ← _init_status state P L;
      suprema_loop fuel state f vs sup status) = r) →
  _compute_suprema set_iter fuel state f P L = r.
Proof.
  intros Hiter H. apply H. apply permutations_Permutation. symmetry. apply Hiter.
Qed.

Ltac by_permutations :=
  apply _compute_suprema_perms; [done|];
  let vs := fresh "vs" in let Hvs := fresh "Hvs" in
  intros vs Hvs; vm_compute in Hvs;
  repeat (apply elem_of_cons in Hvs as [->|Hvs]);
  [vm_compute; reflexivity..|by apply elem_of_nil in Hvs].

(** ** The validator (C5) *)

Lemma triangle_check_if_flow set_iter :
  set_iteration set_iter →
  _check_if_flow set_iter triangle_state (_flow_from_array triangle_state triangle_f)
    [0; 1; 2] = Ok 1.
Proof. intros Hiter. rewrite _check_if_flow_set_iter by done. by vm_compute. Qed.

Lemma triangle_not_flow :
  ¬ flow_conditions triangle_state (_flow_from_array triangle_state triangle_f) [0; 1; 2].
Proof.
  intros H. destruct (H 1) as (fv & ns & ov & ofv & Hfv & Hns & Hov & _ & _ & _ & Hc).
  { by_compute. }
  vm_compute in Hfv. injection Hfv as <-.
  vm_compute in Hns. injection Hns as <-.
  vm_compute in Hov. injection Hov as <-.
  destruct (Hc 0) as (ok & Hok & Hlt); [by_compute|done|].
  vm_compute in Hok. injection Hok as <-. lia.
Qed.

Lemma iter_contains_elem i ns :
  i ∈ ns → ∃ rest, iter_contains i ns = (true, rest) ∧ rest ⊆ ns.
Proof.
  induction ns as [|y ns IH]; [by intros ?%elem_of_nil|]. cbn [iter_contains].
  intros Hi. case_decide as Hy.
  - exists ns. split; [done|]. intros x Hx. by right.
  - apply elem_of_cons in Hi as [?|Hi]; [done|].
    destruct (IH Hi) as (rest & -> & Hrest). exists rest. split; [done|].
    intros x Hx. right. by apply Hrest.
Qed.

Lemma order_before_all top_order i oi ks :
  list_index i top_order = Ok oi →
  (∀ k, k ∈ ks → ∃ ok, list_index k top_order = Ok ok ∧ oi < ok) →
  ∃ bs, order_before top_order i ks = Ok bs ∧ math_prod bs = 1.
Proof.
  intros Hi. induction ks as [|k ks IH]; intros Hks; [by eexists|].
  cbn [order_before]. rewrite Hi. cbn [mbind res_bind].
  destruct (Hks k) as (ok & -> & Hlt); [by left|]. cbn [mbind res_bind].
  destruct IH as (bs & -> & Hbs); [intros; apply Hks; by right|].
  eexists. split; [done|]. cbn [math_prod foldr]. fold (math_prod bs).
  rewrite Hbs, bool_decide_true by done. done.
Qed.

(** X10. The validator accepts every pair that satisfies the three
    conditions (a), (b) and (c). *)
Lemma check_if_flow_complete set_iter state flow top_order :
  set_iteration set_iter → flow_conditions state flow top_order →
  _check_if_flow set_iter state flow top_order = Ok 1.
Proof.
  intros Hiter Hflow. unfold _check_if_flow.
  assert (∀ v, v ∈ outputc state → flow_conditions_at state flow top_order v) as H by done.
  clear Hflow. induction (outputc state) as [|i vs IH]; [done|].
  cbn [check_loop].
  destruct (H i) as (fv & ns & ov & ofv & -> & Hns & Hov & Hofv & Hin & Hlt & Hc); [by left|].
  cbn [mbind res_bind]. rewrite Hns. cbn [mbind res_bind].
  destruct (iter_contains_elem i ns Hin) as (rest & -> & Hrest).
  rewrite Hov. cbn [mbind res_bind]. rewrite Hofv. cbn [mbind res_bind].
  destruct (order_before_all top_order i ov
              (set_iter (list_to_set rest ∖ {[i]}))) as (bs & -> & Hbs); [done| |].
  { intros k. rewrite (Hiter _), elem_of_elements, elem_of_difference,
      elem_of_list_to_set, elem_of_singleton.
    intros [Hk Hne]. apply Hc; [by apply Hrest|done]. }
  cbn [mbind res_bind]. rewrite Hbs, bool_decide_true by done. cbn [Z.b2z].
  apply IH. intros v Hv. apply H. by right.
Qed.

(** C5, at [triangle_state]. [find_flow] with the sanity check computes
    [flow(0) = 1], [flow(1) = 2] and the order [0, 1, 2]; the validator
    accepts the pair, although condition (c) fails at [v = 1]: the vertex 0
    is a neighbour of [flow(1) = 2] other than 1 and comes before 1. The
    membership test of line 213 has consumed the iterator [nfi] up to 1, so
    line 216 only sees the neighbours that come after 1 in the adjacency of
    2, and there are none. *)
Theorem check_if_flow_accepts_non_flow set_iter fuel :
  set_iteration set_iter → (3 ≤ fuel)%nat →
  find_flow set_iter fuel triangle_state true
    = Ok (RetFlow (_flow_from_array triangle_state triangle_f) [0; 1; 2])
  ∧ _check_if_flow set_iter triangle_state
      (_flow_from_array triangle_state triangle_f) [0; 1; 2] = Ok 1
  ∧ ¬ flow_conditions triangle_state
        (_flow_from_array triangle_state triangle_f) [0; 1; 2].
Proof.
  intros Hiter Hfuel. split_and!; [|by apply triangle_check_if_flow|apply triangle_not_flow].
  apply find_flow_fuel with 3%nat; [done|done|].
  erewrite (find_flow_stages _ _ _ _ _ triangle_f);
    [by rewrite triangle_check_if_flow|done|by vm_compute|by vm_compute|by vm_compute
    | |by vm_compute|by vm_compute].
  by_permutations.
Qed.

Lemma check_if_flow_accepts_non_flow_witness :
  find_flow ascending 3 triangle_state true
    = Ok (RetFlow (_flow_from_array triangle_state triangle_f) [0; 1; 2])
  ∧ _check_if_flow ascending triangle_state
      (_flow_from_array triangle_state triangle_f) [0; 1; 2] = Ok 1
  ∧ ¬ flow_conditions triangle_state
        (_flow_from_array triangle_state triangle_f) [0; 1; 2].
Proof.
  apply (check_if_flow_accepts_non_flow ascending 3); [apply ascending_set_iteration|lia].
Defined.

(** ** The two ways of finding no flow (C2) *)

Lemma find_flow_path_cover_fails set_iter fuel state sanity_check tau :
  length (input_nodes state) = length (output_nodes state) →
  _build_path_cover fuel state = Ok tau → truthy tau = false →
  find_flow set_iter fuel state sanity_check = Raise UserWarning.
Proof.
  intros Hlen Hpc Htau. unfold find_flow. destruct (decide _); [done|].
  rewrite Hpc. cbn [mbind res_bind]. by rewrite Htau.
Qed.



(** With the iteration orders that start with 3, the traversal enters the
    output -7 through the cell that it shares with 0 and looks up its
    successor. *)
Lemma find_flow_alias_key_error set_iter fuel sanity_check rest :
  set_iter (output_complement_set alias_state) = 3 :: rest → (4 ≤ fuel)%nat →
  find_flow set_iter fuel alias_state sanity_check = Raise KeyError.
Proof.
  intros Hiter Hfuel. apply find_flow_fuel with 4%nat; [done|done|].
  unfold find_flow, _compute_suprema. fold (output_complement_set alias_state).
  rewrite Hiter. by vm_compute.
Qed.


(** ** Vertex labels as array indices (C9) *)

Lemma np_index_Ok len v :
  (∃ i, np_index len v = Ok i) ↔ - Z.of_nat len ≤ v < Z.of_nat len.
Proof.
  unfold np_index. repeat case_decide; split; try lia; eauto; by intros [? ?].
Qed.

(** C9, as stated, fails. [negative_state] has the labels -2 and -1, outside
    [0..|V|-1]; they index the two cells from the end and [find_flow]
    returns a flow. [isolated_state] has the label 7 and three vertices; the
    vertex is never used as an index and [find_flow] reports that there is
    no flow. *)
Lemma labels_outside_range_no_index_error :
  (-2 ∈ graph_nodes (graph negative_state)
   ∧ ¬ (0 ≤ -2 < Z.of_nat (number_of_nodes negative_state))
   ∧ ∃ flow, find_flow ascending 2 negative_state true = Ok (RetFlow flow [-2; -1])
             ∧ flow (-2) = Ok (-1))
  ∧ (7 ∈ graph_nodes (graph isolated_state)
     ∧ ¬ (0 ≤ 7 < Z.of_nat (number_of_nodes isolated_state))
     ∧ find_flow ascending 2 isolated_state true = Raise UserWarning).
Proof.
  split_and!; try by_compute; try (unfold number_of_nodes; simpl; lia).
  - eexists. split; by vm_compute.
  - by vm_compute.
Qed.

Lemma np_get_Ok a v :
  (∃ x, np_get a v = Ok x) ↔ - Z.of_nat (length a) ≤ v < Z.of_nat (length a).
Proof.
  rewrite <-np_index_Ok. unfold np_get. split.
  - intros [x Hx]. destruct (np_index (length a) v); [by eexists|done..].
  - intros [j Hj]. rewrite Hj. cbn [mbind res_bind].
    destruct (a !! j) as [x|] eqn:Hx; [by eexists|].
    apply lookup_ge_None in Hx. unfold np_index in Hj.
    repeat case_decide; simplify_eq; lia.
Qed.

(** ** Determinism (C8) *)




(** ** Arrays indexed by labels in range *)

Lemma np_index_in_range len v :
  0 ≤ v < Z.of_nat len → np_index len v = Ok (Z.to_nat v).
Proof. intros. unfold np_index. by case_decide. Qed.

Lemma np_get_in_range a v :
  0 ≤ v < Z.of_nat (length a) →
  ∃ x, np_get a v = Ok x ∧ a !! Z.to_nat v = Some x.
Proof.
  intros Hv. unfold np_get. rewrite np_index_in_range by done. cbn [mbind res_bind].
  destruct (a !! Z.to_nat v) as [x|] eqn:Hx; [by eexists|].
  apply lookup_ge_None in Hx. lia.
Qed.

Lemma np_get_lookup a v x :
  0 ≤ v < Z.of_nat (length a) → a !! Z.to_nat v = Some x → np_get a v = Ok x.
Proof. intros Hv Hx. destruct (np_get_in_range a v Hv) as (y & -> & Hy). congruence. Qed.

Lemma np_set_in_range a v x :
  0 ≤ v < Z.of_nat (length a) → np_set a v x = Ok (<[Z.to_nat v:=x]> a).
Proof. intros. unfold np_set. by rewrite np_index_in_range. Qed.

Lemma np_get2_in_range rows cols sup r v :
  sup_shape rows cols sup → (r < rows)%nat → 0 ≤ v < Z.of_nat cols →
  ∃ x, np_get2 sup r v = Ok x.
Proof.
  intros [Hlen Hrows] Hr Hv. unfold np_get2.
  destruct (lookup_lt_is_Some_2 sup r) as [row Hrow]; [lia|]. rewrite Hrow.
  assert (length row = cols) as Hc
    by (eapply (proj1 (Forall_forall _ _) Hrows), list_elem_of_lookup_2, Hrow).
  destruct (np_get_in_range row v) as (x & -> & _); [lia|by eexists].
Qed.

Lemma np_set2_in_range rows cols sup r v x :
  sup_shape rows cols sup → (r < rows)%nat → 0 ≤ v < Z.of_nat cols →
  ∃ sup', np_set2 sup r v x = Ok sup' ∧ sup_shape rows cols sup'.
Proof.
  intros [Hlen Hrows] Hr Hv. unfold np_set2.
  destruct (lookup_lt_is_Some_2 sup r) as [row Hrow]; [lia|]. rewrite Hrow.
  assert (length row = cols) as Hc
    by (eapply (proj1 (Forall_forall _ _) Hrows), list_elem_of_lookup_2, Hrow).
  rewrite np_set_in_range by lia. cbn [mbind res_bind]. eexists. split; [done|].
  split; [by rewrite length_insert|].
  apply Forall_insert; [done|by rewrite length_insert].
Qed.

Lemma np_zeros2_shape rows cols : sup_shape rows cols (np_zeros2 rows cols).
Proof.
  split; [apply length_replicate|].
  apply Forall_replicate. apply length_replicate.
Qed.

Lemma vertex2index_fold (l : list (nat * Z)) (m : gmap Z nat) (N : nat) i :
  (∀ k r, m !! k = Some r → (r < N)%nat) → (∀ p, p ∈ l → (p.1 < N)%nat) →
  (i ∈ l.*2 ∨ is_Some (m !! i)) →
  ∃ r, foldl (λ m p, <[p.2:=p.1]> m) m l !! i = Some r ∧ (r < N)%nat.
Proof.
  revert m. induction l as [|p l IH]; intros m Hm Hl Hi.
  - destruct Hi as [Hi|[r Hr]]; [by apply elem_of_nil in Hi|]. exists r. eauto.
  - cbn [foldl]. apply IH.
    + intros k r. rewrite lookup_insert. case_decide; [|by eauto].
      intros [= <-]. apply Hl. by left.
    + intros q Hq. apply Hl. by right.
    + cbn [fmap list_fmap] in Hi. destruct Hi as [Hi|Hi].
      * apply elem_of_cons in Hi as [->|Hi]; [right|by left].
        rewrite lookup_insert_eq. by eexists.
      * right. rewrite lookup_insert. case_decide; [by eexists|done].
Qed.

Lemma vertex2index_lookup ins i :
  i ∈ ins → ∃ r, dict_get (vertex2index ins) i = Ok r ∧ (r < length ins)%nat.
Proof.
  intros Hi. unfold dict_get, vertex2index.
  destruct (vertex2index_fold (zip (seq 0 (length ins)) ins) ∅ (length ins) i)
    as (r & -> & Hr); [done| |..|by eexists].
  - intros [j x] Hp. apply list_elem_of_lookup in Hp as [k Hk].
    apply lookup_zip_with_Some in Hk as (a & b & [= <- <-] & Ha & _).
    apply lookup_seq in Ha. simpl. lia.
  - left. by rewrite snd_zip by (rewrite length_seq; lia).
Qed.

(** ** Graphs *)

Lemma graph_adj_node g v : v ∈ graph_nodes g ↔ is_Some (graph_adj g v).
Proof.
  induction g as [|[u ns] g IH]; cbn [graph_adj graph_nodes fmap list_fmap].
  - split; [by intros ?%elem_of_nil|by intros [? ?]].
  - rewrite elem_of_cons. cbn [fst]. case_decide as Hu.
    + split; [by eexists|by left].
    + fold (graph_nodes g). rewrite IH. split; [|by right]. by intros [?|?].
Qed.

Lemma graph_adj_elem g v ns : graph_adj g v = Some ns → (v, ns) ∈ g.
Proof.
  induction g as [|[u ms] g IH]; cbn [graph_adj]; [done|].
  case_decide; [intros [= <-]; subst; by left|]. intros. right. by apply IH.
Qed.

Lemma wf_graph_neighbor g v ns w :
  wf_graph g → graph_adj g v = Some ns → w ∈ ns → w ∈ graph_nodes g.
Proof.
  intros [_ Hadj] Hv Hw. apply graph_adj_elem in Hv.
  apply (proj1 (Forall_forall _ _) Hadj) in Hv as [_ Hns]. simpl in Hns.
  apply (proj1 (Forall_forall _ _) Hns) in Hw.
  apply graph_adj_node. destruct (graph_adj g w); [by eexists|done].
Qed.

(** ** The measure of the traversal *)

Lemma zeros_insert_le status j x :
  x ≠ 0 → (zeros (<[j:=x]> status) ≤ zeros status)%nat.
Proof.
  intros Hx. revert j. induction status as [|y status IH]; intros [|j]; simpl; try lia.
  - repeat case_decide; lia.
  - specialize (IH j). case_decide; lia.
Qed.

Lemma zeros_insert_lt status j x :
  status !! j = Some 0 → x ≠ 0 → (zeros (<[j:=x]> status) < zeros status)%nat.
Proof.
  intros Hj Hx. revert j Hj. induction status as [|y status IH]; intros [|j] Hj; simpl in *;
    try done.
  - injection Hj as ->. repeat case_decide; try done; lia.
  - specialize (IH j Hj). case_decide; lia.
Qed.

Lemma zeros_length status : (zeros status ≤ length status)%nat.
Proof. induction status; simpl; [done|]. case_decide; lia. Qed.

Lemma status_frame_refl status : status_frame status status.
Proof. by intros j x. Qed.

Lemma status_frame_trans s1 s2 s3 :
  status_frame s1 s2 → status_frame s2 s3 → status_frame s1 s3.
Proof. intros H12 H23 j x Hj Hx. eauto. Qed.

(** ** The traversal on a successor map with a cycle (C4) *)

Section SupremaCycle.
Context (state : GraphStateCircuit) (f : gmap Z Z) (cyc : list Z).
Hypothesis Hwf : wf_graph (graph state).
Hypothesis Hrange : labels_in_range state.
Hypothesis Htotal : successor_total state f.
Hypothesis Hclosed : successor_closed state f cyc.

Local Abbreviation rows := (length (input_nodes state)).
Local Abbreviation cols := (number_of_nodes state).

Lemma node_in_range v : v ∈ graph_nodes (graph state) → 0 ≤ v < Z.of_nat cols.
Proof. intros Hv. by apply (proj1 (Forall_forall _ _) Hrange). Qed.

Lemma node_successor v :
  v ∈ graph_nodes (graph state) → v ∉ output_nodes state → ∃ w, dict_get f v = Ok w.
Proof.
  intros Hv Hout. apply (proj1 (Forall_forall _ _) Htotal) in Hv as [?|[w Hw]]; [done|].
  exists w. unfold dict_get. by rewrite Hw.
Qed.

Lemma cyc_node u : u ∈ cyc → u ∈ graph_nodes (graph state).
Proof. intros Hu. by apply (proj1 (Forall_forall _ _) Hclosed) in Hu as [? _]. Qed.

Lemma to_nat_ne u v :
  u ∈ graph_nodes (graph state) → v ∈ graph_nodes (graph state) → u ≠ v →
  Z.to_nat v ≠ Z.to_nat u.
Proof. intros Hu%node_in_range Hv%node_in_range. lia. Qed.

Lemma status_inv_not_output status v :
  status_inv state cyc status → v ∈ graph_nodes (graph state) →
  status !! Z.to_nat v = Some 0 → v ∉ output_nodes state.
Proof. intros (_ & _ & Hout) Hv H0 Ho. specialize (Hout v Hv Ho). congruence. Qed.

(** Marking a vertex outside the outputs pending, or a vertex outside
    [cyc] resolved, keeps the invariant. *)
Lemma status_inv_insert status v x :
  status_inv state cyc status → v ∈ graph_nodes (graph state) →
  v ∉ output_nodes state → x = 1 ∨ v ∉ cyc →
  status_inv state cyc (<[Z.to_nat v:=x]> status).
Proof.
  intros (Hlen & Hc & Hout) Hv Ho Hx. split_and!.
  - by rewrite length_insert.
  - intros u Hu. destruct (decide (u = v)) as [->|Hne].
    + destruct Hx as [->|?]; [|done]. right. apply list_lookup_insert_eq.
      pose proof (node_in_range v Hv). lia.
    + rewrite list_lookup_insert_ne; [by apply Hc|]. apply to_nat_ne; auto using cyc_node.
  - intros u Hu Huo. rewrite list_lookup_insert_ne; [by apply Hout|].
    apply to_nat_ne; [done..|]. by intros ->.
Qed.

Lemma tighten_in_range v w ins sup :
  ins ⊆ input_nodes state → sup_shape rows cols sup →
  0 ≤ v < Z.of_nat cols → 0 ≤ w < Z.of_nat cols →
  ∃ sup', tighten state v w ins sup = Ok sup' ∧ sup_shape rows cols sup'.
Proof.
  revert sup. induction ins as [|i ins IH]; intros sup Hins Hsup Hv Hw; [by eexists|].
  cbn [tighten].
  destruct (vertex2index_lookup (input_nodes state) i) as (r & -> & Hr);
    [apply Hins; by left|]. cbn [mbind res_bind].
  destruct (np_get2_in_range _ _ sup r v Hsup Hr Hv) as [a ->]. cbn [mbind res_bind].
  destruct (np_get2_in_range _ _ sup r w Hsup Hr Hw) as [b ->]. cbn [mbind res_bind].
  assert (ins ⊆ input_nodes state) as Hins' by (intros j Hj; apply Hins; by right).
  case_decide.
  - destruct (np_set2_in_range _ _ sup r v b Hsup Hr Hv) as (sup' & -> & Hsup').
    cbn [mbind res_bind]. by apply IH.
  - cbn [mbind res_bind]. by apply IH.
Qed.

Section Body.
Context (rec : list (list Z) → list Z → Z → res sup_status) (k : nat).
Hypothesis Hrec : ∀ sup status w,
  sup_shape rows cols sup → status_inv state cyc status →
  w ∈ graph_nodes (graph state) → status !! Z.to_nat w = Some 0 →
  (zeros status ≤ k)%nat →
  res_ok (rec sup status w) (traverse_post state cyc w status).

Lemma walk_neighbors_spec v ws sup status :
  v ∈ graph_nodes (graph state) → v ∉ output_nodes state →
  (∀ w, w ∈ ws → w ∈ graph_nodes (graph state)) →
  sup_shape rows cols sup → status_inv state cyc status →
  (zeros status ≤ k)%nat →
  res_ok (walk_neighbors state f rec v ws sup status) (λ r, ∃ ret,
    (r = inl ret ∨ r = inr ret) ∧
    sup_shape rows cols ret.1 ∧ status_inv state cyc ret.2 ∧
    status_frame status ret.2 ∧ (zeros ret.2 ≤ zeros status)%nat ∧
    (∀ w, f !! v = Some w → w ≠ v → w ∈ ws → w ∈ cyc → r = inl ret)).
Proof.
  intros Hv Hvo. revert sup status.
  induction ws as [|w ws IH]; intros sup status Hws Hsup Hinv Hz.
  { exists (inr (sup, status)). split; [done|]. exists (sup, status).
    split_and!; eauto using status_frame_refl.
    intros w _ _ Hw. by apply elem_of_nil in Hw. }
  assert (∀ w, w ∈ ws → w ∈ graph_nodes (graph state)) as Hws'
    by (intros; apply Hws; by right).
  cbn [walk_neighbors].
  destruct (node_successor v Hv Hvo) as [fv Hfv]. rewrite Hfv. cbn [mbind res_bind].
  assert (f !! v = Some fv) as Hfv'.
  { unfold dict_get in Hfv. destruct (f !! v); congruence. }
  case_decide as Hw; cycle 1.
  { destruct (IH sup status Hws' Hsup Hinv Hz)
      as (r & Hr & ret & Hcase & ? & ? & ? & ? & Hc).
    exists r. split; [done|]. exists ret. split_and!; try done.
    intros w' Hw' Hne Hin. apply elem_of_cons in Hin as [->|Hin]; [|by eauto].
    destruct Hw. split; congruence. }
  destruct Hw as [-> Hne].
  assert (fv ∈ graph_nodes (graph state)) as Hfvn by (apply Hws; by left).
  pose proof (node_in_range fv Hfvn) as Hfvr.
  pose proof Hinv as (Hlen & Hcycs & Hout).
  destruct (np_get_in_range status fv) as (s & -> & Hs); [by rewrite Hlen|].
  cbn [mbind res_bind].
  apply (res_ok_bind _ _
    (λ ret1, sup_shape rows cols ret1.1 ∧ status_inv state cyc ret1.2
       ∧ status_frame status ret1.2 ∧ (zeros ret1.2 ≤ zeros status)%nat
       ∧ (fv ∈ cyc → ret1.2 !! Z.to_nat fv = Some 1))).
  { case_decide as Hs0.
    - subst s. destruct (Hrec sup status fv) as (ret1 & -> & Hs1 & Hi1 & Hf1 & Hz1 & Hp1);
        [done..|].
      exists ret1. split_and!; try done. intros Hin. by destruct Hp1 as [?|[_ ?]].
    - exists (sup, status). split_and!; eauto using status_frame_refl.
      intros Hin. destruct (Hcycs fv Hin) as [?|?]; [congruence|done]. }
  intros [sup1 status1] (Hsup1 & Hinv1 & Hfr1 & Hz1 & Hc1).
  cbn [mbind res_bind fst snd] in *.
  pose proof Hinv1 as (Hlen1 & _ & _).
  destruct (np_get_in_range status1 fv) as (s1 & -> & Hs1); [by rewrite Hlen1|].
  cbn [mbind res_bind].
  case_decide as Hs11.
  { exists (inl (sup1, status1)). split; [done|]. exists (sup1, status1).
    split_and!; eauto. }
  destruct (tighten_in_range v fv (input_nodes state) sup1) as (sup2 & -> & Hsup2);
    [done|done|by apply node_in_range|done|].
  cbn [mbind res_bind].
  destruct (IH sup2 status1 Hws' Hsup2 Hinv1)
    as (r & Hr & ret & Hcase & ? & ? & ? & ? & Hc); [lia|].
  exists r. split; [done|]. exists ret. split_and!; try done.
  - by eapply status_frame_trans.
  - lia.
  - intros w' Hw' Hne' _ Hin. assert (w' = fv) as -> by congruence.
    specialize (Hc1 Hin). congruence.
Qed.

Lemma traverse_body_spec sup status v :
  sup_shape rows cols sup → status_inv state cyc status →
  v ∈ graph_nodes (graph state) → status !! Z.to_nat v = Some 0 →
  (zeros status ≤ S k)%nat →
  res_ok (traverse_body state f rec sup status v) (traverse_post state cyc v status).
Proof.
  intros Hsup Hinv Hv H0 Hz.
  pose proof (status_inv_not_output status v Hinv Hv H0) as Hvo.
  pose proof (node_in_range v Hv) as Hvr.
  pose proof Hinv as (Hlen & _ & _).
  unfold traverse_body. rewrite np_set_in_range by (by rewrite Hlen).
  cbn [mbind res_bind].
  assert (status_inv state cyc (<[Z.to_nat v:=1]> status)) as Hinv1
    by (apply status_inv_insert; auto).
  assert (status_frame status (<[Z.to_nat v:=1]> status)) as Hfr1.
  { intros j x Hj Hx. rewrite list_lookup_insert_ne; [done|]. intros <-. congruence. }
  pose proof (zeros_insert_lt status (Z.to_nat v) 1 H0 ltac:(done)) as Hz1.
  destruct (proj1 (graph_adj_node _ _) Hv) as [ns Hns].
  unfold graph_neighbors. rewrite Hns. cbn [mbind res_bind].
  destruct (walk_neighbors_spec v ns sup (<[Z.to_nat v:=1]> status))
    as (r & -> & [sup' status'] & Hcase & Hsup' & Hinv' & Hfr' & Hz' & Hc);
    [done|done|by eauto using wf_graph_neighbor|done|done|lia|].
  cbn [mbind res_bind fst snd] in *.
  assert (status' !! Z.to_nat v = Some 1) as Hv1.
  { apply Hfr'; [|done]. apply list_lookup_insert_eq. lia. }
  destruct Hcase as [->| ->].
  - eexists. split; [done|]. split_and!; cbn [fst snd]; eauto using status_frame_trans.
    lia.
  - pose proof Hinv' as (Hlen' & _ & _).
    rewrite np_set_in_range by (by rewrite Hlen'). cbn [mbind res_bind].
    assert (v ∉ cyc) as Hnc.
    { intros Hin.
      pose proof (proj1 (Forall_forall _ _) Hclosed v Hin)
        as (_ & _ & w & ns' & Hw & Hns' & Hwn & Hne & Hwc).
      assert (ns' = ns) as -> by congruence.
      by specialize (Hc w Hw Hne Hwn Hwc). }
    eexists. split; [done|]. split_and!; cbn [fst snd].
    + done.
    + apply status_inv_insert; auto.
    + intros j x Hj Hx. rewrite list_lookup_insert_ne; [apply Hfr'; [by apply Hfr1|done]|].
      intros <-. congruence.
    + pose proof (zeros_insert_le status' (Z.to_nat v) 2 ltac:(done)). lia.
    + right. split; [|done]. apply list_lookup_insert_eq. lia.
Qed.
End Body.

Lemma _traverse_infl_walk_spec fuel sup status v :
  sup_shape rows cols sup → status_inv state cyc status →
  v ∈ graph_nodes (graph state) → status !! Z.to_nat v = Some 0 →
  (zeros status ≤ fuel)%nat →
  res_ok (_traverse_infl_walk fuel state f sup status v) (traverse_post state cyc v status).
Proof.
  revert sup status v. induction fuel as [|fuel IH]; intros sup status v Hsup Hinv Hv H0 Hz.
  - pose proof (zeros_insert_lt status (Z.to_nat v) 1 H0 ltac:(done)). lia.
  - cbn [_traverse_infl_walk]. apply (traverse_body_spec _ fuel); [|done..].
    intros. by apply IH.
Qed.

(** Lines 96-101: the loop returns, and returns [None] when it meets a
    vertex of [cyc]. *)
Lemma suprema_loop_spec fuel vs sup status :
  (∀ v, v ∈ vs → v ∈ graph_nodes (graph state)) →
  sup_shape rows cols sup → status_inv state cyc status →
  (zeros status ≤ fuel)%nat →
  res_ok (suprema_loop fuel state f vs sup status)
         (λ r, (∃ c, c ∈ cyc ∧ c ∈ vs) → r = None).
Proof.
  revert sup status. induction vs as [|v vs IH]; intros sup status Hvs Hsup Hinv Hz.
  { eexists. split; [done|]. intros (c & _ & Hc). by apply elem_of_nil in Hc. }
  assert (v ∈ graph_nodes (graph state)) as Hv by (apply Hvs; by left).
  assert (∀ v, v ∈ vs → v ∈ graph_nodes (graph state)) as Hvs'
    by (intros; apply Hvs; by right).
  pose proof (node_in_range v Hv) as Hvr.
  pose proof Hinv as (Hlen & Hcycs & _).
  cbn [suprema_loop].
  destruct (np_get_in_range status v) as (s & -> & Hs); [by rewrite Hlen|].
  cbn [mbind res_bind].
  apply (res_ok_bind _ _
    (λ ret, sup_shape rows cols ret.1 ∧ status_inv state cyc ret.2
       ∧ (zeros ret.2 ≤ zeros status)%nat
       ∧ (v ∈ cyc → ret.2 !! Z.to_nat v = Some 1))).
  { case_decide as Hs0.
    - subst s. destruct (_traverse_infl_walk_spec fuel sup status v)
        as (ret & -> & ? & ? & ? & ? & Hp); [done..|].
      exists ret. split_and!; try done. intros Hin. by destruct Hp as [?|[_ ?]].
    - exists (sup, status). split_and!; try done.
      intros Hin. destruct (Hcycs v Hin) as [?|?]; [congruence|done]. }
  intros [sup1 status1] (Hsup1 & Hinv1 & Hz1 & Hc1). cbn [fst snd] in *.
  pose proof Hinv1 as (Hlen1 & _ & _).
  destruct (np_get_in_range status1 v) as (s1 & -> & Hs1); [by rewrite Hlen1|].
  cbn [mbind res_bind]. case_decide as Hs11.
  { by eexists. }
  destruct (IH sup1 status1) as (r & -> & Hr); [done..|lia|].
  exists r. split; [done|]. intros (c & Hc & Hin). apply Hr. exists c. split; [done|].
  apply elem_of_cons in Hin as [->|?]; [|done]. specialize (Hc1 Hc). congruence.
Qed.

Lemma init_inputs_spec P L v ins sup :
  ins ⊆ input_nodes state → sup_shape rows cols sup →
  length P = cols → length L = cols → 0 ≤ v < Z.of_nat cols →
  res_ok (init_inputs state P L v ins sup) (sup_shape rows cols).
Proof.
  intros Hins Hsup HP HL Hv. revert sup Hsup Hins.
  induction ins as [|i ins IH]; intros sup Hsup Hins; [by eexists|].
  cbn [init_inputs].
  destruct (np_get_in_range P v) as (pv & -> & _); [by rewrite HP|].
  cbn [mbind res_bind].
  destruct (vertex2index_lookup (input_nodes state) i) as (r & Hr & Hlt);
    [apply Hins; by left|].
  assert (ins ⊆ input_nodes state) as Hins' by (intros j Hj; apply Hins; by right).
  case_decide.
  - destruct (np_get_in_range L v) as (lv & -> & _); [by rewrite HL|].
    cbn [mbind res_bind]. rewrite Hr. cbn [mbind res_bind].
    destruct (np_set2_in_range _ _ sup r v lv Hsup Hlt Hv) as (sup' & -> & Hsup').
    cbn [mbind res_bind]. by apply IH.
  - rewrite Hr. cbn [mbind res_bind].
    destruct (np_set2_in_range _ _ sup r v (Z.of_nat cols) Hsup Hlt Hv) as (sup' & -> & Hsup').
    cbn [mbind res_bind]. by apply IH.
Qed.

Lemma init_nodes_spec P L vs sup status :
  (∀ v, v ∈ vs → v ∈ graph_nodes (graph state)) →
  sup_shape rows cols sup → length status = cols →
  length P = cols → length L = cols →
  res_ok (init_nodes state P L vs sup status) (λ ret,
    sup_shape rows cols ret.1 ∧ length ret.2 = cols ∧
    ∀ u, u ∈ graph_nodes (graph state) →
      ret.2 !! Z.to_nat u
      = if decide (u ∈ vs)
        then Some (if decide (u ∈ output_nodes state) then 2 else 0)
        else status !! Z.to_nat u).
Proof.
  intros Hvs Hsup Hlen HP HL. revert sup status Hsup Hlen.
  induction vs as [|v vs IH]; intros sup status Hsup Hlen.
  { eexists. split; [done|]. by split_and!. }
  assert (v ∈ graph_nodes (graph state)) as Hv by (apply Hvs; by left).
  pose proof (node_in_range v Hv) as Hvr.
  cbn [init_nodes].
  destruct (init_inputs_spec P L v (input_nodes state) sup) as (sup1 & -> & Hsup1);
    [done..|].
  cbn [mbind res_bind]. rewrite np_set_in_range by (by rewrite Hlen).
  cbn [mbind res_bind].
  destruct (IH (λ w Hw, Hvs w (list_elem_of_further _ _ _ Hw)) sup1
              (<[Z.to_nat v:=if decide (v ∈ output_nodes state) then 2 else 0]> status))
    as (ret & -> & Hs & Hl & Hst); [done|by rewrite length_insert|].
  exists ret. split; [done|]. split_and!; try done.
  intros u Hu. rewrite (Hst u Hu).
  destruct (decide (u ∈ vs)) as [Hin|Hnin], (decide (u ∈ v :: vs)) as [Hin'|Hnin'];
    try done.
  - destruct Hnin'. by right.
  - apply elem_of_cons in Hin' as [->|?]; [|done]. apply list_lookup_insert_eq. lia.
  - apply list_lookup_insert_ne. apply to_nat_ne; [done..|].
    intros ->. destruct Hnin'. by left.
Qed.

Lemma _init_status_spec P L :
  length P = cols → length L = cols →
  res_ok (_init_status state P L) (λ ret,
    sup_shape rows cols ret.1 ∧ status_inv state cyc ret.2).
Proof.
  intros HP HL. unfold _init_status.
  destruct (init_nodes_spec P L (graph_nodes (graph state))
              (np_zeros2 rows cols) (np_zeros cols))
    as (ret & -> & Hs & Hl & Hst);
    [done|apply np_zeros2_shape|apply length_replicate|done..|].
  exists ret. split; [done|]. split; [done|]. split_and!; [done|..].
  - intros u Hu.
    pose proof (proj1 (Forall_forall _ _) Hclosed u Hu) as (Hn & Ho & _).
    left. rewrite (Hst u Hn). by repeat case_decide.
  - intros u Hn Ho. rewrite (Hst u Hn). by repeat case_decide.
Qed.

Lemma _compute_suprema_spec set_iter fuel P L :
  set_iteration set_iter → length P = cols → length L = cols → (cols ≤ fuel)%nat →
  res_ok (_compute_suprema set_iter fuel state f P L) (λ r, cyc ≠ [] → r = None).
Proof.
  intros Hiter HP HL Hfuel. unfold _compute_suprema.
  destruct (_init_status_spec P L HP HL) as ([sup status] & -> & Hsup & Hinv).
  cbn [mbind res_bind fst snd] in *.
  assert (∀ v, v ∈ set_iter (output_complement_set state)
               ↔ v ∈ graph_nodes (graph state) ∧ v ∉ output_nodes state) as Hvs.
  { intros v. unfold output_complement_set.
    rewrite (Hiter _), elem_of_elements, elem_of_difference.
    by rewrite !elem_of_list_to_set. }
  destruct (suprema_loop_spec fuel _ sup status (λ v Hv, proj1 (proj1 (Hvs v) Hv)) Hsup Hinv)
    as (r & -> & Hr).
  { pose proof (zeros_length status). destruct Hinv as (Hlen & _). lia. }
  exists r. split; [done|]. intros Hne. apply Hr.
  destruct cyc as [|c cyc'] eqn:E; [done|]. exists c. split; [by left|].
  apply Hvs. rewrite <-E in Hclosed.
  pose proof (proj1 (Forall_forall _ _) Hclosed c) as Hc.
  destruct Hc as (? & ? & _); [rewrite E; by left|done].
Qed.
End SupremaCycle.

(** ** Only unvisited vertices change their status

    This holds for every run that returns, also when labels share a cell. *)

Lemma np_get_inv a v x :
  np_get a v = Ok x ↔ ∃ i, np_index (length a) v = Ok i ∧ a !! i = Some x.
Proof.
  unfold np_get. split.
  - intros (i & Hi & Hx)%res_bind_Ok. exists i. split; [done|].
    destruct (a !! i); congruence.
  - intros (i & -> & Hx). cbn [mbind res_bind]. by rewrite Hx.
Qed.

Lemma np_set_inv a v x a' :
  np_set a v x = Ok a' ↔ ∃ i, np_index (length a) v = Ok i ∧ a' = <[i:=x]> a.
Proof.
  unfold np_set. split.
  - intros (i & Hi & [= <-])%res_bind_Ok. by exists i.
  - by intros (i & -> & ->).
Qed.

Lemma np_index_lt len v i : np_index len v = Ok i → (i < len)%nat.
Proof. unfold np_index. repeat case_decide; intros [= <-]; lia. Qed.

(** Marking an unvisited vertex, and marking a marked vertex again. *)
Lemma status_frame_mark status v x status' :
  np_get status v = Ok 0 → np_set status v x = Ok status' →
  length status' = length status ∧ status_frame status status' ∧ np_get status' v = Ok x.
Proof.
  intros (i & Hi & H0)%np_get_inv (i' & Hi' & ->)%np_set_inv.
  assert (i' = i) as -> by congruence. split_and!.
  - by rewrite length_insert.
  - intros j y Hj Hy. rewrite list_lookup_insert_ne; [done|]. intros <-. congruence.
  - apply np_get_inv. exists i. rewrite length_insert. split; [done|].
    apply list_lookup_insert_eq. by eapply np_index_lt.
Qed.

Lemma status_frame_get s1 s2 v x :
  length s2 = length s1 → status_frame s1 s2 → x ≠ 0 →
  np_get s1 v = Ok x → np_get s2 v = Ok x.
Proof.
  intros Hlen Hfr Hx (i & Hi & Hv)%np_get_inv. apply np_get_inv. exists i.
  rewrite Hlen. eauto.
Qed.

Section TraverseFrame.
Context (state : GraphStateCircuit) (f : gmap Z Z).
Context (rec : list (list Z) → list Z → Z → res sup_status).
Hypothesis Hrec : ∀ sup status w,
  np_get status w = Ok 0 →
  res_post (rec sup status w)
           (λ ret, length ret.2 = length status ∧ status_frame status ret.2).

Lemma walk_neighbors_frame v ws sup status :
  res_post (walk_neighbors state f rec v ws sup status)
    (λ r, ∃ ret, (r = inl ret ∨ r = inr ret)
                 ∧ length ret.2 = length status ∧ status_frame status ret.2).
Proof.
  revert sup status. induction ws as [|w ws IH]; intros sup status.
  { intros r [= <-]. exists (sup, status). eauto using status_frame_refl. }
  cbn [walk_neighbors]. apply res_post_any; intros fv. case_decide; [|by apply IH].
  intros r (s & Hs & Hr)%res_bind_Ok. revert r Hr.
  eapply (res_post_bind _ _
    (λ ret, length ret.2 = length status ∧ status_frame status ret.2)).
  { case_decide as Hs0; [subst s; by apply Hrec|].
    intros ret [= <-]. eauto using status_frame_refl. }
  intros [sup1 status1] [Hlen1 Hfr1]. cbn [fst snd] in *.
  apply res_post_any; intros s1. case_decide.
  { intros r [= <-]. exists (sup1, status1). eauto. }
  apply res_post_any; intros sup2 r Hr.
  destruct (IH _ _ _ Hr) as (ret & Hcase & Hlen & Hfr). exists ret.
  split_and!; [done|congruence|by eapply status_frame_trans].
Qed.

Lemma traverse_body_frame sup status v :
  np_get status v = Ok 0 →
  res_post (traverse_body state f rec sup status v)
           (λ ret, length ret.2 = length status ∧ status_frame status ret.2).
Proof.
  intros H0. unfold traverse_body.
  intros ret (status1 & Hset1 & Hret)%res_bind_Ok. revert ret Hret.
  destruct (status_frame_mark _ _ _ _ H0 Hset1) as (Hlen1 & Hfr1 & Hv1).
  apply res_post_any; intros ws.
  eapply res_post_bind; [apply walk_neighbors_frame|].
  intros r (ret & Hcase & Hlen & Hfr).
  destruct Hcase as [->| ->].
  - intros ? [= <-]. split; [congruence|by eapply status_frame_trans].
  - destruct ret as [sup' status']. cbn [fst snd] in *.
    intros ? (status2 & (i & Hi & ->)%np_set_inv & [= <-])%res_bind_Ok. cbn [snd].
    split; [rewrite length_insert; congruence|].
    intros j y Hj Hy. rewrite list_lookup_insert_ne; [apply Hfr; [by apply Hfr1|done]|].
    intros <-. apply np_get_inv in H0 as (i' & Hi' & H0).
    rewrite Hlen, Hlen1 in Hi. congruence.
Qed.
End TraverseFrame.

Lemma _traverse_infl_walk_frame fuel state f sup status v :
  np_get status v = Ok 0 →
  res_post (_traverse_infl_walk fuel state f sup status v)
           (λ ret, length ret.2 = length status ∧ status_frame status ret.2).
Proof.
  revert sup status v. induction fuel as [|fuel IH]; intros sup status v H0; [done|].
  cbn [_traverse_infl_walk]. apply traverse_body_frame; [|done]. intros. by apply IH.
Qed.

(** Line 116: when the recursion into the successor [w] of [v] leaves [w]
    pending, the call on [v] returns at once, with the arrays as the
    recursion left them and [v] not resolved. *)
Lemma walk_neighbors_pending state f rec v w ws sup status sup' status' :
  f !! v = Some w → w ∈ ws → w ≠ v →
  np_get status w = Ok 0 → rec sup status w = Ok (sup', status') →
  np_get status' w = Ok 1 →
  walk_neighbors state f rec v ws sup status = Ok (inl (sup', status')).
Proof.
  intros Hf Hin Hne H0 Hrec H1. induction ws as [|x ws IH]; [by apply elem_of_nil in Hin|].
  cbn [walk_neighbors]. unfold dict_get. rewrite Hf. cbn [mbind res_bind].
  case_decide as Hx.
  - destruct Hx as [-> _]. rewrite H0. cbn [mbind res_bind].
    rewrite decide_True by done. rewrite Hrec. cbn [mbind res_bind].
    rewrite H1. cbn [mbind res_bind]. by rewrite decide_True.
  - apply IH. apply elem_of_cons in Hin as [->|?]; [|done]. by destruct Hx.
Qed.

Lemma _traverse_infl_walk_pending fuel state f sup status status1 v w ns sup' status' :
  np_get status v = Ok 0 →
  np_set status v 1 = Ok status1 → graph_adj (graph state) v = Some ns →
  f !! v = Some w → w ∈ ns → w ≠ v →
  np_get status1 w = Ok 0 →
  _traverse_infl_walk fuel state f sup status1 w = Ok (sup', status') →
  np_get status' w = Ok 1 →
  _traverse_infl_walk (S fuel) state f sup status v = Ok (sup', status')
  ∧ np_get status' v = Ok 1.
Proof.
  intros Hv0 Hset Hns Hf Hin Hne H0 Hrec H1. split.
  - cbn [_traverse_infl_walk].
    unfold traverse_body, graph_neighbors. rewrite Hset, Hns. cbn [mbind res_bind].
    by erewrite walk_neighbors_pending.
  - destruct (status_frame_mark _ _ _ _ Hv0 Hset) as (_ & _ & Hv1).
    destruct (_traverse_infl_walk_frame _ _ _ _ _ _ H0 _ Hrec) as [Hlen Hfr].
    by eapply status_frame_get.
Qed.

(** Lines 100-101: when the traversal from [v] leaves [v] pending,
    [_compute_suprema] returns [None]. *)
Lemma suprema_loop_pending fuel state f v vs sup status sup' status' :
  np_get status v = Ok 0 →
  _traverse_infl_walk fuel state f sup status v = Ok (sup', status') →
  np_get status' v = Ok 1 →
  suprema_loop fuel state f (v :: vs) sup status = Ok None.
Proof.
  intros H0 Hrec H1. cbn [suprema_loop]. rewrite H0. cbn [mbind res_bind].
  rewrite decide_True by done. rewrite Hrec. cbn [mbind res_bind].
  rewrite H1. cbn [mbind res_bind]. by rewrite decide_True.
Qed.

(** C4, as stated for any input, fails. In [far_cycle_state] the labels 5
    and 6 are no indices of an array of length 2, and [_compute_suprema]
    raises IndexError. In [shared_cell_state] the output -3 shares its cell
    with 0: the cell is resolved from the start, the cycle between 0 and 1
    is never entered, and [_compute_suprema] returns a table. *)
Lemma compute_suprema_cycle_labels :
  (successor_cycle far_cycle_state far_cycle_f [5; 6]
   ∧ _compute_suprema ascending 2 far_cycle_state far_cycle_f [0; 0] [0; 0]
     = Raise IndexError)
  ∧ (successor_cycle shared_cell_state shared_cell_f [0; 1]
     ∧ _compute_suprema ascending 3 shared_cell_state shared_cell_f [0; 0; 0] [0; 0; 0]
       = Ok (Some [])).
Proof.
  split_and!; try by vm_compute.
  - split; [done|]. repeat constructor; try by_compute; try (intros H; by vm_compute in H).
    + exists 6, [6]. split_and!; [by vm_compute|by vm_compute|by_compute|done|by_compute].
    + exists 5, [5]. split_and!; [by vm_compute|by vm_compute|by_compute|done|by_compute].
  - split; [done|]. repeat constructor; try by_compute; try (intros H; by vm_compute in H).
    + exists 1, [1]. split_and!; [by vm_compute|by vm_compute|by_compute|done|by_compute].
    + exists 0, [0; -3]. split_and!; [by vm_compute|by vm_compute|by_compute|done|by_compute].
Qed.

(** C4, amended. Take a state whose vertex labels are the indices 0..|V|-1, a
    successor map defined on the output complement, and origins and depths
    of length |V|. A recursion that leaves the successor [w] of [v] pending
    makes the call on [v] return at once and leave [v] pending, and a
    traversal that leaves its start vertex pending makes [_compute_suprema]
    return [None]. When the successor map has a cycle among the vertices
    that are no outputs, [_compute_suprema] returns [None], whatever the
    order in which the vertices are visited: it neither raises nor runs
    forever ([|V|] units of fuel are enough). *)
Theorem compute_suprema_cycle set_iter fuel state f P L cyc :
  set_iteration set_iter → wf_graph (graph state) → labels_in_range state →
  successor_total state f →
  length P = number_of_nodes state → length L = number_of_nodes state →
  successor_cycle state f cyc → (number_of_nodes state ≤ fuel)%nat →
  (∀ fuel' sup status status1 v w ns sup' status',
     np_get status v = Ok 0 →
     np_set status v 1 = Ok status1 → graph_adj (graph state) v = Some ns →
     f !! v = Some w → w ∈ ns → w ≠ v →
     np_get status1 w = Ok 0 →
     _traverse_infl_walk fuel' state f sup status1 w = Ok (sup', status') →
     np_get status' w = Ok 1 →
     _traverse_infl_walk (S fuel') state f sup status v = Ok (sup', status')
     ∧ np_get status' v = Ok 1)
  ∧ (∀ v vs sup status sup' status',
       np_get status v = Ok 0 →
       _traverse_infl_walk fuel state f sup status v = Ok (sup', status') →
       np_get status' v = Ok 1 →
       suprema_loop fuel state f (v :: vs) sup status = Ok None)
  ∧ _compute_suprema set_iter fuel state f P L = Ok None.
Proof.
  intros Hiter Hwf Hrange Htotal HP HL [Hne Hclosed] Hfuel. split_and!.
  - intros. by eapply _traverse_infl_walk_pending.
  - intros. by eapply suprema_loop_pending.
  - destruct (_compute_suprema_spec state f cyc Hwf Hrange Htotal Hclosed
                set_iter fuel P L) as (r & -> & Hr); [done..|].
    by rewrite Hr.
Qed.

Lemma compute_suprema_cycle_witness :
  _compute_suprema ascending 4 cycle_state cycle_f cycle_P cycle_L = Ok None.
Proof.
  apply (compute_suprema_cycle ascending 4 cycle_state cycle_f cycle_P cycle_L [2; 3]);
    [apply ascending_set_iteration|by_compute|by_compute|by_compute
    |reflexivity|reflexivity| |vm_compute; lia].
  split; [done|].
  repeat constructor; try by_compute; try (intros H; by vm_compute in H).
  - exists 3, [3]. split_and!; [by vm_compute|by vm_compute|by_compute|done|by_compute].
  - exists 2, [2]. split_and!; [by vm_compute|by vm_compute|by_compute|done|by_compute].
Defined.

(** ** The family stays inside the graph *)

Lemma dg_add_edge_nodes g u v x :
  x ∈ dg_nodes (dg_add_edge g u v) → x ∈ dg_nodes g ∨ x = u ∨ x = v.
Proof.
  cbn [dg_add_edge dg_nodes]. unfold dg_add_node.
  repeat case_decide; rewrite ?elem_of_app, ?list_elem_of_singleton; tauto.
Qed.

Lemma dg_remove_edge_nodes g u v g' :
  dg_remove_edge g u v = Ok g' → dg_nodes g' = dg_nodes g.
Proof. unfold dg_remove_edge. case_decide; [|done]. by intros [= <-]. Qed.

Lemma np_get_range a v x :
  np_get a v = Ok x → - Z.of_nat (length a) ≤ v < Z.of_nat (length a).
Proof.
  intros (i & Hi & _)%res_bind_Ok. apply np_index_Ok. by eexists.
Qed.

Lemma np_set_range a v x a' :
  np_set a v x = Ok a' →
  - Z.of_nat (length a) ≤ v < Z.of_nat (length a) ∧ length a' = length a.
Proof.
  intros (i & Hi & [= <-])%res_bind_Ok. split; [|by rewrite length_insert].
  apply np_index_Ok. by eexists.
Qed.

Lemma search_inv_add state g visited v w :
  search_inv state (FamRef g) visited → label_ok state v → label_ok state w →
  search_inv state (FamRef (dg_add_edge g v w)) visited.
Proof.
  intros [Hlen Hg] Hv Hw. split; [done|]. intros g' [= <-].
  apply Forall_forall. intros x Hx.
  apply dg_add_edge_nodes in Hx as [Hx|[->| ->]]; [|done..].
  by apply (proj1 (Forall_forall _ _) (Hg g eq_refl)).
Qed.

Section AugmentedSearchNodes.
Context (state : GraphStateCircuit) (iter : Z).
Context (rec : fam_var → list Z → Z → res search_ret).
Hypothesis Hwf : wf_graph (graph state).
Hypothesis Hrec : ∀ fam visited u,
  search_inv state fam visited →
  res_post (rec fam visited u) (λ ret, search_inv state ret.1.1 ret.1.2).

Lemma scan_neighbors_nodes v ws fam visited :
  label_ok state v → ws ⊆ graph_nodes (graph state) →
  search_inv state fam visited →
  res_post (scan_neighbors state iter rec v ws fam visited)
           (λ ret, search_inv state ret.1.1 ret.1.2).
Proof.
  intros Hv. revert fam visited.
  induction ws as [|w ws IH]; intros fam visited Hws Hinv.
  { by intros ret [= <-]. }
  assert (ws ⊆ graph_nodes (graph state)) as Hws' by (intros x Hx; apply Hws; by right).
  cbn [scan_neighbors]. intros ret (x & Hx & Hret)%res_bind_Ok. revert ret Hret.
  assert (label_ok state w) as Hw.
  { split; [apply Hws; by left|]. apply np_get_range in Hx. by rewrite (proj1 Hinv) in Hx. }
  apply res_post_any; intros [|]; [|by apply IH].
  apply res_post_any; intros ns. case_decide.
  - eapply res_post_bind; [by apply Hrec|]. intros [[fam' visited'] status] Hinv'.
    cbn [fst snd] in Hinv'. destruct (py_truth status); [|by apply IH].
    destruct fam' as [g|g]; [|done]. cbn [with_fam mbind res_bind].
    intros ret [= <-]. by apply search_inv_add.
  - apply res_post_any; intros [|]; [|by apply IH].
    apply res_post_any; intros p.
    eapply res_post_bind; [by apply Hrec|]. intros [[fam' visited'] status] Hinv'.
    cbn [fst snd] in Hinv'. destruct (py_truth status); [|by apply IH].
    destruct fam' as [g|g]; [|done]. cbn [with_fam].
    intros ret (fam'' & (ps & _ & (p' & _ & (g' & Hg' & [= <-])%res_bind_Ok)%res_bind_Ok)%res_bind_Ok & [= <-])%res_bind_Ok.
    cbn [fst snd]. apply search_inv_add; [|done..].
    split; [apply Hinv'|]. intros g'' [= <-].
    rewrite (dg_remove_edge_nodes _ _ _ _ Hg'). by apply Hinv'.
Qed.

Lemma search_body_nodes fam visited v :
  search_inv state fam visited →
  res_post (search_body state iter rec fam visited v)
           (λ ret, search_inv state ret.1.1 ret.1.2).
Proof.
  intros [Hlen Hfam]. unfold search_body.
  intros ret (visited1 & [Hv Hlen1]%np_set_range & Hret)%res_bind_Ok. revert ret Hret.
  assert (search_inv state fam visited1) as Hinv1 by (split; [congruence|done]).
  case_decide; [by intros ret [= <-]|].
  apply res_post_any; intros c.
  eapply (res_post_bind _ _ (λ r, match r with
                                   | inl ret => search_inv state ret.1.1 ret.1.2
                                   | inr p => search_inv state p.1 p.2
                                   end)).
  - destruct c; [|by intros r [= <-]]. unfold reroot_pred.
    apply res_post_any; intros p.
    eapply res_post_bind; [by apply Hrec|]. intros [[fam' visited'] status] Hinv'.
    destruct (py_truth status); [|by intros r [= <-]].
    apply res_post_any; intros g r [= <-]. split; [apply Hinv'|done].
  - intros [ret|[fam' visited']] Hr; [by intros ? [= <-]|].
    unfold graph_neighbors. destruct (graph_adj (graph state) v) as [ws|] eqn:Hws; [|done].
    cbn [mbind res_bind]. apply scan_neighbors_nodes; [| |done].
    + split; [apply graph_adj_node; by eexists|]. by rewrite Hlen in Hv.
    + intros w Hw. by eapply wf_graph_neighbor.
Qed.
End AugmentedSearchNodes.

Lemma _augmented_search_nodes fuel state fam iter visited v :
  wf_graph (graph state) → search_inv state fam visited →
  res_post (_augmented_search fuel state fam iter visited v)
           (λ ret, search_inv state ret.1.1 ret.1.2).
Proof.
  intros Hwf. revert fam visited v. induction fuel as [|fuel IH]; intros fam visited v Hinv.
  - done.
  - cbn [_augmented_search]. apply search_body_nodes; [done| |done].
    intros. by apply IH.
Qed.

Lemma path_cover_loop_nodes fuel state ins fam visited iter :
  wf_graph (graph state) → search_inv state fam visited →
  res_post (path_cover_loop fuel state ins fam visited iter)
           (λ r, match r with
                 | inl ret => ∃ z, ret = PyInt z ∧ py_truth z = false
                 | inr p => search_inv state p.1 p.2
                 end).
Proof.
  intros Hwf. revert fam visited iter.
  induction ins as [|i ins IH]; intros fam visited iter Hinv; cbn [path_cover_loop].
  - by intros r [= <-].
  - eapply res_post_bind; [by apply _augmented_search_nodes|].
    intros [[fam' visited'] status] Hinv'.
    destruct (py_truth status) eqn:Hs; cbn [negb]; [by apply IH|].
    intros r [= <-]. by eexists.
Qed.

(** The family that [_build_path_cover] returns has exactly the vertices of
    the graph as nodes, and all of them are indices of the arrays; an int
    that it returns is false. *)
Lemma _build_path_cover_spec fuel state C :
  wf_graph (graph state) → _build_path_cover fuel state = Ok C →
  match C with
  | PyInt z => py_truth z = false
  | PyDiGraph g =>
      Forall (label_ok state) (dg_nodes g) ∧ graph_nodes (graph state) ⊆ dg_nodes g
  end.
Proof.
  intros Hwf. unfold _build_path_cover.
  intros ([ret|[fam visited]] & Hloop & H)%res_bind_Ok;
    (apply path_cover_loop_nodes in Hloop;
      [|done|split; [apply length_replicate|by intros ? [= <-]]]).
  - destruct Hloop as (z & -> & Hz). by injection H as <-.
  - destruct Hloop as [_ Hfam]. cbn [fst] in Hfam.
    destruct fam as [g'|g']; [|done]. cbn [with_fam mbind res_bind] in H.
    case_decide as Hcov; injection H as <-; [|done]. split; [by apply Hfam|].
    intros x Hx. apply length_zero_iff_nil in Hcov.
    destruct (decide (x ∈ dg_nodes g')) as [|Hnin]; [done|].
    assert (x ∈ list_difference (remove_dups (graph_nodes (graph state))) (dg_nodes g')) as Hd
      by (apply list_elem_of_difference; split; [by apply elem_of_remove_dups|done]).
    rewrite Hcov in Hd. by apply elem_of_nil in Hd.
Qed.

Lemma _build_path_cover_nodes fuel state g :
  wf_graph (graph state) → _build_path_cover fuel state = Ok (PyDiGraph g) →
  dg_nodes g ⊆ graph_nodes (graph state).
Proof.
  intros Hwf Hpc. apply _build_path_cover_spec in Hpc as [Hg _]; [|done].
  intros x Hx. by apply (proj1 (Forall_forall _ _) Hg) in Hx as [? _].
Qed.

(** ** The chains *)

Lemma agrees_insert C f u v ss w :
  tau_successors C v = Ok ss → py_next ss = Ok w →
  agrees C f u ∨ u = v → agrees C (<[v:=w]> f) u.
Proof.
  intros Hss Hw [(ss' & w' & Hss' & Hw' & Hf)| ->].
  - exists ss', w'. split_and!; [done..|]. destruct (decide (v = u)) as [->|Hne].
    + rewrite lookup_insert_eq. congruence.
    + by rewrite lookup_insert_ne.
  - exists ss, w. by rewrite lookup_insert_eq.
Qed.

Lemma chain_walk_spec fuel state C i v l f P L f' P' L' :
  chain_walk fuel state C i v l f P L = Ok (f', P', L') →
  (∃ vs o, walk_to state C v vs o ∧ ∀ u, u ∈ vs → agrees C f' u)
  ∧ (∀ u, agrees C f u → agrees C f' u)
  ∧ (∀ u, is_Some (f !! u) → is_Some (f' !! u)).
Proof.
  revert v l f P L. induction fuel as [|fuel IH]; intros v l f P L; [done|].
  cbn [chain_walk]. case_decide as Hout.
  - intros (P1 & _ & (L1 & _ & [= <- _ _])%res_bind_Ok)%res_bind_Ok.
    split_and!; [|done..]. exists [], v. split; [by constructor|].
    by intros u ?%elem_of_nil.
  - intros (ss & Hss & (w & Hw & (P1 & _ & (L1 & _ & Hrec)%res_bind_Ok)%res_bind_Ok)%res_bind_Ok)%res_bind_Ok.
    apply IH in Hrec as ((vs & o & Hwalk & Hvs) & Hagree & Hkeys). split_and!.
    + exists (v :: vs), o. split; [by econstructor|].
      intros u [->|Hu]%elem_of_cons; [|by apply Hvs].
      apply Hagree. eapply agrees_insert; eauto.
    + intros u Hu. apply Hagree. eapply agrees_insert; eauto.
    + intros u Hu. apply Hkeys. rewrite lookup_insert. by case_decide.
Qed.

Lemma chain_loop_spec fuel state C ins f P L f' P' L' :
  chain_loop fuel state C ins f P L = Ok (f', P', L') →
  (∀ i, i ∈ ins → ∃ vs o, walk_to state C i vs o ∧ ∀ u, u ∈ vs → agrees C f' u)
  ∧ (∀ u, agrees C f u → agrees C f' u)
  ∧ (∀ u, is_Some (f !! u) → is_Some (f' !! u)).
Proof.
  revert f P L. induction ins as [|i ins IH]; intros f P L; cbn [chain_loop].
  - intros [= <- _ _]. split_and!; [|done..]. by intros i ?%elem_of_nil.
  - intros ([[f1 P1] L1] & Hwalk & Hloop)%res_bind_Ok.
    apply chain_walk_spec in Hwalk as ((vs & o & Hwalk & Hvs) & Hagree1 & Hkeys1).
    apply IH in Hloop as (Hins & Hagree & Hkeys). split_and!; [|by eauto..].
    intros j [->|Hj]%elem_of_cons; [|by apply Hins].
    exists vs, o. split; [done|]. intros u Hu. by apply Hagree, Hvs.
Qed.

Lemma walk_to_output state C v vs o : walk_to state C v vs o → o ∈ output_nodes state.
Proof. by induction 1. Qed.

Lemma walk_to_det state C v vs o vs' o' :
  walk_to state C v vs o → walk_to state C v vs' o' → vs = vs' ∧ o = o'.
Proof.
  intros H. revert vs' o'. induction H as [v Hv|v w ss vs o Hv Hss Hw _ IH]; intros vs' o' H'.
  - by inversion H'.
  - inversion H' as [|v' w' ss' vs'' o'' Hv' Hss' Hw' Hwalk']; subst; [done|].
    assert (w' = w) as -> by congruence.
    by destruct (IH _ _ Hwalk') as [-> ->].
Qed.

Lemma walk_to_from state C v vs o u :
  walk_to state C v vs o → u ∈ vs →
  ∃ vs', walk_to state C u vs' o ∧ (length vs' ≤ length vs)%nat.
Proof.
  induction 1 as [v Hv|v w ss vs o Hv Hss Hw Hwalk IH]; [by intros ?%elem_of_nil|].
  intros [->|Hu]%elem_of_cons.
  - exists (v :: vs). split; [by econstructor|done].
  - destruct (IH Hu) as (vs' & Hwalk' & Hlen). exists vs'. split; [done|]. simpl. lia.
Qed.

Lemma walk_to_NoDup state C v vs o : walk_to state C v vs o → NoDup vs.
Proof.
  induction 1 as [v Hv|v w ss vs o Hv Hss Hw Hwalk IH]; [constructor|].
  constructor; [|done]. intros Hin.
  destruct (walk_to_from _ _ _ _ _ v Hwalk Hin) as (vs' & Hwalk' & Hlen).
  assert (walk_to state C v (v :: vs) o) as Hwalk'' by by econstructor.
  destruct (walk_to_det _ _ _ _ _ _ _ Hwalk' Hwalk'') as [-> _]. simpl in Hlen. lia.
Qed.

Lemma walk_to_nodes state C v vs o u :
  walk_to state C v vs o → u ∈ vs → ∃ g, C = PyDiGraph g ∧ u ∈ dg_nodes g.
Proof.
  induction 1 as [v Hv|v w ss vs o Hv Hss Hw Hwalk IH]; [by intros ?%elem_of_nil|].
  intros [->|Hu]%elem_of_cons; [|by apply IH].
  destruct C as [z|g]; [done|]. exists g. split; [done|].
  cbn [tau_successors] in Hss. unfold dg_successors in Hss. by case_decide.
Qed.

Lemma walk_to_follow state C f v vs o :
  walk_to state C v vs o → (∀ u, u ∈ vs → agrees C f u) →
  follow f (length vs) v = Some o.
Proof.
  induction 1 as [v Hv|v w ss vs o Hv Hss Hw Hwalk IH]; intros Hf; [done|].
  cbn [length follow]. destruct (Hf v) as (ss' & w' & Hss' & Hw' & ->); [by left|].
  cbn [mbind option_bind]. assert (w' = w) as -> by congruence.
  apply IH. intros u Hu. apply Hf. by right.
Qed.

(** ** Labels that are no index (C9) *)

Lemma np_index_Raise len v :
  ¬ valid_index len v → np_index len v = Raise (index_exn v).
Proof. unfold valid_index, np_index, index_exn. intros. repeat case_decide; done || lia. Qed.

Lemma np_index_valid len v : valid_index len v → ∃ i, np_index len v = Ok i ∧ (i < len)%nat.
Proof.
  unfold valid_index, np_index. intros. repeat case_decide; try lia; eexists; (split; [done|lia]).
Qed.

Lemma np_get_invalid a v : ¬ valid_index (length a) v → np_get a v = Raise (index_exn v).
Proof. intros. unfold np_get. by rewrite np_index_Raise. Qed.

Lemma np_set_invalid a v x : ¬ valid_index (length a) v → np_set a v x = Raise (index_exn v).
Proof. intros. unfold np_set. by rewrite np_index_Raise. Qed.

Lemma np_get_valid a v : valid_index (length a) v → ∃ x, np_get a v = Ok x.
Proof. intros. by apply np_get_Ok. Qed.

Lemma np_set_valid a v x :
  valid_index (length a) v → ∃ a', np_set a v x = Ok a' ∧ length a' = length a.
Proof.
  intros (i & Hi & _)%np_index_valid. unfold np_set. rewrite Hi. cbn [mbind res_bind].
  eexists. split; [done|]. by rewrite length_insert.
Qed.

Lemma np_set2_valid rows cols sup r v x :
  sup_shape rows cols sup → (r < rows)%nat → valid_index cols v →
  res_ok (np_set2 sup r v x) (sup_shape rows cols).
Proof.
  intros [Hlen Hrows] Hr Hv. unfold np_set2.
  destruct (lookup_lt_is_Some_2 sup r) as [row Hrow]; [lia|]. rewrite Hrow.
  assert (length row = cols) as Hc
    by (eapply (proj1 (Forall_forall _ _) Hrows), list_elem_of_lookup_2, Hrow).
  destruct (np_set_valid row v x) as (row' & -> & Hrow'); [by rewrite Hc|].
  cbn [mbind res_bind]. eexists. split; [done|].
  split; [by rewrite length_insert|].
  apply Forall_insert; [done|congruence].
Qed.

Section InitStatusLabels.
Context (state : GraphStateCircuit) (P L : list Z).
Hypothesis HP : length P = number_of_nodes state.
Hypothesis HL : length L = number_of_nodes state.

Lemma init_inputs_valid v ins sup :
  ins ⊆ input_nodes state →
  sup_shape (length (input_nodes state)) (number_of_nodes state) sup →
  valid_index (number_of_nodes state) v →
  res_ok (init_inputs state P L v ins sup)
    (sup_shape (length (input_nodes state)) (number_of_nodes state)).
Proof.
  intros Hins Hsup Hv. revert sup Hsup Hins.
  induction ins as [|i ins IH]; intros sup Hsup Hins; [by eexists|].
  cbn [init_inputs].
  destruct (np_get_valid P v) as [pv ->]; [by rewrite HP|]. cbn [mbind res_bind].
  destruct (vertex2index_lookup (input_nodes state) i) as (r & Hr & Hlt);
    [apply Hins; by left|].
  assert (ins ⊆ input_nodes state) as Hins' by (intros j Hj; apply Hins; by right).
  case_decide.
  - destruct (np_get_valid L v) as [lv ->]; [by rewrite HL|].
    cbn [mbind res_bind]. rewrite Hr. cbn [mbind res_bind].
    destruct (np_set2_valid _ _ sup r v lv Hsup Hlt Hv) as (sup' & -> & Hsup').
    cbn [mbind res_bind]. by apply IH.
  - rewrite Hr. cbn [mbind res_bind].
    destruct (np_set2_valid _ _ sup r v (Z.of_nat (number_of_nodes state)) Hsup Hlt Hv)
      as (sup' & -> & Hsup').
    cbn [mbind res_bind]. by apply IH.
Qed.

Lemma init_inputs_invalid v sup :
  ¬ valid_index (number_of_nodes state) v →
  init_inputs state P L v (input_nodes state) sup = Raise (index_exn v)
  ∨ init_inputs state P L v (input_nodes state) sup = Ok sup.
Proof.
  intros Hv. destruct (input_nodes state) as [|i ins]; [by right|]. left.
  cbn [init_inputs]. rewrite (np_get_invalid P); [reflexivity|by rewrite HP].
Qed.

Lemma init_nodes_invalid vs v sup status :
  v ∈ vs → ¬ valid_index (number_of_nodes state) v →
  sup_shape (length (input_nodes state)) (number_of_nodes state) sup →
  length status = number_of_nodes state →
  ∃ u, u ∈ vs ∧ ¬ valid_index (number_of_nodes state) u
       ∧ init_nodes state P L vs sup status = Raise (index_exn u).
Proof.
  intros Hin Hv. revert sup status.
  induction vs as [|u vs IH]; intros sup status Hsup Hlen; [by apply elem_of_nil in Hin|].
  cbn [init_nodes].
  destruct (decide (valid_index (number_of_nodes state) u)) as [Hu|Hu].
  - destruct (init_inputs_valid u (input_nodes state) sup) as (sup1 & -> & Hsup1); [done..|].
    cbn [mbind res_bind].
    destruct (np_set_valid status u (if decide (u ∈ output_nodes state) then 2 else 0))
      as (status1 & -> & Hlen1); [by rewrite Hlen|].
    cbn [mbind res_bind].
    assert (v ∈ vs) as Hin'.
    { apply elem_of_cons in Hin as [->|?]; [by destruct Hv|done]. }
    destruct (IH Hin' sup1 status1) as (u' & Hu' & Hinv & ->); [done|congruence|].
    exists u'. split_and!; [by right|done..].
  - exists u. split_and!; [by left|done|].
    destruct (init_inputs_invalid u sup Hu) as [-> | ->]; [done|].
    cbn [mbind res_bind]. rewrite np_set_invalid; [reflexivity|by rewrite Hlen].
Qed.
End InitStatusLabels.

Lemma _init_status_invalid state P L v :
  length P = number_of_nodes state → length L = number_of_nodes state →
  v ∈ graph_nodes (graph state) → ¬ valid_index (number_of_nodes state) v →
  ∃ u, u ∈ graph_nodes (graph state) ∧ ¬ valid_index (number_of_nodes state) u
       ∧ _init_status state P L = Raise (index_exn u).
Proof.
  intros HP HL Hv Hinv. unfold _init_status.
  apply (init_nodes_invalid state P L HP HL _ v); [done..|apply np_zeros2_shape|].
  apply length_replicate.
Qed.

Lemma index_exn_failure v : index_failure v (index_exn v).
Proof. unfold index_failure, index_exn. case_decide; [by left|by right]. Qed.

(** C9, amended. Every stage uses the label of a vertex as an index of an
    array of length [|V|]. On a vertex [v] whose label is no such index
    (not in [-|V| <= v < |V|]) the augmenting search and the traversal
    raise at their first statement, the chain walk raises when it arrives
    at [v], and [_init_status] raises on any state that has such a vertex;
    the exception of the index is IndexError or, only for a label that does
    not fit in 64 bits, OverflowError. A state with as many input as output
    nodes that has such a vertex gets no result from [find_flow], neither a
    flow nor [None]; when the vertex is the first input node, [find_flow]
    raises that exception, which is neither the error of the input shape
    nor the warning that no flow was found. *)
Theorem find_flow_label_out_of_range set_iter fuel state sanity_check v :
  wf_graph (graph state) →
  length (input_nodes state) = length (output_nodes state) →
  v ∈ graph_nodes (graph state) →
  ¬ valid_index (number_of_nodes state) v →
  (∀ fuel' fam iter visited, length visited = number_of_nodes state →
     ∃ e, _augmented_search (S fuel') state fam iter visited v = Raise e
          ∧ index_failure v e)
  ∧ (∀ fuel' C i l f P L, length P = number_of_nodes state →
       ∃ e, chain_walk (S fuel') state C i v l f P L = Raise e)
  ∧ (∀ P L, length P = number_of_nodes state → length L = number_of_nodes state →
       ∃ u e, u ∈ graph_nodes (graph state) ∧ ¬ valid_index (number_of_nodes state) u
              ∧ _init_status state P L = Raise e ∧ index_failure u e)
  ∧ (∀ fuel' f sup status, length status = number_of_nodes state →
       ∃ e, _traverse_infl_walk (S fuel') state f sup status v = Raise e
            ∧ index_failure v e)
  ∧ (∀ r, find_flow set_iter fuel state sanity_check ≠ Ok r)
  ∧ (∀ ins, input_nodes state = v :: ins → (1 ≤ fuel)%nat →
       ∃ e, find_flow set_iter fuel state sanity_check = Raise e
            ∧ index_failure v e ∧ e ≠ ValueError ∧ e ≠ UserWarning).
Proof.
  intros Hwf Hlen Hv Hrange.
  assert (∀ fuel' fam iter visited, length visited = number_of_nodes state →
     _augmented_search (S fuel') state fam iter visited v = Raise (index_exn v)) as Hsearch.
  { intros fuel' fam iter visited Hvis. cbn [_augmented_search]. unfold search_body.
    rewrite np_set_invalid; [reflexivity|by rewrite Hvis]. }
  split_and!.
  - intros fuel' fam iter visited Hvis. exists (index_exn v).
    split; [by apply Hsearch|apply index_exn_failure].
  - intros fuel' C i l f P L HP. cbn [chain_walk].
    assert (np_set P v i = Raise (index_exn v)) as HPv
      by (apply np_set_invalid; by rewrite HP).
    case_decide.
    + rewrite HPv. by eexists.
    + destruct (tau_successors C v) as [ss| |] eqn:Hss.
      * cbn [mbind res_bind]. destruct ss as [|w ss]; [by eexists|].
        cbn [py_next mbind res_bind]. rewrite HPv. by eexists.
      * by eexists.
      * destruct C as [z|g]; [done|]. cbn [tau_successors] in Hss.
        unfold dg_successors in Hss. by case_decide.
  - intros P L HP HL.
    destruct (_init_status_invalid state P L v) as (u & Hu & Hinv & Hinit); [done..|].
    exists u, (index_exn u). split_and!; [done..|apply index_exn_failure].
  - intros fuel' f sup status Hst. exists (index_exn v).
    split; [|apply index_exn_failure].
    cbn [_traverse_infl_walk]. unfold traverse_body.
    rewrite np_set_invalid; [reflexivity|by rewrite Hst].
  - intros r Hff. unfold find_flow in Hff. destruct (decide _); [done|].
    destruct (_build_path_cover fuel state) as [C| |] eqn:Hpc; [|done..].
    cbn [mbind res_bind] in Hff. destruct (truthy C) eqn:HC; [|done].
    apply _build_path_cover_spec in Hpc; [|done]. destruct C as [z|g'].
    + cbn [truthy] in HC. congruence.
    + destruct Hpc as [Hok Hcov]. apply Hcov in Hv.
      by apply (proj1 (Forall_forall _ _) Hok) in Hv as [_ ?].
  - intros ins Hins Hfuel. exists (index_exn v).
    split_and!; [|apply index_exn_failure|unfold index_exn; by case_decide..].
    unfold find_flow. destruct (decide _); [done|].
    unfold _build_path_cover. rewrite Hins. cbn [path_cover_loop].
    destruct fuel as [|fuel]; [lia|].
    rewrite Hsearch; [done|]. apply length_replicate.
Qed.

Lemma find_flow_label_out_of_range_witness :
  (∀ fuel' fam iter visited, length visited = number_of_nodes far_label_state →
     ∃ e, _augmented_search (S fuel') far_label_state fam iter visited 5 = Raise e
          ∧ index_failure 5 e)
  ∧ (∀ fuel' C i l f P L, length P = number_of_nodes far_label_state →
       ∃ e, chain_walk (S fuel') far_label_state C i 5 l f P L = Raise e)
  ∧ (∀ P L, length P = number_of_nodes far_label_state →
       length L = number_of_nodes far_label_state →
       ∃ u e, u ∈ graph_nodes (graph far_label_state)
              ∧ ¬ valid_index (number_of_nodes far_label_state) u
              ∧ _init_status far_label_state P L = Raise e ∧ index_failure u e)
  ∧ (∀ fuel' f sup status, length status = number_of_nodes far_label_state →
       ∃ e, _traverse_infl_walk (S fuel') far_label_state f sup status 5 = Raise e
            ∧ index_failure 5 e)
  ∧ (∀ r, find_flow ascending 1 far_label_state false ≠ Ok r)
  ∧ (∀ ins, input_nodes far_label_state = 5 :: ins → (1 ≤ 1)%nat →
       ∃ e, find_flow ascending 1 far_label_state false = Raise e
            ∧ index_failure 5 e ∧ e ≠ ValueError ∧ e ≠ UserWarning).
Proof.
  apply (find_flow_label_out_of_range ascending 1 far_label_state false 5);
    [by_compute|reflexivity|by_compute|unfold valid_index, number_of_nodes; simpl; lia].
Defined.

(** The two exceptions: the label 5 in a graph of two vertices raises
    IndexError, the label [2^63] raises OverflowError. *)
Lemma find_flow_label_exceptions :
  find_flow ascending 1 far_label_state false = Raise IndexError
  ∧ find_flow ascending 1 huge_label_state false = Raise OverflowError.
Proof. split; vm_compute; reflexivity. Qed.

(** ** The edges of the family *)

Lemma cover_inv_add state g v w ns :
  cover_inv state (FamRef g) →
  v ∉ output_nodes state → w ∉ input_nodes state →
  graph_adj (graph state) v = Some ns → w ∈ ns →
  cover_inv state (FamRef (dg_add_edge g v w)).
Proof.
  intros Hg Hv Hw Hns Hin g' [= <-]. destruct (Hg g eq_refl) as [He Hn]. split.
  - cbn [dg_add_edge dg_edges]. case_decide; [done|].
    apply Forall_app. split; [done|]. constructor; [|done].
    split_and!; [done..|]. by exists ns.
  - apply Forall_forall. intros x Hx.
    apply dg_add_edge_nodes in Hx as [Hx|[->| ->]]; [|by right|by left].
    by apply (proj1 (Forall_forall _ _) Hn).
Qed.

Lemma cover_inv_remove state g u v g' :
  cover_inv state (FamRef g) → dg_remove_edge g u v = Ok g' →
  cover_inv state (FamRef g').
Proof.
  intros Hg Hrm g'' [= <-]. destruct (Hg g eq_refl) as [He Hn].
  unfold dg_remove_edge in Hrm. case_decide; [|done]. injection Hrm as <-.
  split; [|done]. cbn [dg_edges]. apply Forall_forall.
  intros e [_ Hin]%list_elem_of_filter. by apply (proj1 (Forall_forall _ _) He).
Qed.

Section AugmentedSearchEdges.
Context (state : GraphStateCircuit) (iter : Z).
Context (rec : fam_var → list Z → Z → res search_ret).
Hypothesis Hrec : ∀ fam visited u,
  cover_inv state fam → res_post (rec fam visited u) (λ ret, cover_inv state ret.1.1).

Lemma scan_neighbors_edges v ns ws fam visited :
  v ∉ output_nodes state → graph_adj (graph state) v = Some ns → ws ⊆ ns →
  cover_inv state fam →
  res_post (scan_neighbors state iter rec v ws fam visited)
           (λ ret, cover_inv state ret.1.1).
Proof.
  intros Hv Hns. revert fam visited.
  induction ws as [|w ws IH]; intros fam visited Hws Hinv.
  { by intros ret [= <-]. }
  assert (ws ⊆ ns) as Hws' by (intros x Hx; apply Hws; by right).
  assert (w ∈ ns) as Hw by (apply Hws; by left).
  cbn [scan_neighbors]. apply res_post_any; intros x.
  destruct (decide (x < iter)); [|by apply IH].
  destruct (decide (w ∉ input_nodes state)) as [Hwin|]; [|by apply IH].
  apply res_post_any; intros [|]; [|by apply IH].
  apply res_post_any; intros ms. case_decide.
  - eapply res_post_bind; [by apply Hrec|]. intros [[fam' visited'] status] Hinv'.
    cbn [fst snd] in Hinv'. destruct (py_truth status); [|by apply IH].
    destruct fam' as [g|g]; [|done]. cbn [with_fam mbind res_bind].
    intros ret [= <-]. by eapply cover_inv_add.
  - apply res_post_any; intros [|]; [|by apply IH].
    apply res_post_any; intros p.
    eapply res_post_bind; [by apply Hrec|]. intros [[fam' visited'] status] Hinv'.
    cbn [fst snd] in Hinv'. destruct (py_truth status); [|by apply IH].
    destruct fam' as [g|g]; [|done]. cbn [with_fam].
    intros ret (fam'' & (ps & _ & (p' & _ & (g' & Hg' & [= <-])%res_bind_Ok)%res_bind_Ok)%res_bind_Ok & [= <-])%res_bind_Ok.
    cbn [fst snd]. eapply cover_inv_add; [|done..]. by eapply cover_inv_remove.
Qed.

Lemma search_body_edges fam visited v :
  cover_inv state fam →
  res_post (search_body state iter rec fam visited v) (λ ret, cover_inv state ret.1.1).
Proof.
  intros Hinv. unfold search_body. apply res_post_any; intros visited1.
  case_decide as Hout; [by intros ret [= <-]|].
  apply res_post_any; intros c.
  eapply (res_post_bind _ _ (λ r, match r with
                                   | inl ret => cover_inv state ret.1.1
                                   | inr p => cover_inv state p.1
                                   end)).
  - destruct c; [|by intros r [= <-]]. unfold reroot_pred.
    apply res_post_any; intros p.
    eapply res_post_bind; [by apply Hrec|]. intros [[fam' visited'] status] Hinv'.
    destruct (py_truth status); [|by intros r [= <-]].
    apply res_post_any; intros g r [= <-]. done.
  - intros [ret|[fam' visited']] Hr; [by intros ? [= <-]|].
    unfold graph_neighbors. destruct (graph_adj (graph state) v) as [ws|] eqn:Hws; [|done].
    cbn [mbind res_bind]. by eapply scan_neighbors_edges.
Qed.
End AugmentedSearchEdges.

Lemma _augmented_search_edges fuel state fam iter visited v :
  cover_inv state fam →
  res_post (_augmented_search fuel state fam iter visited v)
           (λ ret, cover_inv state ret.1.1).
Proof.
  revert fam visited v. induction fuel as [|fuel IH]; intros fam visited v Hinv; [done|].
  cbn [_augmented_search]. apply search_body_edges; [|done]. intros. by apply IH.
Qed.

Lemma path_cover_loop_edges fuel state ins fam visited iter :
  cover_inv state fam →
  res_post (path_cover_loop fuel state ins fam visited iter)
           (λ r, match r with
                 | inl ret => ∃ z, ret = PyInt z ∧ py_truth z = false
                 | inr p => cover_inv state p.1
                 end).
Proof.
  revert fam visited iter.
  induction ins as [|i ins IH]; intros fam visited iter Hinv; cbn [path_cover_loop].
  - by intros r [= <-].
  - eapply res_post_bind; [by apply _augmented_search_edges|].
    intros [[fam' visited'] status] Hinv'.
    destruct (py_truth status) eqn:Hs; cbn [negb]; [by apply IH|].
    intros r [= <-]. by eexists.
Qed.

Lemma _build_path_cover_edges fuel state C :
  _build_path_cover fuel state = Ok C →
  match C with
  | PyInt z => z = 0
  | PyDiGraph g =>
      Forall (cover_edge_ok state) (dg_edges g)
      ∧ Forall (cover_node_ok state) (dg_nodes g)
      ∧ graph_nodes (graph state) ⊆ dg_nodes g
  end.
Proof.
  unfold _build_path_cover.
  intros ([ret|[fam visited]] & Hloop & H)%res_bind_Ok;
    (apply path_cover_loop_edges in Hloop; [|by intros ? [= <-]]).
  - destruct Hloop as (z & -> & Hz). injection H as <-.
    unfold py_truth in Hz. apply bool_decide_eq_false in Hz. by apply dec_stable.
  - cbn [fst] in Hloop.
    destruct fam as [g'|g']; [|done]. cbn [with_fam mbind res_bind] in H.
    case_decide as Hcov; injection H as <-; [|done].
    destruct (Hloop g' eq_refl) as [He Hn]. split_and!; [done..|].
    intros x Hx. apply length_zero_iff_nil in Hcov.
    destruct (decide (x ∈ dg_nodes g')) as [|Hnin]; [done|].
    assert (x ∈ list_difference (remove_dups (graph_nodes (graph state))) (dg_nodes g')) as Hd
      by (apply list_elem_of_difference; split; [by apply elem_of_remove_dups|done]).
    rewrite Hcov in Hd. by apply elem_of_nil in Hd.
Qed.

Lemma find_flow_Ok_inv set_iter fuel state sanity_check r :
  find_flow set_iter fuel state sanity_check = Ok r →
  length (input_nodes state) = length (output_nodes state) ∧
  ∃ C, _build_path_cover fuel state = Ok C ∧ truthy C = true.
Proof.
  unfold find_flow. destruct (decide _) as [|Hlen]; [done|].
  destruct (_build_path_cover fuel state) as [C| |]; [|done..].
  cbn [mbind res_bind]. destruct (truthy C) eqn:HC; [|done].
  intros _. split; [by apply dec_stable|by exists C].
Qed.

Lemma first_successor_edge g v ss w :
  dg_successors g v = Ok ss → py_next ss = Ok w → (v, w) ∈ dg_edges g.
Proof.
  unfold dg_successors. case_decide; [|done]. intros [= <-].
  destruct (filter _ _) as [|[a b] l] eqn:E; [done|]. cbn. intros [= <-].
  assert ((a, b) ∈ filter (λ e : Z * Z, e.1 = v) (dg_edges g)) as Hin
    by (rewrite E; by left).
  apply list_elem_of_filter in Hin as [Ha Hin]. cbn in Ha. by subst a.
Qed.

Lemma walk_to_not_output state C v vs o u :
  walk_to state C v vs o → u ∈ vs → u ∉ output_nodes state.
Proof.
  induction 1 as [v Hv|v w ss vs o Hv Hss Hw Hwalk IH]; [by intros ?%elem_of_nil|].
  intros [->|Hu]%elem_of_cons; [done|by apply IH].
Qed.

Lemma walk_to_flow_path state g f v vs o :
  Forall (cover_edge_ok state) (dg_edges g) →
  walk_to state (PyDiGraph g) v vs o →
  (∀ u, u ∈ vs → agrees (PyDiGraph g) f u) →
  flow_path state (_flow_from_array state f) v vs o.
Proof.
  intros He. induction 1 as [v Hv|v w ss vs o Hv Hss Hw Hwalk IH]; intros Hf; [done|].
  cbn [flow_path]. split; [done|].
  destruct (Hf v) as (ss' & w' & Hss' & Hw' & Hfv); [by left|].
  assert (w' = w) as -> by congruence.
  pose proof (first_successor_edge _ _ _ _ Hss Hw) as Hedge.
  apply (proj1 (Forall_forall _ _) He) in Hedge as (_ & _ & ns & Hns & Hin).
  cbn [fst snd] in *. exists w, ns. split_and!; [|done|done|].
  - unfold _flow_from_array, dict_get. rewrite decide_True, Hfv; [done|].
    apply list_elem_of_filter. split; [done|]. apply graph_adj_node. by eexists.
  - apply IH. intros u Hu. apply Hf. by right.
Qed.

(** X1. Every edge [(u, w)] of the family that [_build_path_cover] returns
    is an edge of the graph ([w] is listed among the neighbours of [u]); it
    leaves no output node and enters no input node. This holds for every
    state, whatever its labels. *)
Theorem build_path_cover_graph_edges fuel state g u w :
  _build_path_cover fuel state = Ok (PyDiGraph g) → (u, w) ∈ dg_edges g →
  (∃ ns, graph_neighbors (graph state) u = Ok ns ∧ w ∈ ns)
  ∧ (u ∉ output_nodes state) ∧ (w ∉ input_nodes state).
Proof.
  intros Hpc Hin. apply _build_path_cover_edges in Hpc as (He & _ & _).
  apply (proj1 (Forall_forall _ _) He) in Hin as (Hu & Hw & ns & Hns & Hin).
  cbn [fst snd] in *. split_and!; [|done..].
  exists ns. unfold graph_neighbors. by rewrite Hns.
Qed.

Lemma build_path_cover_graph_edges_witness :
  (∃ ns, graph_neighbors (graph path_state) 2 = Ok ns ∧ 3 ∈ ns)
  ∧ (2 ∉ output_nodes path_state) ∧ (3 ∉ input_nodes path_state).
Proof.
  apply (build_path_cover_graph_edges 5 path_state path_cover 2 3);
    [vm_compute; reflexivity|by_compute].
Defined.

(** X2. On a graph that satisfies the invariant of [nx.Graph],
    [_build_path_cover] returns either the int 0 or a family whose nodes
    are exactly the vertices of the graph. *)
Theorem build_path_cover_returns fuel state C :
  wf_graph (graph state) → _build_path_cover fuel state = Ok C →
  C = PyInt 0
  ∨ ∃ g, C = PyDiGraph g ∧ ∀ x, x ∈ dg_nodes g ↔ x ∈ graph_nodes (graph state).
Proof.
  intros Hwf Hpc. destruct C as [z|g].
  - left. by rewrite (_build_path_cover_edges _ _ _ Hpc).
  - right. exists g. split; [done|]. intros x. split.
    + by apply (_build_path_cover_nodes fuel).
    + apply _build_path_cover_edges in Hpc as (_ & _ & Hcov). apply Hcov.
Qed.

Lemma build_path_cover_returns_witness :
  PyDiGraph path_cover = PyInt 0
  ∨ ∃ g, PyDiGraph path_cover = PyDiGraph g
         ∧ ∀ x, x ∈ dg_nodes g ↔ x ∈ graph_nodes (graph path_state).
Proof.
  apply (build_path_cover_returns 5 path_state (PyDiGraph path_cover));
    [by_compute|vm_compute; reflexivity].
Defined.

(** X3. A state in which a vertex of the graph is both an input and an
    output node gets no result from [find_flow]: the search from such a
    vertex succeeds at once without adding it to the family, and no edge may
    enter an input node, so the test of line 159 finds it uncovered (unless
    an earlier step has raised). *)
Theorem find_flow_input_is_output set_iter fuel state sanity_check v r :
  v ∈ graph_nodes (graph state) → v ∈ input_nodes state → v ∈ output_nodes state →
  find_flow set_iter fuel state sanity_check ≠ Ok r.
Proof.
  intros Hv Hin Hout Hff.
  apply find_flow_Ok_inv in Hff as (_ & C & Hpc & HC).
  apply _build_path_cover_edges in Hpc. destruct C as [z|g].
  - subst z. done.
  - destruct Hpc as (_ & Hn & Hcov). apply Hcov in Hv.
    apply (proj1 (Forall_forall _ _) Hn) in Hv as [?|?]; done.
Qed.

Lemma find_flow_input_is_output_witness :
  find_flow ascending 1 loop_state false ≠ Ok RetNone.
Proof.
  apply (find_flow_input_is_output ascending 1 loop_state false 0 RetNone); by_compute.
Defined.

(** X4. Without input and output nodes [find_flow] raises the warning that
    no flow was found, whatever the graph: no search runs, the family stays
    empty, and [_build_path_cover] returns 0 or, on the graph without
    vertices, the empty family, which is false as well. *)
Theorem find_flow_no_input set_iter fuel g sanity_check :
  find_flow set_iter fuel (mkState g [] []) sanity_check = Raise UserWarning.
Proof.
  unfold find_flow, _build_path_cover. cbn [input_nodes output_nodes length path_cover_loop].
  rewrite decide_False by (by intros ?).
  cbn [mbind res_bind with_fam dg_empty dg_nodes].
  case_decide as Hcov; cbn [mbind res_bind truthy]; [|done].
  done.
Qed.

(** X5. When [find_flow] returns a flow, following [flow] from an input
    node walks a path of the graph: every vertex on it is no output, [flow]
    maps it to one of its neighbours, no vertex is repeated, and the path
    ends at an output node. *)
Theorem find_flow_chain_paths set_iter fuel state sanity_check flow top_order i :
  find_flow set_iter fuel state sanity_check = Ok (RetFlow flow top_order) →
  i ∈ input_nodes state →
  ∃ vs o, flow_path state flow i vs o ∧ o ∈ output_nodes state ∧ NoDup vs
          ∧ ∀ u, u ∈ vs → u ∉ output_nodes state.
Proof.
  intros Hff Hi.
  apply find_flow_RetFlow_inv in Hff
    as (C & f & P & L & sup & g & _ & Hpc & HC & Hcd & _ & _ & _ & ->).
  unfold _get_chain_decomposition in Hcd.
  apply chain_loop_spec in Hcd as (Hins & _ & _).
  destruct (Hins i Hi) as (vs & o & Hwalk & Hvs). exists vs, o.
  apply _build_path_cover_edges in Hpc. destruct C as [z|g']; [by subst z|].
  destruct Hpc as (He & _ & _). split_and!.
  - apply (walk_to_flow_path _ g'); assumption.
  - by eapply walk_to_output.
  - by eapply walk_to_NoDup.
  - intros u. by eapply walk_to_not_output.
Qed.

Lemma find_flow_chain_paths_witness :
  ∃ vs o, flow_path path_state (_flow_from_array path_state path_f) 0 vs o
          ∧ o ∈ output_nodes path_state ∧ NoDup vs
          ∧ ∀ u, u ∈ vs → u ∉ output_nodes path_state.
Proof.
  apply (find_flow_chain_paths ascending 5 path_state false
           (_flow_from_array path_state path_f) [0; 1; 2; 3; 4] 0);
    [vm_compute; reflexivity|by_compute].
Defined.

(** ** The depth of the recursions *)

Lemma res_runs_bind {A B} (m : res A) (k : A → res B) (Q1 : A → Prop) (Q2 : B → Prop) :
  res_runs m Q1 → (∀ a, m = Ok a → Q1 a → res_runs (k a) Q2) → res_runs (m ≫= k) Q2.
Proof.
  intros [Hm HQ] Hk. destruct m as [a| |]; [|done..]. by apply Hk; [|apply HQ].
Qed.

Lemma res_runs_pure {A B} (m : res A) (k : A → res B) (Q : B → Prop) :
  m ≠ OutOfFuel → (∀ a, m = Ok a → res_runs (k a) Q) → res_runs (m ≫= k) Q.
Proof. intros Hm Hk. destruct m as [a| |]; [|done..]. by apply Hk. Qed.

Lemma res_runs_Ok {A} (a : A) (Q : A → Prop) : Q a → res_runs (Ok a) Q.
Proof. intros HQ. split; [done|]. by intros ? [= <-]. Qed.

Lemma np_index_fuel len v : np_index len v ≠ OutOfFuel.
Proof. unfold np_index. by repeat case_decide. Qed.

Lemma np_get_fuel a v : np_get a v ≠ OutOfFuel.
Proof.
  unfold np_get. pose proof (np_index_fuel (length a) v).
  destruct (np_index _ _) as [i| |]; [|done..]. cbn. by destruct (a !! i).
Qed.

Lemma np_set_fuel a v x : np_set a v x ≠ OutOfFuel.
Proof.
  unfold np_set. pose proof (np_index_fuel (length a) v).
  by destruct (np_index _ _) as [i| |].
Qed.

Lemma first_pred_fuel fam v : first_pred fam v ≠ OutOfFuel.
Proof.
  destruct fam as [g|g]; [|done]. cbn [first_pred with_fam]. unfold dg_predecessors.
  case_decide; [|done]. cbn. by destruct (_.*1).
Qed.

Lemma pred_unvisited_fuel iter fam visited v : pred_unvisited iter fam visited v ≠ OutOfFuel.
Proof.
  unfold pred_unvisited. pose proof (first_pred_fuel fam v).
  destruct (first_pred fam v) as [p| |]; [|done..]. cbn.
  pose proof (np_get_fuel visited p). by destruct (np_get visited p).
Qed.

Lemma pred_unvisited_true iter fam visited v :
  pred_unvisited iter fam visited v = Ok true →
  ∃ p x, first_pred fam v = Ok p ∧ np_get visited p = Ok x ∧ x < iter.
Proof.
  intros (p & Hp & (x & Hx & [= Hlt])%res_bind_Ok)%res_bind_Ok.
  exists p, x. split_and!; [done..|]. by apply bool_decide_eq_true in Hlt.
Qed.

Lemma stale_insert_le iter visited j :
  (stale iter (<[j:=iter]> visited) ≤ stale iter visited)%nat.
Proof.
  revert j. induction visited as [|y visited IH]; intros [|j]; simpl; try lia.
  - repeat case_decide; lia.
  - specialize (IH j). case_decide; lia.
Qed.

Lemma stale_insert_lt iter visited j x :
  visited !! j = Some x → x < iter →
  (stale iter (<[j:=iter]> visited) < stale iter visited)%nat.
Proof.
  revert j. induction visited as [|y visited IH]; intros [|j] Hj Hx; simpl in *; try done.
  - injection Hj as ->. repeat case_decide; lia.
  - specialize (IH j Hj Hx). case_decide; lia.
Qed.

Lemma stale_length iter visited : (stale iter visited ≤ length visited)%nat.
Proof. induction visited; simpl; [done|]. case_decide; lia. Qed.

Lemma res_runs_mono {A} (r : res A) (Q Q' : A → Prop) :
  res_runs r Q → (∀ a, Q a → Q' a) → res_runs r Q'.
Proof. intros [Hr HQ] H. split; [done|]. intros a Ha. by apply H, HQ. Qed.

Lemma search_post_refl iter fam visited status :
  search_post iter visited (fam, visited, status).
Proof. by split_and!. Qed.

Lemma search_post_trans iter v1 v2 ret :
  length v2 = length v1 → (stale iter v2 ≤ stale iter v1)%nat →
  (Forall (λ x, x ≤ iter) v1 → Forall (λ x, x ≤ iter) v2) →
  search_post iter v2 ret → search_post iter v1 ret.
Proof.
  intros Hlen Hst Hle (Hlen' & Hst' & Hle'). split_and!; [congruence|lia|by auto].
Qed.

Lemma search_post_stamp iter fam status visited ret :
  search_post iter visited ret → search_post iter visited (fam, ret.1.2, status).
Proof. done. Qed.

Section AugmentedSearchFuel.
Context (state : GraphStateCircuit) (iter : Z) (n : nat).
Context (rec : fam_var → list Z → Z → res search_ret).
Hypothesis Hrec : ∀ fam visited u x,
  np_get visited u = Ok x → x < iter → (stale iter visited < n)%nat →
  res_runs (rec fam visited u) (search_post iter visited).

Lemma scan_neighbors_runs v ws fam visited :
  (stale iter visited < n)%nat →
  res_runs (scan_neighbors state iter rec v ws fam visited) (search_post iter visited).
Proof.
  revert fam visited. induction ws as [|w ws IH]; intros fam visited Hn.
  { apply res_runs_Ok, search_post_refl. }
  cbn [scan_neighbors]. apply res_runs_pure; [apply np_get_fuel|]. intros x Hx.
  destruct (decide (x < iter)) as [Hlt|]; [|by apply IH].
  apply res_runs_pure.
  { case_decide; [|done]. by destruct fam. }
  intros [|] _; [|by apply IH].
  apply res_runs_pure; [by destruct fam|]. intros ms _. case_decide.
  - eapply res_runs_bind; [by eapply Hrec|].
    intros [[fam' visited'] status] _ (Hlen & Hst & Hle). cbn [fst snd] in *.
    destruct (py_truth status).
    + apply res_runs_pure; [by destruct fam'|]. intros fam'' _.
      apply res_runs_Ok. by split_and!.
    + eapply res_runs_mono; [apply IH; lia|]. intros ret. by apply search_post_trans.
  - apply res_runs_pure; [apply pred_unvisited_fuel|].
    intros [|] Hc; [|by apply IH].
    apply pred_unvisited_true in Hc as (p & y & Hp & Hy & Hlt').
    rewrite Hp. cbn [mbind res_bind].
    eapply res_runs_bind; [by eapply Hrec|].
    intros [[fam' visited'] status] _ (Hlen & Hst & Hle). cbn [fst snd] in *.
    destruct (py_truth status).
    + apply res_runs_pure.
      { destruct fam' as [g|g]; [|done]. cbn [with_fam]. unfold dg_predecessors.
        case_decide; [|done]. cbn [mbind res_bind].
        destruct (_.*1) as [|q qs]; [done|]. cbn [py_next mbind res_bind].
        unfold dg_remove_edge. by case_decide. }
      intros fam'' _. apply res_runs_Ok. by split_and!.
    + eapply res_runs_mono; [apply IH; lia|]. intros ret. by apply search_post_trans.
Qed.

Lemma search_body_runs fam visited v :
  (stale iter visited < S n)%nat → (∀ x, np_get visited v = Ok x → x < iter) →
  res_runs (search_body state iter rec fam visited v) (search_post iter visited).
Proof.
  intros Hn Hguard. unfold search_body.
  apply res_runs_pure; [apply np_set_fuel|]. intros visited1 Hset.
  apply np_set_inv in Hset as (i & Hi & ->).
  destruct (lookup_lt_is_Some_2 visited i) as [x Hx]; [by eapply np_index_lt|].
  assert (x < iter) as Hlt by (apply Hguard, np_get_inv; by exists i).
  pose proof (stale_insert_lt iter visited i x Hx Hlt) as Hst1.
  assert (∀ ret, search_post iter (<[i:=iter]> visited) ret → search_post iter visited ret)
    as Hpost.
  { intros ret. apply search_post_trans; [by rewrite length_insert|lia|].
    intros Hle. apply Forall_insert; [done|lia]. }
  case_decide as Hout.
  { apply res_runs_Ok, Hpost, search_post_refl. }
  apply res_runs_pure.
  { unfold owns_unvisited_pred. destruct fam as [g|g]; [|done]. cbn [with_fam mbind res_bind].
    repeat case_decide; try done. apply pred_unvisited_fuel. }
  intros c Hc.
  eapply (res_runs_bind _ _ (λ r, match r with
                                   | inl ret => search_post iter visited ret
                                   | inr p =>
                                       search_post iter (<[i:=iter]> visited) (p.1, p.2, 0)
                                   end)).
  - destruct c; [|apply res_runs_Ok, search_post_refl]. unfold reroot_pred.
    assert (pred_unvisited iter fam (<[i:=iter]> visited) v = Ok true) as Hpu.
    { unfold owns_unvisited_pred in Hc. destruct fam as [g|g]; [|done].
      cbn [with_fam mbind res_bind] in Hc. by repeat case_decide. }
    apply pred_unvisited_true in Hpu as (p & y & Hp & Hy & Hlt').
    rewrite Hp. cbn [mbind res_bind].
    eapply res_runs_bind; [eapply Hrec; [done|done|lia]|].
    intros [[fam' visited'] status] _ Hret.
    destruct (py_truth status); [|by apply res_runs_Ok].
    apply Hpost in Hret. apply res_runs_pure.
    { destruct fam' as [g|g]; [|done]. cbn [with_fam]. unfold dg_predecessors.
      case_decide; [|done]. cbn [mbind res_bind].
      destruct (_.*1) as [|q qs]; [done|]. cbn [py_next mbind res_bind].
      unfold dg_remove_edge. by case_decide. }
    intros g _. by apply res_runs_Ok.
  - intros [ret|[fam' visited']] _ Hr; [by apply res_runs_Ok|].
    destruct Hr as (Hlen & Hst & Hle). cbn [fst snd] in *.
    apply res_runs_pure.
    { unfold graph_neighbors. by destruct (graph_adj _ _). }
    intros ws _. eapply res_runs_mono; [apply scan_neighbors_runs; lia|].
    intros ret Hret. by apply Hpost, (search_post_trans _ _ visited').
Qed.
End AugmentedSearchFuel.

Lemma _augmented_search_runs fuel state fam iter visited v :
  (stale iter visited < fuel)%nat → (∀ x, np_get visited v = Ok x → x < iter) →
  res_runs (_augmented_search fuel state fam iter visited v) (search_post iter visited).
Proof.
  revert fam visited v. induction fuel as [|fuel IH]; intros fam visited v Hn Hguard; [lia|].
  cbn [_augmented_search]. apply (search_body_runs state iter fuel); [|done..].
  intros fam' visited' u x Hx Hlt Hst. apply IH; [done|]. intros y Hy. congruence.
Qed.

Lemma np_get_Forall (Q : Z → Prop) a v x : Forall Q a → np_get a v = Ok x → Q x.
Proof.
  intros Ha (i & _ & Hx)%np_get_inv.
  by eapply (proj1 (Forall_forall _ _) Ha), list_elem_of_lookup_2.
Qed.

Lemma path_cover_loop_runs fuel state ins fam visited iter :
  (length visited < fuel)%nat → Forall (λ x, x ≤ iter) visited →
  path_cover_loop fuel state ins fam visited iter ≠ OutOfFuel.
Proof.
  revert fam visited iter.
  induction ins as [|i ins IH]; intros fam visited iter Hn Hle; cbn [path_cover_loop]; [done|].
  pose proof (stale_length (iter + 1) visited) as Hst.
  destruct (_augmented_search_runs fuel state fam (iter + 1) visited i) as [Hrun Hpost].
  { lia. }
  { intros x Hx. apply (np_get_Forall _ _ _ _ Hle) in Hx. cbn in Hx. lia. }
  destruct (_augmented_search _ _ _ _ _ _) as [[[fam' visited'] status]| |]; [|done..].
  cbn [mbind res_bind]. destruct (negb _); [done|].
  destruct (Hpost _ eq_refl) as (Hlen & _ & Hle'). cbn [fst snd] in *.
  apply IH; [lia|]. apply Hle'. eapply Forall_impl; [done|]. cbn. lia.
Qed.

(** X6. The recursion of the augmenting search is never deeper than
    [|V| + 1] calls: every nested call stamps a cell of [visited] that did
    not carry the stamp of the attempt. With more than [|V|] units of fuel
    [_build_path_cover] does not run out of fuel, and any larger amount
    gives the same outcome. This holds for every state, also when a label
    is no index of [visited] (the call then raises). *)
Theorem build_path_cover_terminates fuel fuel' state :
  (number_of_nodes state < fuel)%nat → (fuel ≤ fuel')%nat →
  _build_path_cover fuel state ≠ OutOfFuel
  ∧ _build_path_cover fuel' state = _build_path_cover fuel state.
Proof.
  intros Hfuel Hle.
  assert (_build_path_cover fuel state ≠ OutOfFuel) as Hrun.
  { unfold _build_path_cover.
    pose proof (path_cover_loop_runs fuel state (input_nodes state) (FamRef dg_empty)
                  (np_zeros (number_of_nodes state)) 0) as Hloop.
    destruct (path_cover_loop _ _ _ _ _ _) as [[ret|[fam visited]]| |]; [done| |done|].
    - cbn [mbind res_bind]. destruct fam as [g|g]; [|done].
      cbn [with_fam mbind res_bind]. by case_decide.
    - destruct Hloop; [|by apply Forall_replicate|done].
      unfold np_zeros. by rewrite length_replicate. }
  split; [done|].
  destruct (_build_path_cover_mono fuel fuel' state Hle) as [?|?]; done.
Qed.

Lemma build_path_cover_terminates_witness :
  _build_path_cover 6 path_state ≠ OutOfFuel
  ∧ _build_path_cover 9 path_state = _build_path_cover 6 path_state.
Proof.
  apply (build_path_cover_terminates 6 9 path_state);
    [unfold number_of_nodes; simpl; lia|lia].
Defined.

(** ** The traversal terminates *)

Lemma zeros_frame s s' :
  length s' = length s → status_frame s s' → (zeros s' ≤ zeros s)%nat.
Proof.
  revert s'. induction s as [|x s IH]; intros [|y s'] Hlen Hfr; simpl in *; try done.
  assert (zeros s' ≤ zeros s)%nat as Hle.
  { apply IH; [lia|]. intros j z Hj Hz. by apply (Hfr (S j)). }
  destruct (decide (x = 0)) as [->|Hx].
  - case_decide; lia.
  - specialize (Hfr 0%nat x eq_refl Hx). injection Hfr as ->.
    rewrite decide_False by done. lia.
Qed.

Lemma zeros_pos status i : status !! i = Some 0 → (0 < zeros status)%nat.
Proof.
  intros Hi. pose proof (zeros_insert_lt status i 1 Hi ltac:(done)). lia.
Qed.

Lemma dict_get_fuel {A} (d : gmap Z A) k : dict_get d k ≠ OutOfFuel.
Proof. unfold dict_get. by destruct (d !! k). Qed.

Lemma np_get2_fuel a r v : np_get2 a r v ≠ OutOfFuel.
Proof. unfold np_get2. destruct (a !! r); [apply np_get_fuel|done]. Qed.

Lemma np_set2_fuel a r v x : np_set2 a r v x ≠ OutOfFuel.
Proof.
  unfold np_set2. destruct (a !! r) as [row|]; [|done].
  pose proof (np_set_fuel row v x). by destruct (np_set row v x).
Qed.

Lemma tighten_fuel state v w ins sup : tighten state v w ins sup ≠ OutOfFuel.
Proof.
  revert sup. induction ins as [|i ins IH]; intros sup; [done|]. cbn [tighten].
  pose proof (dict_get_fuel (vertex2index (input_nodes state)) i).
  destruct (dict_get _ i) as [r| |]; [|done..]. cbn [mbind res_bind].
  pose proof (np_get2_fuel sup r v). destruct (np_get2 sup r v) as [a| |]; [|done..].
  cbn [mbind res_bind].
  pose proof (np_get2_fuel sup r w). destruct (np_get2 sup r w) as [b| |]; [|done..].
  cbn [mbind res_bind]. case_decide; [|apply IH].
  pose proof (np_set2_fuel sup r v b). destruct (np_set2 sup r v b); [|done..].
  apply IH.
Qed.

Section TraverseFuel.
Context (state : GraphStateCircuit) (f : gmap Z Z) (n : nat).
Context (rec : list (list Z) → list Z → Z → res sup_status).
Hypothesis Hrec : ∀ sup status w,
  np_get status w = Ok 0 → (zeros status ≤ n)%nat →
  res_runs (rec sup status w) (frame_post status).

Lemma walk_neighbors_runs v ws sup status :
  (zeros status ≤ n)%nat →
  res_runs (walk_neighbors state f rec v ws sup status)
    (λ r, ∃ ret, (r = inl ret ∨ r = inr ret) ∧ frame_post status ret).
Proof.
  revert sup status. induction ws as [|w ws IH]; intros sup status Hn.
  { apply res_runs_Ok. exists (sup, status). split; [by right|].
    split; [done|apply status_frame_refl]. }
  cbn [walk_neighbors]. apply res_runs_pure; [apply dict_get_fuel|]. intros fv _.
  case_decide; [|by apply IH].
  apply res_runs_pure; [apply np_get_fuel|]. intros s Hs.
  eapply (res_runs_bind _ _ (frame_post status)).
  { case_decide as Hs0; [subst s; by apply Hrec|].
    apply res_runs_Ok. split; [done|apply status_frame_refl]. }
  intros [sup1 status1] _ [Hlen1 Hfr1]. cbn [fst snd] in *.
  apply res_runs_pure; [apply np_get_fuel|]. intros s1 _. case_decide.
  { apply res_runs_Ok. exists (sup1, status1). split; [by left|done]. }
  apply res_runs_pure; [apply tighten_fuel|]. intros sup2 _.
  eapply res_runs_mono.
  { apply IH. pose proof (zeros_frame _ _ Hlen1 Hfr1). lia. }
  intros r (ret & Hcase & Hlen & Hfr). exists ret. split; [done|].
  split; [congruence|by eapply status_frame_trans].
Qed.

Lemma traverse_body_runs sup status v :
  np_get status v = Ok 0 → (zeros status ≤ S n)%nat →
  res_runs (traverse_body state f rec sup status v) (frame_post status).
Proof.
  intros H0 Hn. unfold traverse_body.
  apply res_runs_pure; [apply np_set_fuel|]. intros status1 Hset1.
  destruct (status_frame_mark _ _ _ _ H0 Hset1) as (Hlen1 & Hfr1 & Hv1).
  assert (zeros status1 < zeros status)%nat as Hlt.
  { apply np_get_inv in H0 as (i & Hi & H0). apply np_set_inv in Hset1 as (i' & Hi' & ->).
    assert (i' = i) as -> by congruence. by apply zeros_insert_lt. }
  apply res_runs_pure.
  { unfold graph_neighbors. by destruct (graph_adj _ _). }
  intros ws _.
  eapply res_runs_bind; [apply walk_neighbors_runs; lia|].
  intros r _ (ret & Hcase & Hlen & Hfr). destruct Hcase as [->| ->].
  - apply res_runs_Ok. split; [congruence|by eapply status_frame_trans].
  - destruct ret as [sup' status']. cbn [fst snd] in *.
    apply res_runs_pure; [apply np_set_fuel|].
    intros status2 (i & Hi & ->)%np_set_inv. apply res_runs_Ok.
    split; cbn [snd]; [rewrite length_insert; congruence|].
    intros j y Hj Hy. rewrite list_lookup_insert_ne; [apply Hfr; [by apply Hfr1|done]|].
    intros <-. apply np_get_inv in H0 as (i' & Hi' & H0).
    rewrite Hlen, Hlen1 in Hi. congruence.
Qed.
End TraverseFuel.

Lemma _traverse_infl_walk_runs fuel state f sup status v :
  np_get status v = Ok 0 → (zeros status ≤ fuel)%nat →
  res_runs (_traverse_infl_walk fuel state f sup status v) (frame_post status).
Proof.
  revert sup status v. induction fuel as [|fuel IH]; intros sup status v H0 Hn.
  - apply np_get_inv in H0 as (i & _ & H0). apply zeros_pos in H0. lia.
  - cbn [_traverse_infl_walk]. apply (traverse_body_runs state f fuel); [|done..].
    intros. by apply IH.
Qed.

Lemma suprema_loop_runs fuel state f vs sup status :
  (length status ≤ fuel)%nat → suprema_loop fuel state f vs sup status ≠ OutOfFuel.
Proof.
  revert sup status. induction vs as [|v vs IH]; intros sup status Hn; cbn [suprema_loop];
    [done|].
  pose proof (np_get_fuel status v). destruct (np_get status v) as [s| |] eqn:Hs; [|done..].
  cbn [mbind res_bind].
  assert (res_runs (if decide (s = 0)
                    then _traverse_infl_walk fuel state f sup status v
                    else Ok (sup, status)) (frame_post status)) as [Hrun Hpost].
  { case_decide; [subst s|by apply res_runs_Ok; split; [|apply status_frame_refl]].
    apply _traverse_infl_walk_runs; [done|]. pose proof (zeros_length status). lia. }
  destruct (if decide (s = 0) then _ else _) as [[sup' status']| |]; [|done..].
  cbn [mbind res_bind]. destruct (Hpost _ eq_refl) as [Hlen _]. cbn [snd] in Hlen.
  pose proof (np_get_fuel status' v). destruct (np_get status' v) as [s'| |]; [|done..].
  cbn [mbind res_bind]. case_decide; [done|]. apply IH. lia.
Qed.

Lemma init_inputs_fuel state P L v ins sup : init_inputs state P L v ins sup ≠ OutOfFuel.
Proof.
  revert sup. induction ins as [|i ins IH]; intros sup; [done|]. cbn [init_inputs].
  pose proof (np_get_fuel P v). destruct (np_get P v) as [pv| |]; [|done..].
  cbn [mbind res_bind].
  pose proof (dict_get_fuel (vertex2index (input_nodes state)) i).
  pose proof (np_get_fuel L v).
  assert (∀ r x, np_set2 sup r v x ≠ OutOfFuel) as Hset by (intros; apply np_set2_fuel).
  case_decide.
  - destruct (np_get L v) as [lv| |]; [|done..]. cbn [mbind res_bind].
    destruct (dict_get _ i) as [r| |]; [|done..]. cbn [mbind res_bind].
    specialize (Hset r lv). destruct (np_set2 sup r v lv); [|done..]. apply IH.
  - destruct (dict_get _ i) as [r| |]; [|done..]. cbn [mbind res_bind].
    specialize (Hset r (Z.of_nat (number_of_nodes state))).
    destruct (np_set2 sup r v _); [|done..]. apply IH.
Qed.

Lemma init_nodes_runs state P L vs sup status :
  res_runs (init_nodes state P L vs sup status) (λ ret, length ret.2 = length status).
Proof.
  revert sup status. induction vs as [|v vs IH]; intros sup status; cbn [init_nodes].
  { by apply res_runs_Ok. }
  apply res_runs_pure; [apply init_inputs_fuel|]. intros sup1 _.
  apply res_runs_pure; [apply np_set_fuel|]. intros status1 [_ Hlen]%np_set_range.
  eapply res_runs_mono; [apply IH|]. intros ret. cbn. congruence.
Qed.

(** X7. The recursion of [_traverse_infl_walk] is never deeper than [|V|]
    calls: every call marks a cell of [status] that was unvisited. With
    [|V|] units of fuel [_compute_suprema] does not run out of fuel, and any
    larger amount gives the same outcome, for every state, successor dict
    and arrays. *)
Theorem compute_suprema_terminates set_iter fuel fuel' state f P L :
  (number_of_nodes state ≤ fuel)%nat → (fuel ≤ fuel')%nat →
  _compute_suprema set_iter fuel state f P L ≠ OutOfFuel
  ∧ _compute_suprema set_iter fuel' state f P L = _compute_suprema set_iter fuel state f P L.
Proof.
  intros Hfuel Hle.
  assert (_compute_suprema set_iter fuel state f P L ≠ OutOfFuel) as Hrun.
  { unfold _compute_suprema, _init_status.
    destruct (init_nodes_runs state P L (graph_nodes (graph state))
                (np_zeros2 (length (input_nodes state)) (number_of_nodes state))
                (np_zeros (number_of_nodes state))) as [Hrun Hpost].
    destruct (init_nodes _ _ _ _ _ _) as [[sup status]| |]; [|done..].
    cbn [mbind res_bind]. apply suprema_loop_runs.
    specialize (Hpost _ eq_refl). cbn [snd] in Hpost. rewrite Hpost.
    unfold np_zeros. by rewrite length_replicate. }
  split; [done|].
  destruct (_compute_suprema_mono set_iter fuel fuel' state f P L Hle) as [?|?]; done.
Qed.

Lemma compute_suprema_terminates_witness :
  _compute_suprema ascending 4 cycle_state cycle_f cycle_P cycle_L ≠ OutOfFuel
  ∧ _compute_suprema ascending 7 cycle_state cycle_f cycle_P cycle_L
    = _compute_suprema ascending 4 cycle_state cycle_f cycle_P cycle_L.
Proof.
  apply (compute_suprema_terminates ascending 4 7 cycle_state cycle_f cycle_P cycle_L);
    [unfold number_of_nodes; simpl; lia|lia].
Defined.

(** ** What the validator decides *)

Lemma iter_contains_true i ns rest :
  iter_contains i ns = (true, rest) ↔ ∃ pre, ns = pre ++ i :: rest ∧ i ∉ pre.
Proof.
  induction ns as [|y ns IH]; cbn [iter_contains].
  - split; [done|]. by intros ([|??] & ? & _).
  - case_decide as Hy.
    + subst y. split.
      * intros [= <-]. exists []. split; [done|]. by intros ?%elem_of_nil.
      * intros ([|z pre] & Heq & Hpre); [by injection Heq as <-|].
        injection Heq as <- _. destruct Hpre. by left.
    + rewrite IH. split.
      * intros (pre & -> & Hpre). exists (y :: pre). split; [done|].
        by intros [?|?]%elem_of_cons.
      * intros ([|z pre] & Heq & Hpre); [by injection Heq as ->|].
        injection Heq as <- ->. exists pre. split; [done|].
        intros ?. apply Hpre. by right.
Qed.

Lemma math_prod_outcome bs : math_prod bs = 0 ∨ math_prod bs = 1.
Proof.
  induction bs as [|b bs IH]; [by right|].
  cbn [math_prod foldr]. fold (math_prod bs). destruct b; cbn [Z.b2z]; lia.
Qed.

Lemma order_before_one top_order i ks bs :
  order_before top_order i ks = Ok bs → math_prod bs = 1 →
  ∀ k, k ∈ ks →
    ∃ oi ok, list_index i top_order = Ok oi ∧ list_index k top_order = Ok ok ∧ oi < ok.
Proof.
  revert bs. induction ks as [|k ks IH]; intros bs; [by intros _ _ ? ?%elem_of_nil|].
  cbn [order_before].
  intros (oi & Hoi & (ok & Hok & (bs' & Hbs' & [= <-])%res_bind_Ok)%res_bind_Ok)%res_bind_Ok.
  cbn [math_prod foldr]. fold (math_prod bs'). intros Hprod x [->|Hx]%elem_of_cons.
  - exists oi, ok. split_and!; [done..|]. destruct (bool_decide (oi < ok)) eqn:E.
    + by apply bool_decide_eq_true in E.
    + cbn [Z.b2z] in Hprod. lia.
  - apply (IH bs'); [done| |done].
    destruct (math_prod_outcome bs') as [H0|H1]; [|done]. rewrite H0 in Hprod. lia.
Qed.

Section Validator.
Context (set_iter : gset Z → list Z).
Hypothesis Hiter : set_iteration set_iter.

Lemma check_loop_factors state flow top_order vs conds r :
  check_loop set_iter state flow top_order vs conds = Ok r →
  ∃ p, r = conds * p ∧ (p = 0 ∨ p = 1)
       ∧ (p = 1 → ∀ v, v ∈ vs → checked_at state flow top_order v).
Proof.
  revert conds. induction vs as [|i vs IH]; intros conds; cbn [check_loop].
  { intros [= <-]. exists 1. split_and!; [lia|by right|]. by intros _ v ?%elem_of_nil. }
  intros (fi & Hfi & (nfi & Hnfi & H)%res_bind_Ok)%res_bind_Ok.
  destruct (iter_contains i nfi) as [c1 rest] eqn:Hc1.
  apply res_bind_Ok in H as (oi & Hoi & (fi' & Hfi' & (ofi & Hofi & (bs & Hbs & H)%res_bind_Ok)%res_bind_Ok)%res_bind_Ok).
  assert (fi' = fi) as -> by congruence.
  apply IH in H as (p & -> & Hp & Hall).
  destruct (math_prod_outcome bs) as [Hb|Hb].
  { exists 0. split_and!; [rewrite Hb; lia|by left|lia]. }
  destruct c1; cycle 1.
  { exists 0. split_and!; [cbn [Z.b2z]; lia|by left|lia]. }
  destruct (bool_decide (oi < ofi)) eqn:Hc2; cycle 1.
  { exists 0. split_and!; [cbn [Z.b2z]; lia|by left|lia]. }
  exists p. split_and!; [rewrite Hb; cbn [Z.b2z]; lia|done|].
  intros Hp1 v [->|Hv]%elem_of_cons; [|by apply Hall].
  apply iter_contains_true in Hc1 as (pre & -> & Hpre).
  apply bool_decide_eq_true in Hc2.
  exists fi, pre, rest, oi, ofi. split_and!; try done.
  intros k Hk Hne.
  destruct (order_before_one _ _ _ _ Hbs Hb k) as (oi' & ok & Hoi' & Hok & Hlt).
  { rewrite (Hiter _), elem_of_elements, elem_of_difference, elem_of_list_to_set,
      elem_of_singleton. done. }
  exists ok. split; [done|]. congruence.
Qed.

Lemma check_loop_checked state flow top_order vs :
  (∀ v, v ∈ vs → checked_at state flow top_order v) →
  check_loop set_iter state flow top_order vs 1 = Ok 1.
Proof.
  induction vs as [|i vs IH]; intros H; [done|]. cbn [check_loop].
  destruct (H i) as (fv & pre & rest & ov & ofv & -> & Hns & Hpre & Hov & Hofv & Hlt & Hc);
    [by left|].
  cbn [mbind res_bind]. rewrite Hns. cbn [mbind res_bind].
  rewrite (proj2 (iter_contains_true i (pre ++ i :: rest) rest)) by eauto.
  rewrite Hov. cbn [mbind res_bind]. rewrite Hofv. cbn [mbind res_bind].
  destruct (order_before_all top_order i ov
              (set_iter (list_to_set rest ∖ {[i]}))) as (bs & -> & Hbs); [done| |].
  { intros k. rewrite (Hiter _), elem_of_elements, elem_of_difference,
      elem_of_list_to_set, elem_of_singleton.
    intros [Hk Hne]. by apply Hc. }
  cbn [mbind res_bind]. rewrite Hbs, bool_decide_true by done. cbn [Z.b2z].
  apply IH. intros v Hv. apply H. by right.
Qed.
End Validator.

(** X8. What [_check_if_flow] decides. When it returns, it returns 0 or 1,
    and it returns 1 exactly when every vertex [v] of the output complement
    passes the three tests of lines 213-216 as the code performs them: [v]
    is listed among the neighbours of [flow(v)], [v] comes before [flow(v)]
    in [top_order], and [v] comes before every neighbour of [flow(v)] that
    is listed after [v] (the neighbours listed before [v] are not
    compared). *)
Theorem check_if_flow_accepts set_iter state flow top_order c :
  set_iteration set_iter →
  _check_if_flow set_iter state flow top_order = Ok c →
  (c = 0 ∨ c = 1)
  ∧ (c = 1 ↔ ∀ v, v ∈ outputc state → checked_at state flow top_order v).
Proof.
  intros Hiter Hc. unfold _check_if_flow in Hc.
  destruct (check_loop_factors set_iter Hiter _ _ _ _ _ _ Hc) as (p & -> & Hp & Hall).
  split; [lia|]. split.
  - intros Hp1. apply Hall. lia.
  - intros H. apply (check_loop_checked set_iter Hiter) in H. congruence.
Qed.

Lemma check_if_flow_accepts_witness :
  (1 = 0 ∨ 1 = 1)
  ∧ (1 = 1 ↔ ∀ v, v ∈ outputc triangle_state →
       checked_at triangle_state (_flow_from_array triangle_state triangle_f) [0; 1; 2] v).
Proof.
  apply (check_if_flow_accepts ascending triangle_state
           (_flow_from_array triangle_state triangle_f) [0; 1; 2] 1);
    [apply ascending_set_iteration|vm_compute; reflexivity].
Defined.

(** X9. The outcome of [_check_if_flow], a value or an exception, does not
    depend on the order in which Python iterates the set of line 216. *)
Theorem check_if_flow_set_order set_iter1 set_iter2 state flow top_order :
  set_iteration set_iter1 → set_iteration set_iter2 →
  _check_if_flow set_iter1 state flow top_order
  = _check_if_flow set_iter2 state flow top_order.
Proof.
  intros H1 H2. by rewrite (_check_if_flow_set_iter set_iter1), (_check_if_flow_set_iter set_iter2).
Qed.

Lemma check_if_flow_set_order_witness :
  _check_if_flow ascending triangle_state (_flow_from_array triangle_state triangle_f) [0; 1; 2]
  = _check_if_flow elements triangle_state (_flow_from_array triangle_state triangle_f) [0; 1; 2].
Proof.
  apply (check_if_flow_set_order ascending elements);
    [apply ascending_set_iteration|intros X; reflexivity].
Defined.

Lemma path_flow_conditions :
  flow_conditions path_state (_flow_from_array path_state path_f) [0; 1; 2; 3; 4].
Proof.
  intros v Hv. vm_compute in Hv.
  repeat (apply elem_of_cons in Hv as [->|Hv]); [..|by apply elem_of_nil in Hv].
  - exists 1, [0; 2], 0, 1. split_and!; try (vm_compute; reflexivity); try by_compute; try lia.
    intros k Hk Hne. repeat (apply elem_of_cons in Hk as [->|Hk]); try done.
    + exists 2. split; [vm_compute; reflexivity|lia].
    + by apply elem_of_nil in Hk.
  - exists 2, [1; 3], 1, 2. split_and!; try (vm_compute; reflexivity); try by_compute; try lia.
    intros k Hk Hne. repeat (apply elem_of_cons in Hk as [->|Hk]); try done.
    + exists 3. split; [vm_compute; reflexivity|lia].
    + by apply elem_of_nil in Hk.
  - exists 3, [2; 4], 2, 3. split_and!; try (vm_compute; reflexivity); try by_compute; try lia.
    intros k Hk Hne. repeat (apply elem_of_cons in Hk as [->|Hk]); try done.
    + exists 4. split; [vm_compute; reflexivity|lia].
    + by apply elem_of_nil in Hk.
  - exists 4, [3], 3, 4. split_and!; try (vm_compute; reflexivity); try by_compute; try lia.
    intros k Hk Hne. repeat (apply elem_of_cons in Hk as [->|Hk]); try done.
    by apply elem_of_nil in Hk.
Qed.

Lemma check_if_flow_complete_witness :
  _check_if_flow ascending path_state (_flow_from_array path_state path_f) [0; 1; 2; 3; 4]
  = Ok 1.
Proof.
  apply (check_if_flow_complete ascending path_state);
    [apply ascending_set_iteration|apply path_flow_conditions].
Defined.

(** ** What [find_flow] raises *)

Lemma raises_only_bind {A B} E (m : res A) (k : A → res B) :
  raises_only E m → (∀ a, m = Ok a → raises_only E (k a)) → raises_only E (m ≫= k).
Proof.
  unfold raises_only. intros Hm Hk e He.
  destruct m as [a|e'|]; simpl in He; [exact (Hk a eq_refl e He)| |done].
  injection He as <-. by apply Hm.
Qed.

Lemma raises_only_Ok {A} E (a : A) : raises_only E (Ok a).
Proof. done. Qed.

Lemma raises_only_Raise {A} (E : exn → Prop) e : E e → raises_only E (Raise e : res A).
Proof. by intros He e' [= <-]. Qed.

Lemma raises_only_OutOfFuel {A} E : raises_only E (OutOfFuel : res A).
Proof. done. Qed.

Lemma raises_only_impl {A} (E E' : exn → Prop) (r : res A) :
  raises_only E r → (∀ e, E e → E' e) → raises_only E' r.
Proof. intros Hr H e He. by apply H, Hr. Qed.

Ltac raises_step :=
  first
    [ apply raises_only_Ok
    | apply raises_only_OutOfFuel
    | apply raises_only_Raise; assumption
    | match goal with
      | H : context [raises_only] |- raises_only _ _ => apply H
      end
    | apply raises_only_bind; [|intros ? ?]
    | match goal with
      | |- raises_only _ (match ?x with _ => _ end) => destruct x eqn:?
      | |- raises_only _ (with_fam ?fam _) => destruct fam; cbn [with_fam]
      end ].

Ltac raises := repeat raises_step.

Section RaisesOnly.
Context (E : exn → Prop).
Hypothesis HIndex : E IndexError.
Hypothesis HOverflow : E OverflowError.
Hypothesis HKey : E KeyError.
Hypothesis HAttr : E AttributeError.
Hypothesis HStop : E StopIteration.
Hypothesis HNX : E NetworkXError.
Hypothesis HUnf : E NetworkXUnfeasible.
Hypothesis HRun : E RuntimeError.

Lemma np_index_raises len v : raises_only E (np_index len v).
Proof. unfold np_index. raises. Qed.

Lemma np_get_raises a v : raises_only E (np_get a v).
Proof. unfold np_get. pose proof np_index_raises. raises. Qed.

Lemma np_set_raises a v x : raises_only E (np_set a v x).
Proof. unfold np_set. pose proof np_index_raises. raises. Qed.

Lemma np_get2_raises a r v : raises_only E (np_get2 a r v).
Proof. unfold np_get2. pose proof np_get_raises. raises. Qed.

Lemma np_set2_raises a r v x : raises_only E (np_set2 a r v x).
Proof. unfold np_set2. pose proof np_set_raises. raises. Qed.

Lemma dict_get_raises {A} (d : gmap Z A) k : raises_only E (dict_get d k).
Proof. unfold dict_get. raises. Qed.

Lemma py_next_raises l : raises_only E (py_next l).
Proof. unfold py_next. raises. Qed.

Lemma graph_neighbors_raises g v : raises_only E (graph_neighbors g v).
Proof. unfold graph_neighbors. raises. Qed.

Lemma dg_predecessors_raises g v : raises_only E (dg_predecessors g v).
Proof. unfold dg_predecessors. raises. Qed.

Lemma dg_successors_raises g v : raises_only E (dg_successors g v).
Proof. unfold dg_successors. raises. Qed.

Lemma dg_remove_edge_raises g u v : raises_only E (dg_remove_edge g u v).
Proof. unfold dg_remove_edge. raises. Qed.

Lemma first_pred_raises fam v : raises_only E (first_pred fam v).
Proof.
  unfold first_pred. pose proof dg_predecessors_raises. pose proof py_next_raises. raises.
Qed.

Lemma pred_unvisited_raises iter fam visited v :
  raises_only E (pred_unvisited iter fam visited v).
Proof.
  unfold pred_unvisited. pose proof first_pred_raises. pose proof np_get_raises. raises.
Qed.

Section RaisesSearch.
Context (state : GraphStateCircuit) (iter : Z).
Context (rec : fam_var → list Z → Z → res search_ret).
Hypothesis Hrec : ∀ fam visited u, raises_only E (rec fam visited u).

Lemma scan_neighbors_raises v ws fam visited :
  raises_only E (scan_neighbors state iter rec v ws fam visited).
Proof.
  revert fam visited. induction ws as [|w ws IH]; intros fam visited; cbn [scan_neighbors].
  { raises. }
  pose proof np_get_raises. pose proof pred_unvisited_raises. pose proof first_pred_raises.
  pose proof dg_predecessors_raises. pose proof py_next_raises.
  pose proof dg_remove_edge_raises.
  raises.
Qed.

Lemma search_body_raises fam visited v :
  raises_only E (search_body state iter rec fam visited v).
Proof.
  unfold search_body, owns_unvisited_pred, reroot_pred.
  pose proof np_set_raises. pose proof pred_unvisited_raises. pose proof first_pred_raises.
  pose proof dg_predecessors_raises. pose proof py_next_raises.
  pose proof dg_remove_edge_raises. pose proof graph_neighbors_raises.
  pose proof scan_neighbors_raises.
  raises.
Qed.
End RaisesSearch.

Lemma _augmented_search_raises fuel state fam iter visited v :
  raises_only E (_augmented_search fuel state fam iter visited v).
Proof.
  revert fam visited v. induction fuel as [|fuel IH]; intros fam visited v; [done|].
  cbn [_augmented_search]. by apply search_body_raises.
Qed.

Lemma path_cover_loop_raises fuel state ins fam visited iter :
  raises_only E (path_cover_loop fuel state ins fam visited iter).
Proof.
  revert fam visited iter. induction ins as [|i ins IH]; intros fam visited iter;
    cbn [path_cover_loop]; [done|].
  pose proof _augmented_search_raises. raises.
Qed.

Lemma _build_path_cover_raises fuel state : raises_only E (_build_path_cover fuel state).
Proof. unfold _build_path_cover. pose proof path_cover_loop_raises. raises. Qed.

Lemma chain_walk_raises fuel state C i v l f P L :
  raises_only E (chain_walk fuel state C i v l f P L).
Proof.
  revert v l f P L. induction fuel as [|fuel IH]; intros v l f P L; [done|].
  cbn [chain_walk]. pose proof np_set_raises. pose proof py_next_raises.
  assert (∀ v, raises_only E (tau_successors C v)).
  { intros u. destruct C; cbn [tau_successors]; [by apply raises_only_Raise|].
    apply dg_successors_raises. }
  raises.
Qed.

Lemma chain_loop_raises fuel state C ins f P L :
  raises_only E (chain_loop fuel state C ins f P L).
Proof.
  revert f P L. induction ins as [|i ins IH]; intros f P L; cbn [chain_loop]; [done|].
  pose proof chain_walk_raises. raises.
Qed.

Lemma _get_chain_decomposition_raises fuel state C :
  raises_only E (_get_chain_decomposition fuel state C).
Proof. apply chain_loop_raises. Qed.

Lemma init_inputs_raises state P L v ins sup :
  raises_only E (init_inputs state P L v ins sup).
Proof.
  revert sup. induction ins as [|i ins IH]; intros sup; cbn [init_inputs]; [done|].
  pose proof np_get_raises. pose proof np_set2_raises.
  pose proof (@dict_get_raises nat). raises.
Qed.

Lemma init_nodes_raises state P L vs sup status :
  raises_only E (init_nodes state P L vs sup status).
Proof.
  revert sup status. induction vs as [|v vs IH]; intros sup status; cbn [init_nodes]; [done|].
  pose proof init_inputs_raises. pose proof np_set_raises. raises.
Qed.

Lemma tighten_raises state v w ins sup : raises_only E (tighten state v w ins sup).
Proof.
  revert sup. induction ins as [|i ins IH]; intros sup; cbn [tighten]; [done|].
  pose proof np_get2_raises. pose proof np_set2_raises.
  pose proof (@dict_get_raises nat). raises.
Qed.

Section RaisesTraverse.
Context (state : GraphStateCircuit) (f : gmap Z Z).
Context (rec : list (list Z) → list Z → Z → res sup_status).
Hypothesis Hrec : ∀ sup status w, raises_only E (rec sup status w).

Lemma walk_neighbors_raises v ws sup status :
  raises_only E (walk_neighbors state f rec v ws sup status).
Proof.
  revert sup status. induction ws as [|w ws IH]; intros sup status; cbn [walk_neighbors];
    [done|].
  pose proof np_get_raises. pose proof tighten_raises. pose proof (@dict_get_raises Z).
  raises.
Qed.

Lemma traverse_body_raises sup status v :
  raises_only E (traverse_body state f rec sup status v).
Proof.
  unfold traverse_body. pose proof np_set_raises. pose proof graph_neighbors_raises.
  pose proof walk_neighbors_raises. raises.
Qed.
End RaisesTraverse.

Lemma _traverse_infl_walk_raises fuel state f sup status v :
  raises_only E (_traverse_infl_walk fuel state f sup status v).
Proof.
  revert sup status v. induction fuel as [|fuel IH]; intros sup status v; [done|].
  cbn [_traverse_infl_walk]. by apply traverse_body_raises.
Qed.

Lemma suprema_loop_raises fuel state f vs sup status :
  raises_only E (suprema_loop fuel state f vs sup status).
Proof.
  revert sup status. induction vs as [|v vs IH]; intros sup status; cbn [suprema_loop];
    [done|].
  pose proof np_get_raises. pose proof _traverse_infl_walk_raises. raises.
Qed.

Lemma _compute_suprema_raises set_iter fuel state f P L :
  raises_only E (_compute_suprema set_iter fuel state f P L).
Proof.
  unfold _compute_suprema, _init_status.
  pose proof init_nodes_raises. pose proof suprema_loop_raises. raises.
Qed.

Lemma flow_raises state f v :
  v ∈ outputc state → raises_only E (_flow_from_array state f v).
Proof.
  intros Hv. unfold _flow_from_array. rewrite decide_True by done. apply dict_get_raises.
Qed.

Lemma flowgraph_loop_raises flow vs H :
  (∀ v, v ∈ vs → raises_only E (flow v)) → raises_only E (flowgraph_loop flow vs H).
Proof.
  revert H. induction vs as [|v vs IH]; intros H Hflow; cbn [flowgraph_loop]; [done|].
  apply raises_only_bind; [apply Hflow; by left|]. intros w _.
  apply IH. intros u Hu. apply Hflow. by right.
Qed.

Lemma topo_children_raises cs indegree_map zero_indegree :
  raises_only E (topo_children cs indegree_map zero_indegree).
Proof.
  revert indegree_map zero_indegree.
  induction cs as [|c cs IH]; intros indegree_map zero_indegree; cbn [topo_children]; [done|].
  raises.
Qed.

Lemma topo_generation_raises G gen indegree_map zero_indegree :
  raises_only E (topo_generation G gen indegree_map zero_indegree).
Proof.
  revert indegree_map zero_indegree.
  induction gen as [|x gen IH]; intros indegree_map zero_indegree; cbn [topo_generation];
    [done|].
  pose proof dg_successors_raises. pose proof topo_children_raises. raises.
Qed.

Lemma topo_loop_raises fuel G zero_indegree indegree_map yielded :
  raises_only E (topo_loop fuel G zero_indegree indegree_map yielded).
Proof.
  revert zero_indegree indegree_map yielded.
  induction fuel as [|fuel IH]; intros zero_indegree indegree_map yielded;
    destruct zero_indegree as [|z zs]; cbn [topo_loop].
  - raises.
  - done.
  - raises.
  - pose proof topo_generation_raises. raises.
Qed.

Lemma topological_sort_raises fuel G : raises_only E (topological_sort fuel G).
Proof. apply topo_loop_raises. Qed.
End RaisesOnly.

Lemma list_index_raises (E : exn → Prop) x l :
  E ValueError → raises_only E (list_index x l).
Proof.
  intros HV. induction l as [|y l IH]; cbn [list_index]; [by apply raises_only_Raise|].
  raises.
Qed.

Lemma order_before_raises (E : exn → Prop) top_order i ks :
  E ValueError → raises_only E (order_before top_order i ks).
Proof.
  intros HV. pose proof (list_index_raises E) as Hli.
  induction ks as [|k ks IH]; cbn [order_before]; [done|].
  apply raises_only_bind; [by apply Hli|intros ? ?].
  apply raises_only_bind; [by apply Hli|intros ? ?]. raises.
Qed.

Lemma check_loop_raises (E : exn → Prop) set_iter state f top_order vs conds :
  E ValueError → E KeyError → E NetworkXError →
  (∀ v, v ∈ vs → v ∈ outputc state) →
  raises_only E (check_loop set_iter state (_flow_from_array state f) top_order vs conds).
Proof.
  intros HV HK HN. revert conds. induction vs as [|i vs IH]; intros conds Hvs;
    cbn [check_loop]; [done|].
  assert (raises_only E (_flow_from_array state f i)) as Hflow
    by (apply flow_raises; [done|apply Hvs; by left]).
  apply raises_only_bind; [done|intros fi _].
  apply raises_only_bind; [by apply graph_neighbors_raises|intros nfi _].
  destruct (iter_contains i nfi) as [c1 rest].
  apply raises_only_bind; [by apply list_index_raises|intros oi _].
  apply raises_only_bind; [done|intros fi' _].
  apply raises_only_bind; [by apply list_index_raises|intros ofi _].
  apply raises_only_bind; [by apply order_before_raises|intros bs _].
  apply IH. intros v Hv. apply Hvs. by right.
Qed.

(** What [find_flow] raises, and when. *)
Lemma find_flow_raise_inv set_iter fuel state sanity_check e :
  find_flow set_iter fuel state sanity_check = Raise e →
  (e = ValueError ∧ length (input_nodes state) ≠ length (output_nodes state))
  ∨ (e = UserWarning ∧ length (input_nodes state) = length (output_nodes state)
     ∧ ∃ tau, _build_path_cover fuel state = Ok tau ∧ truthy tau = false)
  ∨ internal_error e
  ∨ (e = ValueError ∧ sanity_check = true).
Proof.
  assert (∀ e', e' ∈ [RuntimeError; IndexError; KeyError; AttributeError; StopIteration;
                      NetworkXError; NetworkXUnfeasible; OverflowError]
               → internal_error e') as Hint by done.
  assert (internal_error IndexError) as HI by (apply Hint; by_compute).
  assert (internal_error OverflowError) as HO by (apply Hint; by_compute).
  assert (internal_error KeyError) as HK by (apply Hint; by_compute).
  assert (internal_error AttributeError) as HA by (apply Hint; by_compute).
  assert (internal_error StopIteration) as HS by (apply Hint; by_compute).
  assert (internal_error NetworkXError) as HN by (apply Hint; by_compute).
  assert (internal_error NetworkXUnfeasible) as HU by (apply Hint; by_compute).
  assert (internal_error RuntimeError) as HR by (apply Hint; by_compute).
  unfold find_flow. destruct (decide _) as [Hne|Hlen].
  { intros [= <-]. by left. }
  apply dec_stable in Hlen.
  pose proof (_build_path_cover_raises internal_error HI HO HA HS HN fuel state) as Hpc.
  destruct (_build_path_cover fuel state) as [tau|e'|] eqn:Etau; cbn [mbind res_bind];
    [|intros [= <-]; right; right; left; by apply Hpc|done].
  destruct (truthy tau) eqn:Htau; cycle 1.
  { intros [= <-]. right. left. split_and!; [done..|]. by exists tau. }
  pose proof (_get_chain_decomposition_raises internal_error HI HO HA HS HN fuel state tau) as Hcd.
  destruct (_get_chain_decomposition fuel state tau) as [[[f P] L]|e'|];
    cbn [mbind res_bind]; [|intros [= <-]; right; right; left; by apply Hcd|done].
  pose proof (_compute_suprema_raises internal_error HI HO HK HN set_iter fuel state f P L) as Hsup.
  destruct (_compute_suprema set_iter fuel state f P L) as [[sup|]|e'|];
    cbn [mbind res_bind]; [|done|intros [= <-]; right; right; left; by apply Hsup|done].
  pose proof (flowgraph_loop_raises internal_error (_flow_from_array state f)
                (outputc state) dg_empty) as Hg.
  unfold _get_flowgraph.
  destruct (flowgraph_loop _ _ _) as [g|e'|]; cbn [mbind res_bind];
    [|intros [= <-]; right; right; left; apply Hg; [|done]|done].
  2: { intros v Hv. by apply flow_raises. }
  pose proof (topological_sort_raises internal_error HN HU HR fuel g) as Htop.
  destruct (topological_sort fuel g) as [top_order|e'|]; cbn [mbind res_bind];
    [|intros [= <-]; right; right; left; by apply Htop|done].
  destruct sanity_check; [|done].
  pose proof (check_loop_raises (λ e, e = ValueError ∨ internal_error e) set_iter state f
                top_order (outputc state) 1) as Hck.
  unfold _check_if_flow.
  destruct (check_loop _ _ _ _ _ _) as [c|e'|]; cbn [mbind res_bind].
  - destruct (negb _); [|done]. intros [= <-]. by right; right; left.
  - intros [= <-]. destruct (Hck (or_introl eq_refl) (or_intror HK) (or_intror HN)) with e'
      as [->|?]; [done|done|right; right; right; done|right; right; left; done].
  - done.
Qed.

(** X11. [find_flow] raises UserWarning in exactly one case: the numbers of
    input and output nodes agree and [_build_path_cover] has returned a
    false value. No other stage raises it: the closure [flow] is only
    called on vertices of the output complement. *)
Theorem find_flow_user_warning set_iter fuel state sanity_check :
  find_flow set_iter fuel state sanity_check = Raise UserWarning
  ↔ length (input_nodes state) = length (output_nodes state)
    ∧ ∃ tau, _build_path_cover fuel state = Ok tau ∧ truthy tau = false.
Proof.
  split.
  - intros [[? _]|[(_ & ? & ?)|[Hint|[? _]]]]%find_flow_raise_inv; try done.
    unfold internal_error in Hint.
    repeat (apply elem_of_cons in Hint as [?|Hint]); try done. by apply elem_of_nil in Hint.
  - intros (Hlen & tau & Hpc & Htau). by eapply find_flow_path_cover_fails.
Qed.

(** X12. Without the sanity check, [find_flow] raises ValueError exactly
    when the numbers of input and output nodes differ: no stage before the
    validator raises ValueError. *)
Theorem find_flow_value_error set_iter fuel state :
  find_flow set_iter fuel state false = Raise ValueError
  ↔ length (input_nodes state) ≠ length (output_nodes state).
Proof.
  split.
  - intros [[_ ?]|[(? & _)|[Hint|[_ ?]]]]%find_flow_raise_inv; try done.
    unfold internal_error in Hint.
    repeat (apply elem_of_cons in Hint as [?|Hint]); try done. by apply elem_of_nil in Hint.
  - intros Hne. unfold find_flow. by rewrite decide_True.
Qed.

(** ** The traversal on the successor dict of the chain decomposition *)

Lemma outputs_resolved_frame state s1 s2 :
  status_frame s1 s2 → outputs_resolved state s1 → outputs_resolved state s2.
Proof. intros Hfr H u Hu Ho. by apply Hfr; [apply H|]. Qed.

Section SupremaAcyclic.
Context (state : GraphStateCircuit) (f : gmap Z Z).
Hypothesis Hwf : wf_graph (graph state).
Hypothesis Hrange : labels_in_range state.
Hypothesis Hacyc : ∀ u w, fstep state f u w → ¬ rtc (fstep state f) w u.

Local Abbreviation cols := (number_of_nodes state).

Lemma np_get_node status v s :
  length status = cols → v ∈ graph_nodes (graph state) →
  np_get status v = Ok s → status !! Z.to_nat v = Some s.
Proof.
  intros Hlen Hv Hs. pose proof (node_in_range state Hrange v Hv) as Hr.
  destruct (np_get_in_range status v) as (x & Hx & Hl); [by rewrite Hlen|]. congruence.
Qed.

Lemma np_set_node status v x status' :
  length status = cols → v ∈ graph_nodes (graph state) →
  np_set status v x = Ok status' → status' = <[Z.to_nat v:=x]> status.
Proof.
  intros Hlen Hv Hs. pose proof (node_in_range state Hrange v Hv) as Hr.
  rewrite np_set_in_range in Hs by (by rewrite Hlen). congruence.
Qed.

Section AcyclicBody.
Context (rec : list (list Z) → list Z → Z → res sup_status).
Hypothesis Hrec : ∀ sup status w,
  w ∈ graph_nodes (graph state) → length status = cols →
  outputs_resolved state status → status !! Z.to_nat w = Some 0 →
  (∀ p, p ∈ graph_nodes (graph state) → status !! Z.to_nat p = Some 1 →
     ¬ rtc (fstep state f) w p) →
  res_post (rec sup status w) (resolved_post state status w).

Lemma walk_neighbors_acyclic v ns ws sup status :
  v ∈ graph_nodes (graph state) → v ∉ output_nodes state →
  graph_adj (graph state) v = Some ns → ws ⊆ ns →
  length status = cols → outputs_resolved state status →
  status !! Z.to_nat v = Some 1 →
  (∀ p, p ∈ graph_nodes (graph state) → p ≠ v → status !! Z.to_nat p = Some 1 →
     ¬ rtc (fstep state f) v p) →
  res_post (walk_neighbors state f rec v ws sup status)
    (λ r, ∃ ret, r = inr ret ∧ length ret.2 = length status ∧ status_frame status ret.2
                 ∧ ∀ p, p ∈ graph_nodes (graph state) →
                     ret.2 !! Z.to_nat p = Some 1 → status !! Z.to_nat p = Some 1).
Proof.
  intros Hv Hvo Hns. revert sup status.
  induction ws as [|w ws IH]; intros sup status Hws Hlen Hout Hv1 Hpend.
  { intros r [= <-]. exists (sup, status). split_and!; [done..|apply status_frame_refl|done]. }
  assert (ws ⊆ ns) as Hws' by (intros x Hx; apply Hws; by right).
  assert (w ∈ ns) as Hwin by (apply Hws; by left).
  assert (w ∈ graph_nodes (graph state)) as Hw by by eapply wf_graph_neighbor.
  cbn [walk_neighbors]. intros r (fv & Hfv & Hr)%res_bind_Ok. revert r Hr.
  case_decide as Hc; [|by apply IH]. destruct Hc as [-> Hne].
  assert (f !! v = Some fv) as Hf.
  { unfold dict_get in Hfv. by destruct (f !! v) as [?|]; [injection Hfv as ->|]. }
  intros r (s & Hs & Hr)%res_bind_Ok. revert r Hr.
  apply (np_get_node _ _ _ Hlen Hw) in Hs.
  assert (s ≠ 2 → fstep state f v fv) as Hstep.
  { intros Hs2. split_and!; [done..| |by exists ns].
    intros Ho. specialize (Hout fv Hw Ho). congruence. }
  eapply (res_post_bind _ _ (λ ret,
    length ret.2 = length status ∧ status_frame status ret.2
    ∧ (∀ p, p ∈ graph_nodes (graph state) →
         ret.2 !! Z.to_nat p = Some 1 → status !! Z.to_nat p = Some 1)
    ∧ ret.2 !! Z.to_nat fv ≠ Some 1)).
  { case_decide as Hs0.
    - subst s. intros [sup1 status1] Hret.
      apply Hrec in Hret as (Hlen1 & Hfr1 & Hres & Hnew); try done.
      + cbn [fst snd] in *. split_and!; [done..|congruence].
      + intros p Hp Hp1 Hrtc. destruct (decide (p = v)) as [->|Hpv].
        * by apply (Hacyc v fv); [apply Hstep|].
        * apply (Hpend p Hp Hpv Hp1). eapply rtc_l; [by apply Hstep|done].
    - intros ? [= <-]. cbn [fst snd]. split_and!; [done|apply status_frame_refl|done|].
      rewrite Hs. intros [= ->].
      apply (Hpend fv Hw Hne Hs). apply rtc_once, Hstep. done. }
  intros [sup1 status1] (Hlen1 & Hfr1 & Hnew1 & Hfv1). cbn [fst snd] in *.
  intros r (s1 & Hs1 & Hr)%res_bind_Ok. revert r Hr.
  apply (np_get_node status1) in Hs1; [|congruence|done].
  case_decide as Hs11; [congruence|].
  apply res_post_any; intros sup2 r Hr.
  apply IH in Hr as (ret & -> & Hlen2 & Hfr2 & Hnew2); try done.
  - exists ret. split_and!; [done|congruence|by eapply status_frame_trans|by auto].
  - congruence.
  - by eapply outputs_resolved_frame.
  - by apply Hfr1.
  - intros p Hp Hpv Hp1. apply (Hpend p Hp Hpv). by apply Hnew1.
Qed.

Lemma traverse_body_acyclic sup status v :
  v ∈ graph_nodes (graph state) → length status = cols →
  outputs_resolved state status → status !! Z.to_nat v = Some 0 →
  (∀ p, p ∈ graph_nodes (graph state) → status !! Z.to_nat p = Some 1 →
     ¬ rtc (fstep state f) v p) →
  res_post (traverse_body state f rec sup status v) (resolved_post state status v).
Proof.
  intros Hv Hlen Hout Hv0 Hpend. unfold traverse_body.
  assert (v ∉ output_nodes state) as Hvo.
  { intros Ho. specialize (Hout v Hv Ho). congruence. }
  pose proof (node_in_range state Hrange v Hv) as Hr.
  intros ret (status1 & Hset1 & Hret)%res_bind_Ok. revert ret Hret.
  apply (np_set_node _ _ _ _ Hlen Hv) in Hset1. subst status1.
  assert (∀ (l : list Z) p x, p ∈ graph_nodes (graph state) → p ≠ v →
            (<[Z.to_nat v:=x]> l) !! Z.to_nat p = l !! Z.to_nat p) as Hother.
  { intros l p x Hp Hpv. apply list_lookup_insert_ne. by apply (to_nat_ne state). }
  unfold graph_neighbors. destruct (graph_adj (graph state) v) as [ns|] eqn:Hns; [|done].
  cbn [mbind res_bind].
  eapply res_post_bind.
  { eapply (walk_neighbors_acyclic v ns ns); try done.
    - by rewrite length_insert.
    - intros u Hu Ho. rewrite Hother; [by apply Hout|done|]. by intros ->.
    - apply list_lookup_insert_eq. lia.
    - intros p Hp Hpv. rewrite Hother by done. by apply Hpend. }
  intros r (ret & -> & Hlen' & Hfr' & Hnew'). destruct ret as [sup' status'].
  cbn [fst snd] in *. rewrite length_insert in Hlen'.
  intros ret (status2 & Hset2 & [= <-])%res_bind_Ok.
  apply np_set_node in Hset2; [|congruence|done]. subst status2.
  split_and!; cbn [fst snd].
  - rewrite length_insert. congruence.
  - intros j x Hj Hx. assert (j ≠ Z.to_nat v) by (intros ->; congruence).
    rewrite list_lookup_insert_ne by done. apply Hfr'; [|done].
    by rewrite list_lookup_insert_ne.
  - apply list_lookup_insert_eq. lia.
  - intros p Hp Hp1. destruct (decide (p = v)) as [->|Hpv].
    + rewrite list_lookup_insert_eq in Hp1 by lia. done.
    + rewrite Hother in Hp1 by done. apply Hnew' in Hp1; [|done].
      by rewrite Hother in Hp1.
Qed.
End AcyclicBody.

Lemma _traverse_infl_walk_acyclic fuel sup status v :
  v ∈ graph_nodes (graph state) → length status = cols →
  outputs_resolved state status → status !! Z.to_nat v = Some 0 →
  (∀ p, p ∈ graph_nodes (graph state) → status !! Z.to_nat p = Some 1 →
     ¬ rtc (fstep state f) v p) →
  res_post (_traverse_infl_walk fuel state f sup status v) (resolved_post state status v).
Proof.
  revert sup status v. induction fuel as [|fuel IH]; intros sup status v; [done|].
  cbn [_traverse_infl_walk]. apply traverse_body_acyclic. intros. by apply IH.
Qed.

Lemma suprema_loop_acyclic fuel vs sup status :
  (∀ v, v ∈ vs → v ∈ graph_nodes (graph state)) →
  length status = cols → outputs_resolved state status →
  (∀ p, p ∈ graph_nodes (graph state) → status !! Z.to_nat p ≠ Some 1) →
  res_post (suprema_loop fuel state f vs sup status) (λ r, r ≠ None).
Proof.
  revert sup status. induction vs as [|v vs IH]; intros sup status Hvs Hlen Hout Hpend;
    cbn [suprema_loop].
  { by intros r [= <-]. }
  assert (v ∈ graph_nodes (graph state)) as Hv by (apply Hvs; by left).
  intros r (s & Hs & Hr)%res_bind_Ok. revert r Hr.
  apply (np_get_node _ _ _ Hlen Hv) in Hs.
  eapply (res_post_bind _ _ (λ ret,
    length ret.2 = cols ∧ outputs_resolved state ret.2
    ∧ (∀ p, p ∈ graph_nodes (graph state) → ret.2 !! Z.to_nat p ≠ Some 1))).
  { case_decide as Hs0.
    - subst s. intros [sup1 status1] Hret.
      apply _traverse_infl_walk_acyclic in Hret as (Hlen1 & Hfr1 & Hres & Hnew); try done.
      + cbn [fst snd] in *. split_and!; [congruence|by eapply outputs_resolved_frame|].
        intros p Hp Hp1. by apply (Hpend p Hp), Hnew.
      + intros p Hp Hp1. by destruct (Hpend p Hp).
    - by intros ? [= <-]. }
  intros [sup1 status1] (Hlen1 & Hout1 & Hpend1). cbn [fst snd] in *.
  intros r (s1 & Hs1 & Hr)%res_bind_Ok. revert r Hr.
  apply (np_get_node _ _ _ Hlen1 Hv) in Hs1.
  case_decide as Hs11; [subst s1; by destruct (Hpend1 v Hv)|].
  apply IH; try done. intros u Hu. apply Hvs. by right.
Qed.

Lemma _compute_suprema_acyclic set_iter fuel P L :
  set_iteration set_iter → length P = cols → length L = cols →
  res_post (_compute_suprema set_iter fuel state f P L) (λ r, r ≠ None).
Proof.
  intros Hiter HP HL. unfold _compute_suprema, _init_status.
  destruct (init_nodes_spec state Hrange P L (graph_nodes (graph state))
              (np_zeros2 (length (input_nodes state)) cols) (np_zeros cols))
    as ([sup status] & -> & Hs & Hl & Hst);
    [done|apply np_zeros2_shape|apply length_replicate|done..|].
  cbn [mbind res_bind fst snd] in *.
  apply suprema_loop_acyclic; [|done|..].
  - intros v. unfold output_complement_set.
    rewrite (Hiter _), elem_of_elements, elem_of_difference, !elem_of_list_to_set. tauto.
  - intros u Hu Ho. rewrite (Hst u Hu). by rewrite !decide_True.
  - intros p Hp. rewrite (Hst p Hp). rewrite decide_True by done. by case_decide.
Qed.
End SupremaAcyclic.

Lemma acc_no_cycle {A} (R : relation A) u w :
  Acc (flip R) u → R u w → rtc R w u → False.
Proof.
  intros Hacc. revert w. induction Hacc as [u _ IH]. intros w Huw Hwu.
  inversion Hwu as [|? w1 ? Hw1 Hrtc]; subst.
  - by apply (IH u Huw u Huw).
  - apply (IH w Huw w1 Hw1). by eapply rtc_r.
Qed.

Lemma chain_walk_touched fuel state C i v l f P L f' P' L' :
  chain_walk fuel state C i v l f P L = Ok (f', P', L') →
  length P' = length P ∧ length L' = length L ∧
  ∀ u, f' !! u = f !! u
       ∨ ∃ vs o, walk_to state C u vs o ∧ ∀ x, x ∈ vs → agrees C f' x.
Proof.
  revert v l f P L. induction fuel as [|fuel IH]; intros v l f P L; [done|].
  cbn [chain_walk]. case_decide as Hout.
  - intros (P1 & [_ HP]%np_set_range & (L1 & [_ HL]%np_set_range & [= <- <- <-])%res_bind_Ok)%res_bind_Ok.
    split_and!; [done..|]. intros u. by left.
  - intros (ss & Hss & (w & Hw & (P1 & [_ HP]%np_set_range & (L1 & [_ HL]%np_set_range & Hrec)%res_bind_Ok)%res_bind_Ok)%res_bind_Ok)%res_bind_Ok.
    pose proof (chain_walk_spec _ _ _ _ _ _ _ _ _ _ _ _ Hrec) as ((vs & o & Hwalk & Hvs) & Hagree & _).
    apply IH in Hrec as (HP' & HL' & Hrec). split_and!; [congruence..|].
    intros u. destruct (Hrec u) as [Hu|?]; [|by right].
    destruct (decide (u = v)) as [->|Hne].
    + right. exists (v :: vs), o. split; [by econstructor|].
      intros x [->|Hx]%elem_of_cons; [|by apply Hvs].
      apply Hagree. eapply agrees_insert; eauto.
    + left. by rewrite Hu, lookup_insert_ne.
Qed.

Lemma chain_loop_touched fuel state C ins f P L f' P' L' :
  chain_loop fuel state C ins f P L = Ok (f', P', L') →
  length P' = length P ∧ length L' = length L ∧
  ∀ u, f' !! u = f !! u
       ∨ ∃ vs o, walk_to state C u vs o ∧ ∀ x, x ∈ vs → agrees C f' x.
Proof.
  revert f P L. induction ins as [|i ins IH]; intros f P L; cbn [chain_loop].
  - intros [= <- <- <-]. split_and!; [done..|]. intros u. by left.
  - intros ([[f1 P1] L1] & Hwalk & Hloop)%res_bind_Ok.
    pose proof (chain_loop_spec _ _ _ _ _ _ _ _ _ _ Hloop) as (_ & Hagree & _).
    apply chain_walk_touched in Hwalk as (HP1 & HL1 & H1).
    apply IH in Hloop as (HP' & HL' & H'). split_and!; [congruence..|].
    intros u. destruct (H' u) as [Hu|?]; [|by right].
    destruct (H1 u) as [Hu1|(vs & o & Hwalk & Hvs)]; [left; congruence|].
    right. exists vs, o. split; [done|]. intros x Hx. by apply Hagree, Hvs.
Qed.

Lemma walk_to_acc state C f u vs o :
  walk_to state C u vs o → (∀ x, x ∈ vs → agrees C f x) →
  Acc (flip (fstep state f)) u.
Proof.
  induction 1 as [v Hv|v w ss vs o Hv Hss Hw Hwalk IH]; intros Hf.
  - constructor. by intros w (Hvo & _).
  - constructor. intros w' (_ & Hfv & _).
    destruct (Hf v) as (ss' & w'' & Hss' & Hw'' & Hfv'); [by left|].
    assert (w' = w) as -> by congruence.
    apply IH. intros x Hx. apply Hf. by right.
Qed.

Lemma _get_chain_decomposition_acc fuel state C f P L u :
  _get_chain_decomposition fuel state C = Ok (f, P, L) →
  Acc (flip (fstep state f)) u.
Proof.
  unfold _get_chain_decomposition. intros (_ & _ & Hf)%chain_loop_touched.
  assert (∀ x w, f !! x = gset_to_gmap 0 (output_complement_set state) !! x →
                 f !! x = Some w → w = 0) as Hzero.
  { intros x w ->. by intros [_ ?]%lookup_gset_to_gmap_Some. }
  assert (Acc (flip (fstep state f)) 0) as Hacc0.
  { destruct (Hf 0) as [H0|(vs & o & Hwalk & Hvs)]; [|by eapply walk_to_acc].
    constructor. intros w (_ & Hfw & Hne & _). by apply (Hzero 0 w H0) in Hfw. }
  destruct (Hf u) as [Hu|(vs & o & Hwalk & Hvs)]; [|by eapply walk_to_acc].
  constructor. intros w (_ & Hfw & _). by rewrite (Hzero u w Hu Hfw).
Qed.

Lemma find_flow_RetNone_inv set_iter fuel state sanity_check :
  find_flow set_iter fuel state sanity_check = Ok RetNone →
  ∃ C f P L,
    _build_path_cover fuel state = Ok C ∧
    _get_chain_decomposition fuel state C = Ok (f, P, L) ∧
    _compute_suprema set_iter fuel state f P L = Ok None.
Proof.
  unfold find_flow. destruct (decide _) as [|Hlen]; [done|].
  destruct (_build_path_cover fuel state) as [C| |] eqn:Hpc; [|done..].
  cbn [mbind res_bind]. destruct (truthy C) eqn:HC; [|done].
  destruct (_get_chain_decomposition fuel state C) as [[[f P] L]| |] eqn:Hcd; [|done..].
  cbn [mbind res_bind].
  destruct (_compute_suprema set_iter fuel state f P L) as [[sup|]| |] eqn:Hsup; [| |done..].
  - cbn [mbind res_bind].
    destruct (_get_flowgraph _ _) as [g| |]; [|done..]. cbn [mbind res_bind].
    destruct (topological_sort fuel g) as [o| |]; [|done..]. cbn [mbind res_bind].
    destruct sanity_check; [|done].
    destruct (_check_if_flow _ _ _ _); [|done..]. cbn [mbind res_bind].
    by destruct (negb _).
  - intros _. by exists C, f, P, L.
Qed.

Lemma _get_chain_decomposition_shape fuel state C f P L :
  _get_chain_decomposition fuel state C = Ok (f, P, L) →
  length P = number_of_nodes state ∧ length L = number_of_nodes state
  ∧ successor_total state f.
Proof.
  unfold _get_chain_decomposition. intros Hcd.
  pose proof (chain_loop_touched _ _ _ _ _ _ _ _ _ _ Hcd) as (HP & HL & _).
  apply chain_loop_spec in Hcd as (_ & _ & Hkeys).
  unfold np_zeros in HP, HL. rewrite length_replicate in HP, HL. split_and!; [done..|].
  apply Forall_forall. intros v Hv.
  destruct (decide (v ∈ output_nodes state)) as [|Hvo]; [by left|]. right.
  apply Hkeys. rewrite lookup_gset_to_gmap, option_guard_True; [by eexists|].
  unfold output_complement_set. rewrite elem_of_difference, !elem_of_list_to_set. done.
Qed.

(** X13. On a state whose labels are the indices 0..|V|-1, the successor
    dict that [_get_chain_decomposition] returns has no cycle that the
    traversal could follow: a walked vertex leads to the output that ended
    its walk, any other vertex keeps the value 0. [_compute_suprema] on the
    result of the decomposition therefore returns a table: it neither
    raises nor returns [None], whatever the order of iteration. *)
Theorem compute_suprema_after_decomposition set_iter fuel fuel' state C f P L :
  set_iteration set_iter → wf_graph (graph state) → labels_in_range state →
  _get_chain_decomposition fuel state C = Ok (f, P, L) →
  (number_of_nodes state ≤ fuel')%nat →
  ∃ sup, _compute_suprema set_iter fuel' state f P L = Ok (Some sup).
Proof.
  intros Hiter Hwf Hrange Hcd Hfuel.
  destruct (_get_chain_decomposition_shape _ _ _ _ _ _ Hcd) as (HP & HL & Htotal).
  destruct (_compute_suprema_spec state f [] Hwf Hrange Htotal (Forall_nil_2 _)
              set_iter fuel' P L) as (r & Hr & _); [done..|].
  destruct r as [sup|]; [by exists sup|].
  exfalso.
  assert (∀ u w, fstep state f u w → ¬ rtc (fstep state f) w u) as Hacyc.
  { intros u w Hstep Hrtc. apply (acc_no_cycle (fstep state f) u w); [|done..].
    by eapply _get_chain_decomposition_acc. }
  by apply (_compute_suprema_acyclic state f Hwf Hrange Hacyc set_iter fuel' P L
              Hiter HP HL None Hr).
Qed.

Lemma compute_suprema_after_decomposition_witness :
  ∃ sup, _compute_suprema ascending 5 path_state path_f [0; 0; 0; 0; 0] [0; 1; 2; 3; 4]
         = Ok (Some sup).
Proof.
  apply (compute_suprema_after_decomposition ascending 5 5 path_state (PyDiGraph path_cover));
    [apply ascending_set_iteration|by_compute|by_compute|vm_compute; reflexivity
    |unfold number_of_nodes; simpl; lia].
Defined.

(** X14. On a state whose labels are the indices 0..|V|-1, [find_flow]
    never reaches the end of its body: it does not return [None]. *)
Theorem find_flow_never_none set_iter fuel state sanity_check :
  set_iteration set_iter → wf_graph (graph state) → labels_in_range state →
  find_flow set_iter fuel state sanity_check ≠ Ok RetNone.
Proof.
  intros Hiter Hwf Hrange (C & f & P & L & _ & Hcd & Hsup)%find_flow_RetNone_inv.
  destruct (_get_chain_decomposition_shape _ _ _ _ _ _ Hcd) as (HP & HL & _).
  assert (∀ u w, fstep state f u w → ¬ rtc (fstep state f) w u) as Hacyc.
  { intros u w Hstep Hrtc. apply (acc_no_cycle (fstep state f) u w); [|done..].
    by eapply _get_chain_decomposition_acc. }
  by apply (_compute_suprema_acyclic state f Hwf Hrange Hacyc set_iter fuel P L
              Hiter HP HL None Hsup).
Qed.

Lemma find_flow_never_none_witness :
  find_flow ascending 5 path_state false ≠ Ok RetNone.
Proof.
  apply (find_flow_never_none ascending 5 path_state false);
    [apply ascending_set_iteration|by_compute|by_compute].
Defined.

(** ** Finding no flow (C2) *)



(** ** Marks of the traversal, the closure [flow] and the flow graph *)

Lemma np_set_get a v x a' : np_set a v x = Ok a' → np_get a' v = Ok x.
Proof.
  intros (i & Hi & ->)%np_set_inv. apply np_get_inv. exists i.
  rewrite length_insert. split; [done|]. apply list_lookup_insert_eq. by eapply np_index_lt.
Qed.

(** X15. A call of [_traverse_infl_walk] on an unvisited vertex [v] that
    returns keeps the length of [status], leaves every cell that was
    pending or resolved as it was, and leaves [v] pending or resolved;
    this holds for every state, also when labels share a cell. *)
Theorem traverse_infl_walk_marks fuel state f sup status v sup' status' :
  np_get status v = Ok 0 →
  _traverse_infl_walk fuel state f sup status v = Ok (sup', status') →
  length status' = length status
  ∧ (∀ u x, np_get status u = Ok x → x ≠ 0 → np_get status' u = Ok x)
  ∧ (np_get status' v = Ok 1 ∨ np_get status' v = Ok 2).
Proof.
  intros H0 Hrun.
  destruct (_traverse_infl_walk_frame _ _ _ _ _ _ H0 _ Hrun) as [Hlen Hfr]. cbn [snd] in *.
  split_and!; [done|intros u x Hu Hx; by eapply status_frame_get|].
  destruct fuel as [|fuel]; [done|]. cbn [_traverse_infl_walk] in Hrun.
  unfold traverse_body in Hrun.
  apply res_bind_Ok in Hrun as (status1 & Hset1 & Hrun).
  destruct (status_frame_mark _ _ _ _ H0 Hset1) as (Hlen1 & Hfr1 & Hv1).
  apply res_bind_Ok in Hrun as (ws & _ & Hrun).
  apply res_bind_Ok in Hrun as (r & Hwalk & Hrun).
  pose proof (walk_neighbors_frame state f _
                (λ sup status w H, _traverse_infl_walk_frame fuel state f sup status w H)
                _ _ _ _ _ Hwalk) as (ret & Hcase & Hlen2 & Hfr2).
  destruct Hcase as [->| ->].
  - injection Hrun as ->. left. cbn [snd] in *. by eapply status_frame_get.
  - destruct ret as [sup2 status2].
    apply res_bind_Ok in Hrun as (status3 & Hset3 & [= _ <-]). right.
    by eapply np_set_get.
Qed.

Lemma traverse_infl_walk_marks_witness :
  length [0; 2; 1; 1] = length [0; 2; 0; 0]
  ∧ (∀ u x, np_get [0; 2; 0; 0] u = Ok x → x ≠ 0 → np_get [0; 2; 1; 1] u = Ok x)
  ∧ (np_get [0; 2; 1; 1] 2 = Ok 1 ∨ np_get [0; 2; 1; 1] 2 = Ok 2).
Proof.
  apply (traverse_infl_walk_marks 5 cycle_state cycle_f [[0; 1; 4; 4]] [0; 2; 0; 0] 2
           [[0; 1; 4; 4]]); vm_compute; reflexivity.
Defined.

Lemma walk_to_head state C v vs o :
  walk_to state C v vs o → v ∉ output_nodes state → v ∈ vs.
Proof. destruct 1; [done|]. intros _. by left. Qed.

(** X16. The closure [flow] built from the successor dict of
    [_get_chain_decomposition]: on a vertex of the output complement it
    returns a value and never raises KeyError; the value is the first
    successor of the vertex in the cover, or the initial value 0 of line 77
    when no walk has passed through the vertex; on any other argument it
    raises UserWarning. *)
Theorem flow_from_decomposition fuel state C f P L v :
  _get_chain_decomposition fuel state C = Ok (f, P, L) →
  (v ∈ outputc state →
     ∃ w, _flow_from_array state f v = Ok w
          ∧ (w = 0 ∨ ∃ ss, tau_successors C v = Ok ss ∧ py_next ss = Ok w))
  ∧ (v ∉ outputc state → _flow_from_array state f v = Raise UserWarning).
Proof.
  intros Hcd. unfold _flow_from_array. split; intros Hv; [|by rewrite decide_False].
  rewrite decide_True by done. unfold _get_chain_decomposition in Hcd.
  apply chain_loop_touched in Hcd as (_ & _ & Hf).
  apply list_elem_of_filter in Hv as [Hvo Hv].
  destruct (Hf v) as [Hfv|(vs & o & Hwalk & Hvs)].
  - exists 0. split; [|by left]. unfold dict_get. rewrite Hfv.
    rewrite lookup_gset_to_gmap, option_guard_True; [done|].
    unfold output_complement_set. by rewrite elem_of_difference, !elem_of_list_to_set.
  - destruct (Hvs v) as (ss & w & Hss & Hw & Hfv); [by eapply walk_to_head|].
    exists w. split; [unfold dict_get; by rewrite Hfv|]. right. by exists ss.
Qed.

Lemma flow_from_decomposition_witness :
  (2 ∈ outputc path_state →
     ∃ w, _flow_from_array path_state path_f 2 = Ok w
          ∧ (w = 0 ∨ ∃ ss, tau_successors (PyDiGraph path_cover) 2 = Ok ss
                           ∧ py_next ss = Ok w))
  ∧ (2 ∉ outputc path_state → _flow_from_array path_state path_f 2 = Raise UserWarning).
Proof.
  apply (flow_from_decomposition 5 path_state (PyDiGraph path_cover) path_f
           [0; 0; 0; 0; 0] [0; 1; 2; 3; 4] 2).
  vm_compute. reflexivity.
Defined.

Lemma dg_add_edge_edges g u v e :
  e ∈ dg_edges (dg_add_edge g u v) ↔ e ∈ dg_edges g ∨ e = (u, v).
Proof.
  cbn [dg_add_edge dg_edges]. case_decide as Hin.
  - split; [by left|]. by intros [?| ->].
  - by rewrite elem_of_app, list_elem_of_singleton.
Qed.

Lemma dg_add_node_elem v ns x : x ∈ dg_add_node v ns ↔ x ∈ ns ∨ x = v.
Proof.
  unfold dg_add_node. case_decide.
  - split; [by left|]. by intros [?| ->].
  - by rewrite elem_of_app, list_elem_of_singleton.
Qed.

Lemma dg_add_edge_nodes_iff g u v x :
  x ∈ dg_nodes (dg_add_edge g u v) ↔ x ∈ dg_nodes g ∨ x = u ∨ x = v.
Proof.
  cbn [dg_add_edge dg_nodes]. rewrite !dg_add_node_elem. tauto.
Qed.

Lemma flowgraph_loop_spec flow vs H H' :
  flowgraph_loop flow vs H = Ok H' →
  (∀ u w, (u, w) ∈ dg_edges H' ↔ (u, w) ∈ dg_edges H ∨ (u ∈ vs ∧ flow u = Ok w))
  ∧ (∀ x, x ∈ dg_nodes H' ↔
          x ∈ dg_nodes H ∨ x ∈ vs ∨ ∃ u, u ∈ vs ∧ flow u = Ok x).
Proof.
  revert H. induction vs as [|v vs IH]; intros H; cbn [flowgraph_loop].
  - intros [= <-]. split.
    + intros u w. split; [by left|]. intros [?|[?%elem_of_nil _]]; done.
    + intros x. split; [by left|]. intros [?|[?%elem_of_nil|(? & ?%elem_of_nil & _)]]; done.
  - intros (w & Hw & Hloop)%res_bind_Ok. apply IH in Hloop as [He Hn]. split.
    + intros a b. rewrite He, dg_add_edge_edges, elem_of_cons. split.
      * intros [[?|[= -> ->]]|[? ?]]; [by left|right; split; [by left|done]|].
        right. split; [by right|done].
      * intros [?|[[->|?] Hb]]; [by left; left| |by right].
        left. right. congruence.
    + intros x. rewrite Hn, dg_add_edge_nodes_iff. split.
      * intros [[?|[->| ->]]|[?|(u & ? & ?)]].
        -- by left.
        -- right. left. by left.
        -- right. right. exists v. split; [by left|done].
        -- right. left. by right.
        -- right. right. exists u. split; [by right|done].
      * intros [?|[[->|?]%elem_of_cons|(u & [->|?]%elem_of_cons & Hu)]].
        -- by left; left.
        -- left. right. by left.
        -- right. by left.
        -- left. right. right. congruence.
        -- right. right. by exists u.
Qed.

(** X17. The digraph that [_get_flowgraph] returns has exactly the edges
    [v -> flow(v)] for the vertices [v] of the output complement, and its
    nodes are these vertices and their images. *)
Theorem get_flowgraph_edges state flow H :
  _get_flowgraph state flow = Ok H →
  (∀ u w, (u, w) ∈ dg_edges H ↔ u ∈ outputc state ∧ flow u = Ok w)
  ∧ (∀ x, x ∈ dg_nodes H ↔ x ∈ outputc state ∨ ∃ u, u ∈ outputc state ∧ flow u = Ok x).
Proof.
  intros [He Hn]%flowgraph_loop_spec. split.
  - intros u w. rewrite He. cbn. split; [by intros [?%elem_of_nil|?]|by right].
  - intros x. rewrite Hn. cbn. split; [by intros [?%elem_of_nil|?]|by right].
Qed.

Lemma get_flowgraph_edges_witness :
  (∀ u w, (u, w) ∈ dg_edges (mkDiGraph [0; 1; 2; 3; 4] [(0, 1); (1, 2); (2, 3); (3, 4)])
          ↔ u ∈ outputc path_state ∧ _flow_from_array path_state path_f u = Ok w)
  ∧ (∀ x, x ∈ dg_nodes (mkDiGraph [0; 1; 2; 3; 4] [(0, 1); (1, 2); (2, 3); (3, 4)])
          ↔ x ∈ outputc path_state
            ∨ ∃ u, u ∈ outputc path_state ∧ _flow_from_array path_state path_f u = Ok x).
Proof.
  apply (get_flowgraph_edges path_state (_flow_from_array path_state path_f)).
  vm_compute. reflexivity.
Defined.

(** ** The topological sort of a digraph *)

Lemma occurrences_cons c x cs :
  occurrences c (x :: cs)
  = if decide (x = c) then S (occurrences c cs) else occurrences c cs.
Proof. unfold occurrences. rewrite filter_cons. by case_decide. Qed.

Lemma occurrences_zero c cs : occurrences c cs = 0%nat ↔ c ∉ cs.
Proof.
  induction cs as [|x cs IH]; [by split; [intros _ ?%elem_of_nil|]|].
  rewrite occurrences_cons, not_elem_of_cons. case_decide as Hx.
  - split; [done|]. intros [Hne _]. by destruct Hne.
  - rewrite IH. split; [by split; [intros ->|]|by intros [_ ?]].
Qed.

Lemma pending_in_ext G d1 d2 c :
  (∀ x, x ∈ d1 ↔ x ∈ d2) → pending_in G d1 c = pending_in G d2 c.
Proof.
  intros H. unfold pending_in. f_equal. apply list_filter_iff. intros e. by rewrite H.
Qed.

Lemma pending_in_mono G d1 d2 c :
  (∀ x, x ∈ d1 → x ∈ d2) → (pending_in G d2 c ≤ pending_in G d1 c)%nat.
Proof.
  intros H. unfold pending_in. induction (dg_edges G) as [|e es IH]; [done|].
  rewrite !filter_cons.
  destruct (decide (e.2 = c ∧ e.1 ∉ d2)) as [[? Hd2]|], (decide (e.2 = c ∧ e.1 ∉ d1)) as [|Hd1];
    cbn [length]; try lia.
  destruct Hd1. split; [done|]. intros ?. by apply Hd2, H.
Qed.

Lemma pending_in_zero G done c :
  pending_in G done c = 0%nat ↔ ∀ u, (u, c) ∈ dg_edges G → u ∈ done.
Proof.
  unfold pending_in. rewrite length_zero_iff_nil. split.
  - intros Hnil u Hu. destruct (decide (u ∈ done)) as [|Hn]; [done|].
    assert ((u, c) ∈ filter (λ e : Z * Z, e.2 = c ∧ e.1 ∉ done) (dg_edges G)) as Hin
      by by apply list_elem_of_filter.
    rewrite Hnil in Hin. by apply elem_of_nil in Hin.
  - intros H. apply elem_of_nil_inv. intros [u v] [[Hv Hu] Hin]%list_elem_of_filter.
    cbn in *. subst v. by apply Hu, H.
Qed.

Lemma pending_in_cons G done node c :
  node ∉ done →
  pending_in G done c
  = (pending_in G (node :: done) c
     + occurrences c (filter (λ e, e.1 = node) (dg_edges G)).*2)%nat.
Proof.
  intros Hnode. unfold pending_in, occurrences.
  induction (dg_edges G) as [|[a b] es IH]; [done|].
  rewrite !filter_cons. cbn [fst snd].
  destruct (decide (a = node)) as [->|Ha].
  - cbn [fmap list_fmap snd]. rewrite filter_cons.
    destruct (decide (b = c ∧ node ∉ done)) as [[? _]|H1],
             (decide (b = c ∧ node ∉ node :: done)) as [[_ H2]|_],
             (decide (b = c)) as [|H3]; cbn [length]; try lia.
    all: try (exfalso; match goal with H : _ ∉ _ :: _ |- _ => apply H; by left end).
    exfalso. by apply H1.
  - destruct (decide (b = c ∧ a ∉ done)) as [[? H0]|H1],
             (decide (b = c ∧ a ∉ node :: done)) as [[? H2]|H2]; cbn [length]; try lia.
    + destruct H2. split; [done|]. by intros [?|?]%elem_of_cons.
    + destruct H1. split; [done|]. intros ?. apply H2. by right.
Qed.

Lemma indegree_entry_Some n d : indegree_entry n = Some d → d = Z.of_nat n ∧ n ≠ 0%nat.
Proof. unfold indegree_entry. case_decide; [done|]. by intros [= <-]. Qed.

Lemma topo_children_spec G D cs imap zero :
  (∀ c, imap !! c = indegree_entry (pending_in G D c + occurrences c cs)) →
  res_ok (topo_children cs imap zero) (λ r,
    (∀ c, r.1 !! c = indegree_entry (pending_in G D c))
    ∧ ∃ new, r.2 = zero ++ new ∧ NoDup new
             ∧ ∀ c, c ∈ new ↔ c ∈ cs ∧ pending_in G D c = 0%nat).
Proof.
  revert imap zero. induction cs as [|child cs IH]; intros imap zero Hmap; cbn [topo_children].
  { eexists. split; [done|]. cbn [fst snd]. split.
    - intros c. rewrite Hmap. f_equal. unfold occurrences. cbn. lia.
    - exists []. rewrite app_nil_r. split_and!; [done|constructor|].
      intros c. split; [by intros ?%elem_of_nil|by intros [?%elem_of_nil _]]. }
  pose proof (Hmap child) as Hchild. rewrite occurrences_cons, decide_True in Hchild by done.
  destruct (imap !! child) as [d|] eqn:Hd.
  2: { symmetry in Hchild. unfold indegree_entry in Hchild. case_decide; [lia|done]. }
  symmetry in Hchild. apply indegree_entry_Some in Hchild as [-> Hpos].
  case_decide as Hone.
  - assert (pending_in G D child = 0 ∧ occurrences child cs = 0)%nat as [Hp Ho] by lia.
    destruct (IH (delete child imap) (zero ++ [child]))
      as (r & Hr & Himap' & new & Hzero & Hnd & Hnew).
    { intros c. destruct (decide (child = c)) as [<-|Hne].
      - rewrite lookup_delete_eq. unfold indegree_entry. rewrite decide_True; [done|lia].
      - rewrite lookup_delete_ne, Hmap, occurrences_cons, decide_False by done. done. }
    exists r. split; [done|]. split; [done|].
    exists (child :: new). rewrite Hzero, <-app_assoc. split_and!; [done| |].
    + constructor; [|done]. intros [Hin _]%Hnew. by apply occurrences_zero in Ho.
    + intros c. rewrite elem_of_cons, Hnew, elem_of_cons. split.
      * intros [->|[? ?]]; [split; [by left|done]|split; [by right|done]].
      * intros [[->|?] ?]; [by left|by right].
  - destruct (IH (<[child:=Z.of_nat (pending_in G D child + S (occurrences child cs)) - 1]> imap)
                zero) as (r & Hr & Himap' & new & Hzero & Hnd & Hnew).
    { intros c. destruct (decide (child = c)) as [<-|Hne].
      - rewrite lookup_insert_eq. unfold indegree_entry. rewrite decide_False by lia.
        f_equal. lia.
      - rewrite lookup_insert_ne, Hmap, occurrences_cons, decide_False by done. done. }
    exists r. split; [done|]. split; [done|]. exists new. split_and!; [done..|].
    intros c. rewrite Hnew, elem_of_cons. split; [intros [? ?]; split; [by right|done]|].
    intros [[->|?] Hp]; [|done]. split; [|done].
    apply dec_stable. rewrite <-occurrences_zero. lia.
Qed.

Lemma topo_generation_spec G done gen imap zero :
  NoDup gen → (∀ x, x ∈ gen → x ∉ done) → (∀ x, x ∈ gen → x ∈ dg_nodes G) →
  (∀ c, imap !! c = indegree_entry (pending_in G done c)) →
  res_ok (topo_generation G gen imap zero) (λ r,
    (∀ c, r.1 !! c = indegree_entry (pending_in G (gen ++ done) c))
    ∧ ∃ new, r.2 = zero ++ new ∧ NoDup new
             ∧ ∀ c, c ∈ new ↔ pending_in G done c ≠ 0%nat
                              ∧ pending_in G (gen ++ done) c = 0%nat).
Proof.
  revert done imap zero.
  induction gen as [|node gen IH]; intros done imap zero Hnd Hfresh Hnodes Hmap;
    cbn [topo_generation].
  { eexists. split; [done|]. split; [done|]. exists []. rewrite app_nil_r.
    split_and!; [done|constructor|]. intros c. cbn [app].
    split; [by intros ?%elem_of_nil|by intros [? ?]]. }
  apply NoDup_cons in Hnd as [Hnode Hnd].
  assert (node ∉ done) as Hnode' by (apply Hfresh; by left).
  rewrite decide_True by (apply Hnodes; by left).
  unfold dg_successors. rewrite decide_True by (apply Hnodes; by left).
  cbn [mbind res_bind].
  destruct (topo_children_spec G (node :: done)
              (filter (λ e : Z * Z, e.1 = node) (dg_edges G)).*2 imap zero)
    as ([imap1 zero1] & -> & Hmap1 & new1 & Hzero1 & Hnd1 & Hnew1).
  { intros c. by rewrite Hmap, (pending_in_cons G done node c Hnode'). }
  cbn [mbind res_bind fst snd] in *. subst zero1.
  destruct (IH (node :: done) imap1 (zero ++ new1))
    as (r & Hr & Hmap' & new2 & Hzero2 & Hnd2 & Hnew2); [done| | |done|].
  { intros x Hx [->|?]%elem_of_cons; [done|]. by apply (Hfresh x); [right|]. }
  { intros x Hx. apply Hnodes. by right. }
  exists r. split; [done|].
  assert (∀ c, pending_in G (gen ++ node :: done) c = pending_in G ((node :: gen) ++ done) c)
    as Hext.
  { intros c. apply pending_in_ext. intros x.
    cbn [app]. rewrite ?elem_of_app, ?elem_of_cons, ?elem_of_app. tauto. }
  split; [intros c; by rewrite Hmap', Hext|].
  exists (new1 ++ new2). rewrite Hzero2, <-app_assoc. split_and!; [done| |].
  - apply NoDup_app. split_and!; [done| |done].
    intros c [_ H1]%Hnew1 [H2 _]%Hnew2. done.
  - intros c. rewrite elem_of_app, Hnew1, Hnew2, <-Hext.
    pose proof (pending_in_cons G done node c Hnode') as Hc.
    pose proof (pending_in_mono G (node :: done) (gen ++ node :: done) c) as Hm.
    assert (∀ cs, c ∈ cs ↔ occurrences c cs ≠ 0%nat) as Hocc.
    { intros cs. rewrite occurrences_zero. split; [tauto|apply dec_stable]. }
    rewrite Hocc. split.
    + intros [[Ho Hp]|[Hp Hq]]; [|lia]. split; [lia|].
      assert (pending_in G (gen ++ node :: done) c ≤ pending_in G (node :: done) c)%nat
        by (apply Hm; intros x Hx; apply elem_of_app; by right). lia.
    + intros [Hp Hq]. destruct (decide (pending_in G (node :: done) c = 0%nat)); [left|right];
        split; try done; lia.
Qed.

Lemma list_index_elem x l : x ∈ l ↔ ∃ i, list_index x l = Ok i.
Proof.
  induction l as [|y l IH]; cbn [list_index].
  - split; [by intros ?%elem_of_nil|by intros [? ?]].
  - rewrite elem_of_cons. case_decide as Hy.
    + split; [by eexists|]. intros _. by left.
    + rewrite IH. split.
      * intros [->|[i ->]]; [done|]. by eexists.
      * intros [i (j & Hj & _)%res_bind_Ok]. right. by exists j.
Qed.

Lemma list_index_bound x l i : list_index x l = Ok i → 0 ≤ i < Z.of_nat (length l).
Proof.
  revert i. induction l as [|y l IH]; intros i; cbn [list_index length]; [done|].
  case_decide; [intros [= <-]; lia|].
  intros (j & Hj%IH & [= <-])%res_bind_Ok. lia.
Qed.

Lemma list_index_app_l x l1 l2 : x ∈ l1 → list_index x (l1 ++ l2) = list_index x l1.
Proof.
  induction l1 as [|y l1 IH]; [by intros ?%elem_of_nil|]. cbn [app list_index].
  case_decide; [done|]. intros [->|Hx]%elem_of_cons; [done|]. by rewrite IH.
Qed.

Lemma list_index_app_r x l1 l2 i :
  x ∉ l1 → list_index x l2 = Ok i →
  list_index x (l1 ++ l2) = Ok (Z.of_nat (length l1) + i).
Proof.
  intros Hx Hi. induction l1 as [|y l1 IH]; [cbn [app length]; rewrite Hi; f_equal; lia|].
  apply not_elem_of_cons in Hx as [Hne Hx]. cbn [app list_index length].
  rewrite decide_False by done. rewrite IH by done. cbn [mbind res_bind]. f_equal. lia.
Qed.

Lemma precedes_app_l l1 l2 u v : precedes l1 u v → precedes (l1 ++ l2) u v.
Proof.
  intros (iu & iv & Hu & Hv & Hlt). exists iu, iv.
  rewrite !list_index_app_l; [done|apply list_index_elem; by eexists..].
Qed.

Lemma precedes_app_r l1 l2 u v : u ∈ l1 → v ∉ l1 → v ∈ l2 → precedes (l1 ++ l2) u v.
Proof.
  intros [iu Hu]%list_index_elem Hv [iv Hv']%list_index_elem.
  exists iu, (Z.of_nat (length l1) + iv). split_and!.
  - rewrite list_index_app_l; [done|]. apply list_index_elem. by eexists.
  - by apply list_index_app_r.
  - apply list_index_bound in Hu, Hv'. lia.
Qed.

Lemma topo_loop_outcome fuel G zero imap yielded :
  wf_digraph G →
  NoDup (yielded ++ zero) → (∀ x, x ∈ yielded ++ zero → x ∈ dg_nodes G) →
  (∀ c, imap !! c = indegree_entry (pending_in G yielded c)) →
  (∀ c, c ∈ dg_nodes G → c ∈ yielded ++ zero ↔ pending_in G yielded c = 0%nat) →
  (∀ u v, (u, v) ∈ dg_edges G → v ∈ yielded → precedes yielded u v) →
  topo_loop fuel G zero imap yielded = OutOfFuel
  ∨ topo_loop fuel G zero imap yielded = Raise NetworkXUnfeasible
  ∨ ∃ order, topo_loop fuel G zero imap yielded = Ok order
             ∧ NoDup order ∧ (∀ x, x ∈ order ↔ x ∈ dg_nodes G)
             ∧ ∀ u v, (u, v) ∈ dg_edges G → precedes order u v.
Proof.
  intros Hwf. revert zero imap yielded.
  induction fuel as [|fuel IH]; intros zero imap yielded Hnd Hsub Hmap Hrel Hord;
    destruct zero as [|z zs] eqn:Hz; cbn [topo_loop]; try (by left).
  1, 2: case_decide as Hempty; [|by right; left]; right; right; exists yielded;
    rewrite app_nil_r in *;
    assert (∀ c, c ∈ dg_nodes G → c ∈ yielded) as Hall
      by (intros c Hc; apply Hrel; [done|]; specialize (Hmap c);
          rewrite Hempty, lookup_empty in Hmap; unfold indegree_entry in Hmap;
          by case_decide);
    (split_and!; [done|done|intros x; split; [apply Hsub|apply Hall]|];
     intros u v Huv; apply Hord; [done|]; apply Hall; by apply (proj2 Hwf u v)).
  rewrite <-Hz in *. clear Hz z zs.
  apply NoDup_app in Hnd as (Hndy & Hdisj & Hndz).
  destruct (topo_generation_spec G yielded zero imap [])
    as ([imap' zero'] & -> & Hmap' & new & Heq & Hndnew & Hnew); [done| | |done|].
  { intros x Hx Hy. by apply (Hdisj x). }
  { intros x Hx. apply Hsub, elem_of_app. by right. }
  cbn [mbind res_bind fst snd app] in *. subst zero'.
  assert (∀ c, pending_in G (zero ++ yielded) c = pending_in G (yielded ++ zero) c) as Hext.
  { intros c. apply pending_in_ext. intros x. rewrite !elem_of_app. tauto. }
  assert (∀ c, c ∈ new → c ∈ dg_nodes G ∧ c ∉ yielded ++ zero) as Hfresh.
  { intros c [Hp _]%Hnew.
    assert (c ∈ dg_nodes G) as Hc.
    { destruct (filter (λ e : Z * Z, e.2 = c ∧ e.1 ∉ yielded) (dg_edges G))
        as [|[a b] l] eqn:E; [unfold pending_in in Hp; by rewrite E in Hp|].
      assert ((a, b) ∈ filter (λ e : Z * Z, e.2 = c ∧ e.1 ∉ yielded) (dg_edges G)) as Hin
        by (rewrite E; by left).
      apply list_elem_of_filter in Hin as [[Hb _] Hin]. cbn in Hb. subst b.
      by apply (proj2 Hwf a c). }
    split; [done|]. by rewrite (Hrel c Hc). }
  apply IH.
  - rewrite <-app_assoc. apply NoDup_app. split_and!; [done| |].
    + intros x Hx [Hz|Hn]%elem_of_app; [by apply (Hdisj x)|].
      apply Hfresh in Hn as [_ Hn]. apply Hn, elem_of_app. by left.
    + apply NoDup_app. split_and!; [done| |done].
      intros x Hx [_ Hn]%Hfresh. apply Hn, elem_of_app. by right.
  - intros x [Hx|Hx]%elem_of_app; [by apply Hsub|by apply Hfresh].
  - intros c. by rewrite Hmap', Hext.
  - intros c Hc. rewrite <-Hext. rewrite elem_of_app, Hnew, (Hrel c Hc).
    pose proof (pending_in_mono G yielded (zero ++ yielded) c) as Hm.
    assert (pending_in G (zero ++ yielded) c ≤ pending_in G yielded c)%nat
      by (apply Hm; intros x Hx; apply elem_of_app; by right).
    split; [intros [?|[? ?]]; lia|].
    intros Hq. destruct (decide (pending_in G yielded c = 0%nat)); [by left|by right].
  - intros u v Huv [Hv|Hv]%elem_of_app.
    + by apply precedes_app_l, Hord.
    + apply precedes_app_r; [|by intros ?; apply (Hdisj v)|done].
      assert (v ∈ dg_nodes G) as Hvn by by apply (proj2 Hwf u v).
      assert (pending_in G yielded v = 0%nat) as Hp
        by (apply Hrel; [done|apply elem_of_app; by right]).
      by apply (proj1 (pending_in_zero G yielded v) Hp).
Qed.

Lemma topological_sort_outcome fuel G :
  wf_digraph G →
  topological_sort fuel G = OutOfFuel
  ∨ topological_sort fuel G = Raise NetworkXUnfeasible
  ∨ ∃ order, topological_sort fuel G = Ok order
             ∧ NoDup order ∧ (∀ x, x ∈ order ↔ x ∈ dg_nodes G)
             ∧ ∀ u v, (u, v) ∈ dg_edges G → precedes order u v.
Proof.
  intros Hwf. unfold topological_sort.
  assert (∀ c, dg_in_degree G c = Z.of_nat (pending_in G [] c)) as Hdeg.
  { intros c. unfold dg_in_degree, pending_in. do 2 f_equal. apply list_filter_iff.
    intros e. split; [intros ?; split; [done|by intros ?%elem_of_nil]|by intros [? _]]. }
  apply topo_loop_outcome; [done|..].
  - cbn [app]. apply NoDup_filter, Hwf.
  - intros x [_ Hx]%list_elem_of_filter. done.
  - intros c. unfold indegree_entry. case_decide as Hc.
    + apply not_elem_of_list_to_map. rewrite list_elem_of_fmap.
      intros ([a b] & Hc' & [Hb (v & Heq & Hv)%list_elem_of_fmap]%list_elem_of_filter).
      cbn [fst snd] in *. injection Heq as -> ->. subst c. rewrite Hdeg in Hb. lia.
    + destruct (decide (c ∈ dg_nodes G)) as [Hin|Hnin].
      * apply elem_of_list_to_map_1'.
        -- intros y [_ (v & Heq & _)%list_elem_of_fmap]%list_elem_of_filter.
           injection Heq as <- ->. symmetry. apply Hdeg.
        -- apply list_elem_of_filter. split; [cbn; lia|].
           apply list_elem_of_fmap. exists c. by rewrite Hdeg.
      * exfalso. apply Hc, pending_in_zero. intros u Hu. destruct Hnin.
        by apply (proj2 Hwf u c).
  - intros c Hc. cbn [app]. rewrite list_elem_of_filter, Hdeg. split; [lia|].
    intros ->. done.
  - by intros u v _ ?%elem_of_nil.
Qed.

Lemma topological_sort_spec fuel G order :
  wf_digraph G → topological_sort fuel G = Ok order →
  NoDup order ∧ (∀ x, x ∈ order ↔ x ∈ dg_nodes G)
  ∧ ∀ u v, (u, v) ∈ dg_edges G → precedes order u v.
Proof.
  intros Hwf Htop.
  destruct (topological_sort_outcome fuel G Hwf) as [H|[H|(order' & H & Hpost)]];
    rewrite Htop in H; [done..|]. by injection H as ->.
Qed.

(** ** The order that [find_flow] returns *)

Lemma dg_add_node_NoDup v ns : NoDup ns → NoDup (dg_add_node v ns).
Proof.
  intros Hnd. unfold dg_add_node. case_decide; [done|].
  apply NoDup_app. split_and!; [done| |apply NoDup_singleton].
  by intros x Hx ->%list_elem_of_singleton.
Qed.

Lemma dg_add_edge_wf G u v : wf_digraph G → wf_digraph (dg_add_edge G u v).
Proof.
  intros [Hnd Hend]. split.
  - cbn [dg_add_edge dg_nodes]. by do 2 apply dg_add_node_NoDup.
  - intros a b. rewrite dg_add_edge_edges, !dg_add_edge_nodes_iff.
    intros [Hab|[= -> ->]]; [|tauto]. destruct (Hend a b Hab). tauto.
Qed.

Lemma flowgraph_loop_wf flow vs H H' :
  wf_digraph H → flowgraph_loop flow vs H = Ok H' → wf_digraph H'.
Proof.
  revert H. induction vs as [|v vs IH]; intros H Hwf; cbn [flowgraph_loop].
  - by intros [= <-].
  - intros (w & _ & Hloop)%res_bind_Ok. eapply IH; [|done]. by apply dg_add_edge_wf.
Qed.

Lemma flowgraph_loop_total flow vs H H' :
  flowgraph_loop flow vs H = Ok H' → ∀ v, v ∈ vs → ∃ w, flow v = Ok w.
Proof.
  revert H. induction vs as [|u vs IH]; intros H; cbn [flowgraph_loop].
  - by intros _ v ?%elem_of_nil.
  - intros (w & Hw & Hloop)%res_bind_Ok v [->|Hv]%elem_of_cons; [by exists w|].
    by eapply IH.
Qed.

(** X18. When [find_flow] returns a flow, with or without the sanity check,
    [top_order] lists every vertex of the flow graph exactly once (the
    vertices of the output complement and their images under [flow]), and
    every vertex [v] of the output complement comes before [flow(v)]:
    condition (b) of the validator holds for every result. *)
Theorem find_flow_order set_iter fuel state sanity_check flow top_order :
  find_flow set_iter fuel state sanity_check = Ok (RetFlow flow top_order) →
  NoDup top_order
  ∧ (∀ x, x ∈ top_order ↔ x ∈ outputc state ∨ ∃ u, u ∈ outputc state ∧ flow u = Ok x)
  ∧ (∀ v, v ∈ outputc state → ∃ w, flow v = Ok w ∧ precedes top_order v w).
Proof.
  intros Hff.
  apply find_flow_RetFlow_inv in Hff
    as (C & f & P & L & sup & g & _ & _ & _ & _ & _ & Hg & Htop & ->).
  unfold _get_flowgraph in Hg.
  pose proof (flowgraph_loop_total _ _ _ _ Hg) as Htotal.
  pose proof (flowgraph_loop_spec _ _ _ _ Hg) as [He Hn].
  apply flowgraph_loop_wf in Hg; [|split; [constructor|by intros u v ?%elem_of_nil]].
  apply topological_sort_spec in Htop as (Hnd & Hin & Hord); [|done].
  split_and!; [done| |].
  - intros x. rewrite Hin, Hn. cbn [dg_empty dg_nodes].
    split; [by intros [?%elem_of_nil|?]|by right].
  - intros v Hv. destruct (Htotal v Hv) as [w Hw]. exists w. split; [done|].
    apply Hord, He. by right.
Qed.

Lemma find_flow_order_witness :
  NoDup [0; 1; 2]
  ∧ (∀ x, x ∈ [0; 1; 2] ↔
       x ∈ outputc triangle_state
       ∨ ∃ u, u ∈ outputc triangle_state ∧ _flow_from_array triangle_state triangle_f u = Ok x)
  ∧ (∀ v, v ∈ outputc triangle_state →
       ∃ w, _flow_from_array triangle_state triangle_f v = Ok w ∧ precedes [0; 1; 2] v w).
Proof.
  apply (find_flow_order ascending 3 triangle_state false
           (_flow_from_array triangle_state triangle_f) [0; 1; 2]).
  vm_compute. reflexivity.
Defined.

(** X19. [find_flow] raises RuntimeError in exactly one case: the sanity
    check is requested, every stage has returned, with a table from
    [_compute_suprema], and [_check_if_flow] has returned 0. In particular
    the topological sort of the flow graph raises nothing but
    NetworkXUnfeasible. *)
Theorem find_flow_runtime_error set_iter fuel state sanity_check :
  find_flow set_iter fuel state sanity_check = Raise RuntimeError
  ↔ sanity_check = true
    ∧ ∃ C f P L sup g top_order,
        length (input_nodes state) = length (output_nodes state) ∧
        _build_path_cover fuel state = Ok C ∧ truthy C = true ∧
        _get_chain_decomposition fuel state C = Ok (f, P, L) ∧
        _compute_suprema set_iter fuel state f P L = Ok (Some sup) ∧
        _get_flowgraph state (_flow_from_array state f) = Ok g ∧
        topological_sort fuel g = Ok top_order ∧
        _check_if_flow set_iter state (_flow_from_array state f) top_order = Ok 0.
Proof.
  split.
  - set (E := λ e : exn, e ≠ RuntimeError).
    assert (E IndexError ∧ E OverflowError ∧ E KeyError ∧ E AttributeError
            ∧ E StopIteration ∧ E NetworkXError ∧ E ValueError)
      as (HI & HO & HK & HA & HS & HN & HV) by done.
    unfold find_flow. destruct (decide _) as [Hne|Hlen]; [done|]. apply dec_stable in Hlen.
    pose proof (_build_path_cover_raises E HI HO HA HS HN fuel state) as Hpc.
    destruct (_build_path_cover fuel state) as [C|e'|] eqn:EC; cbn [mbind res_bind];
      [|intros [= ->]; by destruct (Hpc RuntimeError)|done].
    destruct (truthy C) eqn:HC; [|done].
    pose proof (_get_chain_decomposition_raises E HI HO HA HS HN fuel state C) as Hcd.
    destruct (_get_chain_decomposition fuel state C) as [[[f P] L]|e'|] eqn:Ecd;
      cbn [mbind res_bind]; [|intros [= ->]; by destruct (Hcd RuntimeError)|done].
    pose proof (_compute_suprema_raises E HI HO HK HN set_iter fuel state f P L) as Hsup.
    destruct (_compute_suprema set_iter fuel state f P L) as [[sup|]|e'|] eqn:Esup;
      cbn [mbind res_bind]; [|done|intros [= ->]; by destruct (Hsup RuntimeError)|done].
    pose proof (flowgraph_loop_raises E (_flow_from_array state f)
                  (outputc state) dg_empty) as Hg.
    destruct (_get_flowgraph state (_flow_from_array state f)) as [g|e'|] eqn:Eg;
      cbn [mbind res_bind]; [| |done].
    2: { intros [= ->]. destruct (Hg (λ v Hv, flow_raises E HK state f v Hv) RuntimeError); done. }
    assert (wf_digraph g) as Hwf.
    { eapply flowgraph_loop_wf; [|exact Eg]. split; [constructor|by intros u v ?%elem_of_nil]. }
    destruct (topological_sort_outcome fuel g Hwf) as [Htop|[Htop|(top_order & Htop & _)]];
      rewrite Htop; cbn [mbind res_bind]; [done..|].
    destruct sanity_check; [|done].
    pose proof (check_loop_raises E set_iter state f top_order (outputc state) 1 HV HK HN) as Hck.
    destruct (_check_if_flow set_iter state (_flow_from_array state f) top_order)
      as [c|e'|] eqn:Eck; cbn [mbind res_bind].
    + destruct (py_truth c) eqn:Hc; [done|]. intros _. split; [done|].
      exists C, f, P, L, sup, g, top_order. split_and!; try done.
      unfold py_truth in Hc. apply bool_decide_eq_false, dec_stable in Hc. by subst c.
    + intros [= ->]. unfold _check_if_flow in Eck. by destruct (Hck (λ v Hv, Hv) RuntimeError).
    + done.
  - intros (-> & C & f & P & L & sup & g & top_order & Hlen & Hpc & HC & Hcd & Hsup & Hg & Htop & Hck).
    erewrite find_flow_stages by done. by rewrite Hck.
Qed.

(** ** The order of set iteration *)

Lemma _compute_suprema_table set_iter fuel fuel' state C f P L :
  set_iteration set_iter → wf_graph (graph state) → labels_in_range state →
  _get_chain_decomposition fuel state C = Ok (f, P, L) →
  (number_of_nodes state ≤ fuel')%nat →
  ∃ sup, _compute_suprema set_iter fuel' state f P L = Ok (Some sup).
Proof.
  intros Hiter Hwf Hrange Hcd Hfuel.
  destruct (_get_chain_decomposition_shape _ _ _ _ _ _ Hcd) as (HP & HL & Htotal).
  destruct (_compute_suprema_spec state f [] Hwf Hrange Htotal (Forall_nil_2 _)
              set_iter fuel' P L) as (r & Hr & _); [done..|].
  destruct r as [sup|]; [by exists sup|]. exfalso.
  assert (∀ u w, fstep state f u w → ¬ rtc (fstep state f) w u) as Hacyc.
  { intros u w Hstep Hrtc. apply (acc_no_cycle (fstep state f) u w); [|done..].
    by eapply _get_chain_decomposition_acc. }
  by apply (_compute_suprema_acyclic state f Hwf Hrange Hacyc set_iter fuel' P L
              Hiter HP HL None Hr).
Qed.

(** X20. On a state with a well-formed graph whose labels are the indices
    0..|V|-1, the outcome of [find_flow], a pair, an exception or running
    out of fuel, does not depend on the order in which Python iterates its
    sets (lines 96 and 216), given [|V|] units of fuel. *)
Theorem find_flow_set_order set_iter1 set_iter2 fuel state sanity_check :
  set_iteration set_iter1 → set_iteration set_iter2 →
  wf_graph (graph state) → labels_in_range state →
  (number_of_nodes state ≤ fuel)%nat →
  find_flow set_iter1 fuel state sanity_check = find_flow set_iter2 fuel state sanity_check.
Proof.
  intros H1 H2 Hwf Hrange Hfuel. unfold find_flow.
  destruct (decide _); [done|].
  destruct (_build_path_cover fuel state) as [C| |]; [|done..]. cbn [mbind res_bind].
  destruct (truthy C); [|done].
  destruct (_get_chain_decomposition fuel state C) as [[[f P] L]| |] eqn:Hcd; [|done..].
  cbn [mbind res_bind].
  destruct (_compute_suprema_table set_iter1 fuel fuel state C f P L) as [sup1 ->]; [done..|].
  destruct (_compute_suprema_table set_iter2 fuel fuel state C f P L) as [sup2 ->]; [done..|].
  cbn [mbind res_bind].
  destruct (_get_flowgraph _ _) as [g| |]; [|done..]. cbn [mbind res_bind].
  destruct (topological_sort fuel g) as [top_order| |]; [|done..]. cbn [mbind res_bind].
  destruct sanity_check; [|done].
  by rewrite (_check_if_flow_set_iter set_iter1), (_check_if_flow_set_iter set_iter2).
Qed.

Lemma find_flow_set_order_witness :
  find_flow ascending 5 path_state true = find_flow elements 5 path_state true.
Proof.
  apply (find_flow_set_order ascending elements 5 path_state true);
    [apply ascending_set_iteration|intros X; reflexivity|by_compute|by_compute
    |unfold number_of_nodes; simpl; lia].
Defined.

(** ** The origins and depths of the chain decomposition *)

Section ChainRecords.
Context (state : GraphStateCircuit) (C : pyval).
Hypothesis Hwf : wf_graph (graph state).
Hypothesis Hrange : labels_in_range state.
Hypothesis Hedges : match C with
                    | PyDiGraph g => Forall (cover_edge_ok state) (dg_edges g)
                    | PyInt _ => True
                    end.

Local Abbreviation cols := (number_of_nodes state).

Lemma first_successor_node v ss w :
  tau_successors C v = Ok ss → py_next ss = Ok w → w ∈ graph_nodes (graph state).
Proof.
  intros Hss Hw. destruct C as [z|g]; [done|]. cbn [tau_successors] in Hss.
  pose proof (first_successor_edge _ _ _ _ Hss Hw) as Hedge.
  apply (proj1 (Forall_forall _ _) Hedges) in Hedge as (_ & _ & ns & Hns & Hin).
  by eapply wf_graph_neighbor.
Qed.

Lemma origin_depth_set P L v i l u :
  length P = cols → length L = cols →
  v ∈ graph_nodes (graph state) → u ∈ graph_nodes (graph state) →
  i ∈ input_nodes state → walk_at state C i l v →
  (origin_depth state C P L u ∨ u = v →
   origin_depth state C (<[Z.to_nat v:=i]> P) (<[Z.to_nat v:=Z.of_nat l]> L) u)
  ∧ (untouched P L u ∨ origin_depth state C P L u →
     untouched (<[Z.to_nat v:=i]> P) (<[Z.to_nat v:=Z.of_nat l]> L) u
     ∨ origin_depth state C (<[Z.to_nat v:=i]> P) (<[Z.to_nat v:=Z.of_nat l]> L) u).
Proof.
  intros HP HL Hv Hu Hi Hat.
  pose proof (node_in_range state Hrange v Hv) as Hr.
  assert (origin_depth state C (<[Z.to_nat v:=i]> P) (<[Z.to_nat v:=Z.of_nat l]> L) v) as Hnew.
  { exists i, l. split_and!; [done..| |]; apply list_lookup_insert_eq; lia. }
  destruct (decide (u = v)) as [->|Hne]; [by split; intros _; [|right]|].
  assert (Z.to_nat v ≠ Z.to_nat u) as Hcell by by apply (to_nat_ne state).
  assert (origin_depth state C P L u →
          origin_depth state C (<[Z.to_nat v:=i]> P) (<[Z.to_nat v:=Z.of_nat l]> L) u) as Hold.
  { intros (j & k & Hj & Hk & HPu & HLu). exists j, k.
    by rewrite !list_lookup_insert_ne. }
  split.
  - intros [?|?]; [by apply Hold|done].
  - intros [[HPu HLu]|?]; [left|right; by apply Hold].
    split; by rewrite list_lookup_insert_ne.
Qed.

Lemma chain_walk_records fuel i v (l : nat) f P L f' P' L' :
  chain_walk fuel state C i v (Z.of_nat l) f P L = Ok (f', P', L') →
  i ∈ input_nodes state → v ∈ graph_nodes (graph state) →
  length P = cols → length L = cols →
  (∀ vs o k u, walk_to state C v vs o → (vs ++ [o]) !! k = Some u →
     walk_at state C i (l + k) u) →
  length P' = cols ∧ length L' = cols
  ∧ (∀ u, u ∈ graph_nodes (graph state) →
       (origin_depth state C P L u → origin_depth state C P' L' u)
       ∧ (untouched P L u ∨ origin_depth state C P L u →
          untouched P' L' u ∨ origin_depth state C P' L' u))
  ∧ (∀ vs o u, walk_to state C v vs o → u ∈ vs ++ [o] → origin_depth state C P' L' u).
Proof.
  revert v l f P L.
  induction fuel as [|fuel IH]; intros v l f P L Hrun Hi Hv HP HL Hpos; [done|].
  cbn [chain_walk] in Hrun.
  assert (∀ vs o, walk_to state C v vs o → walk_at state C i l v) as Hat.
  { intros vs o Hwalk. replace l with (l + 0)%nat by lia. apply (Hpos vs o); [done|].
    destruct Hwalk; done. }
  case_decide as Hout.
  - apply res_bind_Ok in Hrun as (P1 & HP1 & Hrun).
    apply res_bind_Ok in Hrun as (L1 & HL1 & [= <- <- <-]).
    apply (np_set_node state Hrange) in HP1; [|done..].
    apply (np_set_node state Hrange) in HL1; [|done..]. subst P1 L1.
    assert (walk_at state C i l v) as Hat' by (apply (Hat [] v); by constructor).
    split_and!; [by rewrite length_insert..| |].
    + intros u Hu. destruct (origin_depth_set P L v i l u) as [H1 H2]; try done.
      split; [|done]. intros ?. apply H1. by left.
    + intros vs o u Hwalk Hu. inversion Hwalk; subst; [|done].
      apply list_elem_of_singleton in Hu as ->.
      destruct (origin_depth_set P L o i l o) as [H1 _]; try done. apply H1. by right.
  - apply res_bind_Ok in Hrun as (ss & Hss & Hrun).
    apply res_bind_Ok in Hrun as (w & Hw & Hrun).
    apply res_bind_Ok in Hrun as (P1 & HP1 & Hrun).
    apply res_bind_Ok in Hrun as (L1 & HL1 & Hrun).
    apply (np_set_node state Hrange) in HP1; [|done..].
    apply (np_set_node state Hrange) in HL1; [|done..]. subst P1 L1.
    pose proof (chain_walk_spec _ _ _ _ _ _ _ _ _ _ _ _ Hrun) as ((vs' & o' & Hwalk' & _) & _).
    assert (walk_to state C v (v :: vs') o') as Hwalkv by by econstructor.
    pose proof (Hat _ _ Hwalkv) as Hat'.
    replace (Z.of_nat l + 1) with (Z.of_nat (S l)) in Hrun by lia.
    apply IH in Hrun as (HP' & HL' & Hkeep & Hon); try done.
    + split_and!; [done..| |].
      * intros u Hu. destruct (origin_depth_set P L v i l u) as [H1 H2]; try done.
        destruct (Hkeep u Hu) as [H3 H4]. split.
        -- intros ?. apply H3, H1. by left.
        -- intros ?. by apply H4, H2.
      * intros vs o u Hwalk Hu.
        destruct (walk_to_det _ _ _ _ _ _ _ Hwalk Hwalkv) as [-> ->].
        cbn [app] in Hu. apply elem_of_cons in Hu as [->|Hu]; [|by eapply Hon].
        destruct (origin_depth_set P L v i l v) as [H1 _]; try done.
        apply (Hkeep v Hv), H1. by right.
    + by eapply first_successor_node.
    + by rewrite length_insert.
    + by rewrite length_insert.
    + intros vs o k u Hwalk Hk. replace (S l + k)%nat with (l + S k)%nat by lia.
      apply (Hpos (v :: vs) o); [by econstructor|done].
Qed.

Lemma chain_loop_records fuel ins f P L f' P' L' :
  chain_loop fuel state C ins f P L = Ok (f', P', L') →
  (∀ i, i ∈ ins → i ∈ input_nodes state ∧ i ∈ graph_nodes (graph state)) →
  length P = cols → length L = cols →
  length P' = cols ∧ length L' = cols
  ∧ (∀ u, u ∈ graph_nodes (graph state) →
       (origin_depth state C P L u → origin_depth state C P' L' u)
       ∧ (untouched P L u ∨ origin_depth state C P L u →
          untouched P' L' u ∨ origin_depth state C P' L' u))
  ∧ (∀ i vs o u, i ∈ ins → walk_to state C i vs o → u ∈ vs ++ [o] →
       u ∈ graph_nodes (graph state) → origin_depth state C P' L' u).
Proof.
  revert f P L. induction ins as [|i ins IH]; intros f P L Hrun Hins HP HL;
    cbn [chain_loop] in Hrun.
  - injection Hrun as <- <- <-. split_and!; [done..| |].
    + by intros u Hu.
    + by intros i vs o u ?%elem_of_nil.
  - apply res_bind_Ok in Hrun as ([[f1 P1] L1] & Hwalk & Hloop).
    destruct (Hins i) as [Hi Hin]; [by left|].
    apply (chain_walk_records _ _ _ 0%nat) in Hwalk as (HP1 & HL1 & Hkeep1 & Hon1); try done.
    2: { intros vs o k u Hw Hk. by exists vs, o. }
    apply IH in Hloop as (HP' & HL' & Hkeep & Hon); try done.
    2: { intros j Hj. apply Hins. by right. }
    split_and!; [done..| |].
    + intros u Hu. destruct (Hkeep1 u Hu) as [H1 H2], (Hkeep u Hu) as [H3 H4].
      split; intros ?; [by apply H3, H1|by apply H4, H2].
    + intros j vs o u [->|Hj]%elem_of_cons Hw Hu Hun; [|by eapply Hon].
      apply (Hkeep u Hun). by eapply Hon1.
Qed.
End ChainRecords.

Lemma walk_to_follow_at state C f v vs o k u :
  walk_to state C v vs o → (∀ x, x ∈ vs → agrees C f x) →
  (vs ++ [o]) !! k = Some u → follow f k v = Some u.
Proof.
  intros Hwalk. revert k.
  induction Hwalk as [v Hv|v w ss vs o Hv Hss Hw Hwalk IH]; intros k Hf Hk.
  - destruct k as [|k]; [by injection Hk as ->|done].
  - destruct k as [|k]; [by injection Hk as ->|]. cbn [follow].
    destruct (Hf v) as (ss' & w' & Hss' & Hw' & ->); [by left|].
    cbn [mbind option_bind]. assert (w' = w) as -> by congruence.
    apply IH; [|done]. intros x Hx. apply Hf. by right.
Qed.

Lemma walk_to_graph_nodes state C v vs o u :
  wf_graph (graph state) →
  match C with
  | PyDiGraph g => Forall (cover_edge_ok state) (dg_edges g)
  | PyInt _ => True
  end →
  walk_to state C v vs o → v ∈ graph_nodes (graph state) →
  u ∈ vs ++ [o] → u ∈ graph_nodes (graph state).
Proof.
  intros Hwf Hedges. induction 1 as [v Hv|v w ss vs o Hv Hss Hw Hwalk IH]; intros Hin.
  - by intros ->%list_elem_of_singleton.
  - cbn [app]. intros [->|Hu]%elem_of_cons; [done|]. apply IH; [|done].
    by eapply first_successor_node.
Qed.

(** X21. The arrays [P] and [L] of the chain decomposition, on a state with
    a well-formed graph, labels 0..|V|-1 and input nodes among the
    vertices. For every vertex [u], either both cells are still 0, or
    [P[u]] is an input node and following the successor dict from [P[u]]
    for [L[u]] steps arrives at [u]. The second case holds for every vertex
    on the chain from an input node to the output that ends it. *)
Theorem chain_decomposition_records fuel state C f P L :
  wf_graph (graph state) → labels_in_range state →
  (∀ i, i ∈ input_nodes state → i ∈ graph_nodes (graph state)) →
  _build_path_cover fuel state = Ok C →
  _get_chain_decomposition fuel state C = Ok (f, P, L) →
  (∀ u, u ∈ graph_nodes (graph state) →
     (np_get P u = Ok 0 ∧ np_get L u = Ok 0) ∨ recorded state f P L u)
  ∧ (∀ i, i ∈ input_nodes state →
       ∃ k o, follow f k i = Some o ∧ o ∈ output_nodes state
              ∧ ∀ k' u, (k' ≤ k)%nat → follow f k' i = Some u → recorded state f P L u).
Proof.
  intros Hwf Hrange Hins Hpc Hcd.
  assert (match C with
          | PyDiGraph g => Forall (cover_edge_ok state) (dg_edges g)
          | PyInt _ => True
          end) as Hedges.
  { apply _build_path_cover_edges in Hpc. destruct C; [done|]. apply Hpc. }
  unfold _get_chain_decomposition in Hcd.
  pose proof (chain_loop_spec _ _ _ _ _ _ _ _ _ _ Hcd) as (Hwalks & _ & _).
  apply (chain_loop_records state C Hwf Hrange Hedges) in Hcd as (HP & HL & Hkeep & Hon);
    [|by intros i Hi; split; [|apply Hins]|apply length_replicate..].
  assert (∀ u, u ∈ graph_nodes (graph state) → origin_depth state C P L u →
               recorded state f P L u) as Hrec.
  { intros u Hu (j & k & Hj & (vs & o & Hwalk & Hk) & HPu & HLu).
    pose proof (node_in_range state Hrange u Hu) as Hr.
    destruct (Hwalks j Hj) as (vs' & o' & Hwalk' & Hagree).
    destruct (walk_to_det _ _ _ _ _ _ _ Hwalk Hwalk') as [-> ->].
    exists j, k. split_and!; [done|by eapply walk_to_follow_at|..];
      apply np_get_lookup; try done; lia. }
  split.
  - intros u Hu. pose proof (node_in_range state Hrange u Hu) as Hr.
    destruct (proj2 (Hkeep u Hu)) as [[HPu HLu]|Hod].
    + left. split; unfold np_zeros; apply lookup_replicate_2; lia.
    + left. split; apply np_get_lookup; try done; lia.
    + right. by apply Hrec.
  - intros i Hi. destruct (Hwalks i Hi) as (vs & o & Hwalk & Hagree).
    exists (length vs), o. split_and!; [by eapply walk_to_follow|by eapply walk_to_output|].
    intros k' u Hk' Hfollow.
    destruct (lookup_lt_is_Some_2 (vs ++ [o]) k') as [u' Hu'].
    { rewrite length_app. cbn. lia. }
    pose proof (walk_to_follow_at _ _ _ _ _ _ _ _ Hwalk Hagree Hu') as Hfollow'.
    assert (u' = u) as -> by congruence.
    assert (u ∈ vs ++ [o]) as Hin by by eapply list_elem_of_lookup_2.
    assert (u ∈ graph_nodes (graph state)) as Hun
      by (eapply walk_to_graph_nodes; [done|done|done|by apply Hins|done]).
    apply Hrec; [done|]. by eapply Hon.
Qed.

Lemma chain_decomposition_records_witness :
  (∀ u, u ∈ graph_nodes (graph path_state) →
     (np_get [0; 0; 0; 0; 0] u = Ok 0 ∧ np_get [0; 1; 2; 3; 4] u = Ok 0)
     ∨ recorded path_state path_f [0; 0; 0; 0; 0] [0; 1; 2; 3; 4] u)
  ∧ (∀ i, i ∈ input_nodes path_state →
       ∃ k o, follow path_f k i = Some o ∧ o ∈ output_nodes path_state
              ∧ ∀ k' u, (k' ≤ k)%nat → follow path_f k' i = Some u →
                  recorded path_state path_f [0; 0; 0; 0; 0] [0; 1; 2; 3; 4] u).
Proof.
  apply (chain_decomposition_records 5 path_state (PyDiGraph path_cover));
    [by_compute|by_compute| |vm_compute; reflexivity|vm_compute; reflexivity].
  intros i Hi. vm_compute in Hi. apply list_elem_of_singleton in Hi as ->. by_compute.
Defined.

(** ** The table that [_init_status] builds *)

Lemma vertex2index_fold_index (l : list Z) (a : nat) (m : gmap Z nat) k r :
  foldl (λ m p, <[p.2:=p.1]> m) m (zip (seq a (length l)) l) !! k = Some r →
  m !! k = Some r ∨ ∃ j, r = (a + j)%nat ∧ l !! j = Some k.
Proof.
  revert a m. induction l as [|x l IH]; intros a m; cbn [length seq zip zip_with foldl].
  { by left. }
  intros [Hm|(j & -> & Hj)]%IH.
  - cbn [fst snd] in Hm. rewrite lookup_insert in Hm. case_decide as Hx; [|by left].
    injection Hm as <-. subst x. right. exists 0%nat. split; [lia|done].
  - right. exists (S j). split; [lia|done].
Qed.

Lemma vertex2index_index ins i r :
  dict_get (vertex2index ins) i = Ok r → ins !! r = Some i.
Proof.
  unfold dict_get, vertex2index.
  destruct (foldl _ _ _ !! i) as [r'|] eqn:E; [|done]. intros [= ->].
  apply vertex2index_fold_index in E as [E|(j & -> & Hj)]; [done|]. done.
Qed.

Lemma cell_np_get2 rows cols sup r v x :
  sup_shape rows cols sup → 0 ≤ v < Z.of_nat cols →
  cell sup r v = Some x → np_get2 sup r v = Ok x.
Proof.
  intros [Hlen Hrows] Hv. unfold cell, np_get2.
  destruct (sup !! r) as [row|] eqn:Hrow; [|done]. cbn [mbind option_bind].
  assert (length row = cols) as Hc
    by (eapply (proj1 (Forall_forall _ _) Hrows), list_elem_of_lookup_2, Hrow).
  intros Hx. apply np_get_lookup; [lia|done].
Qed.

Lemma np_set2_cell rows cols sup r v x sup' :
  sup_shape rows cols sup → 0 ≤ v < Z.of_nat cols →
  np_set2 sup r v x = Ok sup' →
  sup_shape rows cols sup' ∧ cell sup' r v = Some x
  ∧ ∀ r' u, 0 ≤ u → (r' ≠ r ∨ u ≠ v) → cell sup' r' u = cell sup r' u.
Proof.
  intros [Hlen Hrows] Hv. unfold np_set2.
  destruct (sup !! r) as [row|] eqn:Hrow; [|done].
  assert (length row = cols) as Hc
    by (eapply (proj1 (Forall_forall _ _) Hrows), list_elem_of_lookup_2, Hrow).
  rewrite np_set_in_range by lia. cbn [mbind res_bind]. intros [= <-].
  assert (r < length sup)%nat as Hr by (eapply lookup_lt_Some, Hrow).
  split_and!.
  - split; [by rewrite length_insert|]. apply Forall_insert; [done|by rewrite length_insert].
  - unfold cell. rewrite list_lookup_insert_eq by done. cbn [mbind option_bind].
    apply list_lookup_insert_eq. lia.
  - intros r' u Hu Hne. unfold cell. destruct (decide (r' = r)) as [->|Hr'].
    + rewrite list_lookup_insert_eq, Hrow by done. cbn [mbind option_bind].
      apply list_lookup_insert_ne. destruct Hne as [?|?]; [done|lia].
    + by rewrite list_lookup_insert_ne.
Qed.

Section InitStatus.
Context (state : GraphStateCircuit) (P L : list Z).
Hypothesis Hrange : labels_in_range state.

Local Abbreviation rows := (length (input_nodes state)).
Local Abbreviation cols := (number_of_nodes state).

Lemma init_inputs_cells v ins sup sup' :
  v ∈ graph_nodes (graph state) → sup_shape rows cols sup →
  init_inputs state P L v ins sup = Ok sup' →
  sup_shape rows cols sup'
  ∧ (∀ r u, 0 ≤ u → u ≠ v → cell sup' r u = cell sup r u)
  ∧ (∀ r, cell sup' r v = cell sup r v
          ∨ ∃ i x, input_nodes state !! r = Some i ∧ init_value state P L i v = Ok x
                   ∧ cell sup' r v = Some x)
  ∧ (∀ i, i ∈ ins →
       ∃ r x, dict_get (vertex2index (input_nodes state)) i = Ok r
              ∧ init_value state P L i v = Ok x ∧ cell sup' r v = Some x).
Proof.
  intros Hv. pose proof (node_in_range state Hrange v Hv) as Hr.
  revert sup. induction ins as [|i ins IH]; intros sup Hsup; cbn [init_inputs].
  { intros [= <-]. split_and!; [done|done|by left|by intros i ?%elem_of_nil]. }
  intros (pv & Hpv & (sup1 & Hset & Hrec)%res_bind_Ok)%res_bind_Ok.
  assert (∃ r x, dict_get (vertex2index (input_nodes state)) i = Ok r
                 ∧ init_value state P L i v = Ok x ∧ np_set2 sup r v x = Ok sup1)
    as (r & x & Hri & Hx & Hset1).
  { unfold init_value. rewrite Hpv. cbn [mbind res_bind]. case_decide.
    - apply res_bind_Ok in Hset as (lv & Hlv & (r & Hri & Hset)%res_bind_Ok). by exists r, lv.
    - apply res_bind_Ok in Hset as (r & Hri & Hset). by eexists r, _. }
  destruct (np_set2_cell _ _ _ _ _ _ _ Hsup Hr Hset1) as (Hsup1 & Hcell1 & Hother1).
  apply IH in Hrec as (Hsup' & Hother' & Hcol' & Hins'); [|done].
  pose proof (vertex2index_index _ _ _ Hri) as Hidx.
  split_and!; [done| | |].
  - intros r' u Hu Hne. rewrite Hother' by done. apply Hother1; [done|by right].
  - intros r'. destruct (Hcol' r') as [Heq|?]; [|by right].
    destruct (decide (r' = r)) as [->|Hne].
    + right. exists i, x. by rewrite Heq.
    + left. rewrite Heq. apply Hother1; [lia|by left].
  - intros j [->|Hj]%elem_of_cons; [|by apply Hins'].
    exists r, x. split_and!; [done..|].
    destruct (Hcol' r) as [->|(i' & x' & Hi' & Hx' & ->)]; [done|]. congruence.
Qed.

Lemma init_nodes_cells vs sup status sup' status' :
  (∀ v, v ∈ vs → v ∈ graph_nodes (graph state)) → sup_shape rows cols sup →
  init_nodes state P L vs sup status = Ok (sup', status') →
  sup_shape rows cols sup'
  ∧ (∀ r u, 0 ≤ u → u ∉ vs → cell sup' r u = cell sup r u)
  ∧ (∀ v i, v ∈ vs → i ∈ input_nodes state →
       ∃ r x, dict_get (vertex2index (input_nodes state)) i = Ok r
              ∧ init_value state P L i v = Ok x ∧ cell sup' r v = Some x).
Proof.
  revert sup status. induction vs as [|v vs IH]; intros sup status Hvs Hsup; cbn [init_nodes].
  { intros [= <- <-]. split_and!; [done|done|by intros v i ?%elem_of_nil]. }
  intros (sup1 & Hinit & (status1 & _ & Hrec)%res_bind_Ok)%res_bind_Ok.
  assert (v ∈ graph_nodes (graph state)) as Hv by (apply Hvs; by left).
  apply init_inputs_cells in Hinit as (Hsup1 & Hother1 & _ & Hins1); [|done..].
  apply IH in Hrec as (Hsup' & Hother' & Hdone'); [|by intros u Hu; apply Hvs; right|done].
  pose proof (node_in_range state Hrange v Hv) as Hr.
  split_and!; [done| |].
  - intros r u Hu [Hne Hnin]%not_elem_of_cons. rewrite Hother' by done. by apply Hother1.
  - intros u i [->|Hu]%elem_of_cons Hi; [|by apply Hdone'].
    destruct (decide (v ∈ vs)) as [Hin|Hnin]; [by apply Hdone'|].
    destruct (Hins1 i Hi) as (r & x & Hri & Hx & Hcell). exists r, x.
    split_and!; [done..|]. rewrite Hother' by (done || lia). done.
Qed.
End InitStatus.

(** X22. [_init_status] on a state whose labels are the indices 0..|V|-1,
    with arrays [P] and [L] of length [|V|]: it returns; [status[v]] is 2
    for an output node and 0 for any other vertex; and for every input
    node [i] and vertex [v] the cell [sup[vertex2index[i], v]] holds
    [L[v]] when [i == P[v]] and [|V|] otherwise, also when an input node is
    listed twice. *)
Theorem init_status_table state P L :
  labels_in_range state →
  length P = number_of_nodes state → length L = number_of_nodes state →
  ∃ sup status,
    _init_status state P L = Ok (sup, status)
    ∧ (∀ v, v ∈ graph_nodes (graph state) →
         np_get status v = Ok (if decide (v ∈ output_nodes state) then 2 else 0))
    ∧ (∀ i v, i ∈ input_nodes state → v ∈ graph_nodes (graph state) →
         ∃ r pv lv,
           dict_get (vertex2index (input_nodes state)) i = Ok r
           ∧ np_get P v = Ok pv ∧ np_get L v = Ok lv
           ∧ np_get2 sup r v
             = Ok (if decide (i = pv) then lv else Z.of_nat (number_of_nodes state))).
Proof.
  intros Hrange HP HL. unfold _init_status.
  destruct (init_nodes_spec state Hrange P L (graph_nodes (graph state))
              (np_zeros2 (length (input_nodes state)) (number_of_nodes state))
              (np_zeros (number_of_nodes state)))
    as ([sup status] & Hinit & Hs & Hl & Hst);
    [done|apply np_zeros2_shape|apply length_replicate|done..|].
  cbn [fst snd] in *. exists sup, status. split; [done|].
  apply init_nodes_cells in Hinit as (_ & _ & Hcells); [|done|done|apply np_zeros2_shape].
  split.
  - intros v Hv. pose proof (node_in_range state Hrange v Hv) as Hr.
    apply np_get_lookup; [lia|]. rewrite (Hst v Hv). by rewrite decide_True.
  - intros i v Hi Hv. pose proof (node_in_range state Hrange v Hv) as Hr.
    destruct (Hcells v i Hv Hi) as (r & x & Hri & Hx & Hcell).
    destruct (np_get_in_range P v) as (pv & Hpv & _); [lia|].
    destruct (np_get_in_range L v) as (lv & Hlv & _); [lia|].
    exists r, pv, lv. split_and!; [done..|].
    apply (cell_np_get2 _ _ _ _ _ _ Hs Hr). rewrite Hcell. f_equal.
    unfold init_value in Hx. rewrite Hpv in Hx. cbn [mbind res_bind] in Hx.
    case_decide; congruence.
Qed.

Lemma init_status_table_witness :
  ∃ sup status,
    _init_status path_state [0; 0; 0; 0; 0] [0; 1; 2; 3; 4] = Ok (sup, status)
    ∧ (∀ v, v ∈ graph_nodes (graph path_state) →
         np_get status v = Ok (if decide (v ∈ output_nodes path_state) then 2 else 0))
    ∧ (∀ i v, i ∈ input_nodes path_state → v ∈ graph_nodes (graph path_state) →
         ∃ r pv lv,
           dict_get (vertex2index (input_nodes path_state)) i = Ok r
           ∧ np_get [0; 0; 0; 0; 0] v = Ok pv ∧ np_get [0; 1; 2; 3; 4] v = Ok lv
           ∧ np_get2 sup r v
             = Ok (if decide (i = pv) then lv else Z.of_nat (number_of_nodes path_state))).
Proof.
  apply (init_status_table path_state [0; 0; 0; 0; 0] [0; 1; 2; 3; 4]);
    [by_compute|reflexivity|reflexivity].
Defined.

(** ** No index or key error on labels in range *)

Lemma np_get_node_raises (E : exn → Prop) state a u :
  labels_in_range state → length a = number_of_nodes state →
  u ∈ graph_nodes (graph state) → raises_only E (np_get a u).
Proof.
  intros Hrange Hlen Hu. pose proof (node_in_range state Hrange u Hu) as Hr.
  destruct (np_get_in_range a u) as (x & -> & _); [lia|done].
Qed.

Lemma np_set_node_raises (E : exn → Prop) state a u x :
  labels_in_range state → length a = number_of_nodes state →
  u ∈ graph_nodes (graph state) → raises_only E (np_set a u x).
Proof.
  intros Hrange Hlen Hu. pose proof (node_in_range state Hrange u Hu) as Hr.
  by rewrite np_set_in_range by lia.
Qed.

Lemma first_pred_node state fam v p :
  cover_inv state fam → first_pred fam v = Ok p → p ∈ graph_nodes (graph state).
Proof.
  intros Hinv. destruct fam as [g|g]; [|done]. cbn [first_pred with_fam].
  unfold dg_predecessors. case_decide; [|done]. cbn [mbind res_bind].
  destruct (filter _ _) as [|[a b] l] eqn:E; [done|]. cbn. intros [= <-].
  assert ((a, b) ∈ filter (λ e : Z * Z, e.2 = v) (dg_edges g)) as Hin
    by (rewrite E; by left).
  apply list_elem_of_filter in Hin as [_ Hin].
  destruct (Hinv g eq_refl) as [He _].
  apply (proj1 (Forall_forall _ _) He) in Hin as (_ & _ & ns & Hns & _).
  apply graph_adj_node. by eexists.
Qed.

Section SearchIndex.
Context (state : GraphStateCircuit) (iter : Z) (E : exn → Prop).
Context (rec : fam_var → list Z → Z → res search_ret).
Hypothesis Hwf : wf_graph (graph state).
Hypothesis Hrange : labels_in_range state.
Hypothesis HAttr : E AttributeError.
Hypothesis HStop : E StopIteration.
Hypothesis HNX : E NetworkXError.
Hypothesis Hrec_post : ∀ fam visited u,
  search_inv state fam visited → cover_inv state fam →
  res_post (rec fam visited u)
           (λ ret, search_inv state ret.1.1 ret.1.2 ∧ cover_inv state ret.1.1).
Hypothesis Hrec_raise : ∀ fam visited u,
  search_inv state fam visited → cover_inv state fam →
  u ∈ graph_nodes (graph state) → raises_only E (rec fam visited u).

Lemma fam_edit_raises {A} (fam : fam_var) (w : Z) (k : DiGraph → res A) :
  (∀ g, raises_only E (k g)) →
  raises_only E (with_fam fam (λ g, ps ← dg_predecessors g w; p' ← py_next ps;
                                   g ← dg_remove_edge g p' w; k g)).
Proof.
  intros Hk. destruct fam as [g|g]; cbn [with_fam]; [|by apply raises_only_Raise].
  apply raises_only_bind; [by apply dg_predecessors_raises|intros ps _].
  apply raises_only_bind; [by apply py_next_raises|intros p' _].
  apply raises_only_bind; [by apply dg_remove_edge_raises|intros g' _]. apply Hk.
Qed.

Lemma pred_unvisited_index fam visited v :
  search_inv state fam visited → cover_inv state fam →
  raises_only E (pred_unvisited iter fam visited v).
Proof.
  intros [Hlen _] Hcov. unfold pred_unvisited.
  apply raises_only_bind; [by apply first_pred_raises|intros p Hp].
  apply raises_only_bind; [|done].
  eapply np_get_node_raises; [done..|]. by eapply first_pred_node.
Qed.

Lemma scan_neighbors_index v ws fam visited :
  ws ⊆ graph_nodes (graph state) →
  search_inv state fam visited → cover_inv state fam →
  raises_only E (scan_neighbors state iter rec v ws fam visited).
Proof.
  revert fam visited. induction ws as [|w ws IH]; intros fam visited Hws Hinv Hcov; [done|].
  assert (ws ⊆ graph_nodes (graph state)) as Hws' by (intros x Hx; apply Hws; by right).
  assert (w ∈ graph_nodes (graph state)) as Hw by (apply Hws; by left).
  cbn [scan_neighbors].
  apply raises_only_bind; [eapply np_get_node_raises; [done|apply Hinv|done]|intros x _].
  apply raises_only_bind.
  { repeat case_decide; try done. destruct fam; [done|by apply raises_only_Raise]. }
  intros [|] _; [|by apply IH].
  apply raises_only_bind; [destruct fam; [done|by apply raises_only_Raise]|intros ns _].
  case_decide.
  - apply raises_only_bind; [by apply Hrec_raise|].
    intros [[fam' visited'] status] Hret. apply Hrec_post in Hret as [Hinv' Hcov']; [|done..].
    cbn [fst snd] in *. destruct (py_truth status); [|by apply IH].
    apply raises_only_bind; [|done]. destruct fam'; [done|by apply raises_only_Raise].
  - apply raises_only_bind; [by apply pred_unvisited_index|].
    intros [|] _; [|by apply IH].
    apply raises_only_bind; [by apply first_pred_raises|intros p Hp].
    apply raises_only_bind; [apply Hrec_raise; [done..|by eapply first_pred_node]|].
    intros [[fam' visited'] status] Hret. apply Hrec_post in Hret as [Hinv' Hcov']; [|done..].
    cbn [fst snd] in *. destruct (py_truth status); [|by apply IH].
    apply raises_only_bind; [|done]. by apply fam_edit_raises.
Qed.

Lemma search_body_index fam visited v :
  v ∈ graph_nodes (graph state) →
  search_inv state fam visited → cover_inv state fam →
  raises_only E (search_body state iter rec fam visited v).
Proof.
  intros Hv Hinv Hcov. unfold search_body.
  apply raises_only_bind; [eapply np_set_node_raises; [done|apply Hinv|done]|].
  intros visited1 [_ Hlen1]%np_set_range.
  assert (search_inv state fam visited1) as Hinv1.
  { destruct Hinv as [Hlen Hfam]. split; [congruence|done]. }
  case_decide; [done|].
  apply raises_only_bind.
  { unfold owns_unvisited_pred.
    apply raises_only_bind; [destruct fam; [done|by apply raises_only_Raise]|intros ns _].
    repeat case_decide; try done. by apply pred_unvisited_index. }
  intros c _.
  apply raises_only_bind.
  { destruct c; [|done]. unfold reroot_pred.
    apply raises_only_bind; [by apply first_pred_raises|intros p Hp].
    apply raises_only_bind; [apply Hrec_raise; [done..|by eapply first_pred_node]|].
    intros [[fam' visited'] status] _. destruct (py_truth status); [|done].
    apply raises_only_bind; [|done].
    destruct fam' as [g|g]; cbn [with_fam] in *; [|by apply raises_only_Raise].
    apply raises_only_bind; [by apply dg_predecessors_raises|intros ps _].
    apply raises_only_bind; [by apply py_next_raises|intros p' _].
    by apply dg_remove_edge_raises. }
  intros [ret|[fam' visited']] Hr; [done|].
  assert (search_inv state fam' visited' ∧ cover_inv state fam') as [Hinv' Hcov'].
  { destruct c; [|by injection Hr as <- <-]. unfold reroot_pred in Hr.
    apply res_bind_Ok in Hr as (p & Hp & Hr).
    apply res_bind_Ok in Hr as ([[fam2 visited2] status] & Hret & Hr).
    apply Hrec_post in Hret; [|done..]. cbn [fst snd] in Hret.
    destruct (py_truth status); [|by injection Hr as <- <-].
    by apply res_bind_Ok in Hr as (g & _ & [=]). }
  apply raises_only_bind; [by apply graph_neighbors_raises|intros ws Hws].
  apply scan_neighbors_index; [|done..].
  unfold graph_neighbors in Hws.
  destruct (graph_adj (graph state) v) as [ns|] eqn:Hns; [|done]. injection Hws as <-.
  intros w Hw. by eapply wf_graph_neighbor.
Qed.
End SearchIndex.

Lemma _augmented_search_index (E : exn → Prop) fuel state fam iter visited v :
  wf_graph (graph state) → labels_in_range state →
  E AttributeError → E StopIteration → E NetworkXError →
  v ∈ graph_nodes (graph state) →
  search_inv state fam visited → cover_inv state fam →
  raises_only E (_augmented_search fuel state fam iter visited v).
Proof.
  intros Hwf Hrange HA HS HN. revert fam visited v.
  induction fuel as [|fuel IH]; intros fam visited v Hv Hinv Hcov; [done|].
  cbn [_augmented_search]. apply search_body_index; try done.
  - intros fam' visited' u Hinv' Hcov' ret Hret. split.
    + by apply (_augmented_search_nodes fuel state fam' iter visited' u Hwf Hinv' ret).
    + by apply (_augmented_search_edges fuel state fam' iter visited' u Hcov' ret).
  - intros. by apply IH.
Qed.

Lemma path_cover_loop_index (E : exn → Prop) fuel state ins fam visited iter :
  wf_graph (graph state) → labels_in_range state →
  E AttributeError → E StopIteration → E NetworkXError →
  ins ⊆ graph_nodes (graph state) →
  search_inv state fam visited → cover_inv state fam →
  raises_only E (path_cover_loop fuel state ins fam visited iter).
Proof.
  intros Hwf Hrange HA HS HN. revert fam visited iter.
  induction ins as [|i ins IH]; intros fam visited iter Hins Hinv Hcov;
    cbn [path_cover_loop]; [done|].
  apply raises_only_bind.
  { apply _augmented_search_index; try done. apply Hins. by left. }
  intros [[fam' visited'] status] Hret. destruct (negb _); [done|].
  apply IH.
  - intros x Hx. apply Hins. by right.
  - by apply (_augmented_search_nodes _ _ _ _ _ _ Hwf Hinv _ Hret).
  - by apply (_augmented_search_edges _ _ _ _ _ _ Hcov _ Hret).
Qed.

Lemma _build_path_cover_index (E : exn → Prop) fuel state :
  wf_graph (graph state) → labels_in_range state →
  E AttributeError → E StopIteration → E NetworkXError →
  input_nodes state ⊆ graph_nodes (graph state) →
  raises_only E (_build_path_cover fuel state).
Proof.
  intros Hwf Hrange HA HS HN Hins. unfold _build_path_cover.
  apply raises_only_bind.
  { apply path_cover_loop_index; try done.
    - split; [apply length_replicate|]. by intros g [= <-].
    - by intros g [= <-]. }
  intros [ret|[fam visited]] _; [done|].
  apply raises_only_bind; [destruct fam; [done|by apply raises_only_Raise]|intros ns _].
  case_decide; [|done]. destruct fam; [done|by apply raises_only_Raise].
Qed.

Lemma chain_walk_index (E : exn → Prop) fuel state C i v l f P L :
  wf_graph (graph state) → labels_in_range state →
  match C with
  | PyDiGraph g => Forall (cover_edge_ok state) (dg_edges g)
  | PyInt _ => True
  end →
  E AttributeError → E StopIteration → E NetworkXError →
  v ∈ graph_nodes (graph state) →
  length P = number_of_nodes state → length L = number_of_nodes state →
  raises_only E (chain_walk fuel state C i v l f P L).
Proof.
  intros Hwf Hrange Hedges HA HS HN. revert v l f P L.
  induction fuel as [|fuel IH]; intros v l f P L Hv HP HL; [done|]. cbn [chain_walk].
  assert (∀ x, raises_only E (np_set P v x)) as HsetP
    by (intros; by eapply np_set_node_raises).
  assert (∀ x, raises_only E (np_set L v x)) as HsetL
    by (intros; by eapply np_set_node_raises).
  case_decide.
  - apply raises_only_bind; [done|intros P1 _]. by apply raises_only_bind.
  - apply raises_only_bind.
    { destruct C; cbn [tau_successors]; [by apply raises_only_Raise|].
      by apply dg_successors_raises. }
    intros ss Hss. apply raises_only_bind; [by apply py_next_raises|intros w Hw].
    apply raises_only_bind; [done|intros P1 [_ HP1]%np_set_range].
    apply raises_only_bind; [done|intros L1 [_ HL1]%np_set_range].
    apply IH; [|congruence..]. by eapply (first_successor_node state C).
Qed.

Lemma chain_loop_index (E : exn → Prop) fuel state C ins f P L :
  wf_graph (graph state) → labels_in_range state →
  match C with
  | PyDiGraph g => Forall (cover_edge_ok state) (dg_edges g)
  | PyInt _ => True
  end →
  E AttributeError → E StopIteration → E NetworkXError →
  ins ⊆ graph_nodes (graph state) →
  length P = number_of_nodes state → length L = number_of_nodes state →
  raises_only E (chain_loop fuel state C ins f P L).
Proof.
  intros Hwf Hrange Hedges HA HS HN. revert f P L.
  induction ins as [|i ins IH]; intros f P L Hins HP HL; cbn [chain_loop]; [done|].
  apply raises_only_bind.
  { apply chain_walk_index; try done. apply Hins. by left. }
  intros [[f1 P1] L1] Hwalk.
  apply chain_walk_touched in Hwalk as (HP1 & HL1 & _).
  apply IH; [|congruence..]. intros x Hx. apply Hins. by right.
Qed.

Lemma flow_total state f v :
  successor_total state f → v ∈ outputc state → ∃ w, _flow_from_array state f v = Ok w.
Proof.
  intros Htotal Hv. unfold _flow_from_array. rewrite decide_True by done.
  apply list_elem_of_filter in Hv as [Hvo Hv].
  apply (proj1 (Forall_forall _ _) Htotal) in Hv as [?|[w Hw]]; [done|].
  exists w. unfold dict_get. by rewrite Hw.
Qed.

(** X23. On a state with a well-formed graph, labels 0..|V|-1 and input
    nodes among the vertices, [find_flow] raises neither IndexError nor
    KeyError: every array is indexed by a vertex of the graph, and every
    dict is read at a key that it holds. *)
Theorem find_flow_no_index_error set_iter fuel state sanity_check e :
  set_iteration set_iter → wf_graph (graph state) → labels_in_range state →
  input_nodes state ⊆ graph_nodes (graph state) →
  find_flow set_iter fuel state sanity_check = Raise e → ¬ index_error e.
Proof.
  intros Hiter Hwf Hrange Hins.
  set (E := λ e : exn, ¬ index_error e).
  assert (E ValueError ∧ E UserWarning ∧ E RuntimeError ∧ E AttributeError
          ∧ E StopIteration ∧ E NetworkXError ∧ E NetworkXUnfeasible)
    as (HV & HU & HR & HA & HS & HN & HX) by (split_and!; by intros [?|?]).
  revert e. change (raises_only E (find_flow set_iter fuel state sanity_check)).
  unfold find_flow. case_decide; [by apply raises_only_Raise|].
  apply raises_only_bind; [by apply _build_path_cover_index|intros C Hpc].
  destruct (truthy C); [|by apply raises_only_Raise].
  assert (match C with
          | PyDiGraph g => Forall (cover_edge_ok state) (dg_edges g)
          | PyInt _ => True
          end) as Hedges.
  { apply _build_path_cover_edges in Hpc. destruct C; [done|]. apply Hpc. }
  apply raises_only_bind.
  { apply chain_loop_index; try done; apply length_replicate. }
  intros [[f P] L] Hcd.
  destruct (_get_chain_decomposition_shape _ _ _ _ _ _ Hcd) as (HP & HL & Htotal).
  apply raises_only_bind.
  { destruct (_compute_suprema_table set_iter fuel (fuel `max` number_of_nodes state)
                state C f P L) as [sup Hsup]; [done..|lia|].
    destruct (_compute_suprema_mono set_iter fuel (fuel `max` number_of_nodes state)
                state f P L) as [->| ->]; [lia|done|by rewrite Hsup]. }
  intros [sup|] _; [|done].
  apply raises_only_bind.
  { apply flowgraph_loop_raises. intros v Hv.
    by destruct (flow_total state f v Htotal Hv) as [w ->]. }
  intros g Hg.
  assert (wf_digraph g) as Hwfg.
  { eapply flowgraph_loop_wf; [|exact Hg]. split; [constructor|by intros u v ?%elem_of_nil]. }
  apply raises_only_bind.
  { destruct (topological_sort_outcome fuel g Hwfg) as [->|[->|(order & -> & _)]];
      [done|by apply raises_only_Raise|done]. }
  intros top_order _. destruct sanity_check; [|done].
  apply raises_only_bind.
  - assert (∀ vs conds, (∀ v, v ∈ vs → v ∈ outputc state) →
      raises_only E (check_loop set_iter state (_flow_from_array state f)
                       top_order vs conds)) as Hck; [|by apply Hck].
    induction vs as [|i vs IH]; intros conds Hvs; cbn [check_loop]; [done|].
    destruct (flow_total state f i Htotal) as [w ->]; [apply Hvs; by left|].
    cbn [mbind res_bind].
    apply raises_only_bind; [by apply graph_neighbors_raises|intros nfi _].
    destruct (iter_contains i nfi) as [c1 rest].
    apply raises_only_bind; [by apply list_index_raises|intros oi _].
    apply raises_only_bind; [by apply list_index_raises|intros ofi _].
    apply raises_only_bind; [by apply order_before_raises|intros bs _].
    apply IH. intros v Hv. apply Hvs. by right.
  - intros c _. destruct (negb _); [by apply raises_only_Raise|done].
Qed.

Lemma find_flow_no_index_error_witness :
  ¬ index_error UserWarning.
Proof.
  apply (find_flow_no_index_error ascending 2 uncovered_state false UserWarning);
    [apply ascending_set_iteration|by_compute|by_compute| |vm_compute; reflexivity].
  intros i Hi. vm_compute in Hi. apply list_elem_of_singleton in Hi as ->. by_compute.
Defined.

(** ** A failed search leaves the family as it was *)

Section AugmentedSearchFailure.
Context (state : GraphStateCircuit) (iter : Z).
Context (rec : fam_var → list Z → Z → res search_ret).
Hypothesis Hrec : ∀ fam visited u, res_post (rec fam visited u) (failure_post fam).

Lemma scan_neighbors_failure v ws fam visited :
  res_post (scan_neighbors state iter rec v ws fam visited) (failure_post fam).
Proof.
  revert visited. induction ws as [|w ws IH]; intros visited.
  { intros ret [= <-]. split; [by left|done]. }
  cbn [scan_neighbors]. apply res_post_any; intros x.
  apply res_post_any; intros [|]; [|by apply IH].
  apply res_post_any; intros ns. case_decide.
  - eapply res_post_bind; [apply Hrec|]. intros [[fam' visited'] status] [Hst Hfam].
    cbn [fst snd] in *. destruct (py_truth status) eqn:Hs.
    + apply res_post_any; intros fam'' ret [= <-]. split; [by right|done].
    + rewrite Hfam; [apply IH|]. destruct Hst as [->| ->]; done.
  - apply res_post_any; intros [|]; [|by apply IH].
    apply res_post_any; intros p.
    eapply res_post_bind; [apply Hrec|]. intros [[fam' visited'] status] [Hst Hfam].
    cbn [fst snd] in *. destruct (py_truth status) eqn:Hs.
    + apply res_post_any; intros fam'' ret [= <-]. split; [by right|done].
    + rewrite Hfam; [apply IH|]. destruct Hst as [->| ->]; done.
Qed.

Lemma search_body_failure fam visited v :
  res_post (search_body state iter rec fam visited v) (failure_post fam).
Proof.
  unfold search_body. apply res_post_any; intros visited1.
  case_decide; [intros ret [= <-]; split; [by right|done]|].
  apply res_post_any; intros c.
  eapply (res_post_bind _ _ (λ r, match r with
                                   | inl ret => ret.2 = 1
                                   | inr p => p.1 = fam
                                   end)).
  - destruct c; [|by intros r [= <-]]. unfold reroot_pred.
    apply res_post_any; intros p.
    eapply res_post_bind; [apply Hrec|]. intros [[fam' visited'] status] [Hst Hfam].
    cbn [fst snd] in *. destruct (py_truth status) eqn:Hs.
    + by apply res_post_any; intros g r [= <-].
    + intros r [= <-]. apply Hfam. destruct Hst as [->| ->]; done.
  - intros [ret|[fam' visited']] Hr.
    + intros ? [= <-]. split; [by right|]. rewrite Hr. done.
    + cbn [fst] in Hr. subst fam'. apply res_post_any; intros ws.
      apply scan_neighbors_failure.
Qed.
End AugmentedSearchFailure.

(** X24. A returning call of [_augmented_search] has the status 0 or 1,
    and a call that reports failure (status 0) returns the family it was
    given: edges are only added or removed on the way back from a
    successful search. *)
Theorem augmented_search_failure fuel state fam iter visited v fam' visited' status :
  _augmented_search fuel state fam iter visited v = Ok (fam', visited', status) →
  (status = 0 ∨ status = 1) ∧ (status = 0 → fam' = fam).
Proof.
  revert fam visited v fam' visited' status.
  induction fuel as [|fuel IH]; intros fam visited v fam' visited' status; [done|].
  cbn [_augmented_search]. intros Hrun.
  apply (search_body_failure state iter _) in Hrun; [done|].
  intros fam0 visited0 u [[fam1 visited1] status1] Hret. by apply IH in Hret.
Qed.

Lemma augmented_search_failure_witness :
  (0 = 0 ∨ 0 = 1) ∧ (0 = 0 → FamRef dg_empty = FamRef dg_empty).
Proof.
  apply (augmented_search_failure 1 stuck_state (FamRef dg_empty) 1 [0] 0
           (FamRef dg_empty) [1] 0).
  vm_compute. reflexivity.
Defined.

(** ** The path cover as a system of chains *)

Lemma stamped_unstamped iter V u : stamped iter V u → unstamped iter V u → False.
Proof. intros (z & Hz & ?) (z' & Hz' & ?). simplify_eq. lia. Qed.

Lemma stamps_grow_refl iter V : stamps_grow iter V V.
Proof. split; [done|]. intros. by left. Qed.

Lemma stamps_grow_trans iter V1 V2 V3 :
  stamps_grow iter V1 V2 → stamps_grow iter V2 V3 → stamps_grow iter V1 V3.
Proof.
  intros [Hl1 H1] [Hl2 H2]. split; [congruence|]. intros j z Hz.
  destruct (H2 j z Hz) as [Hz2|?]; [|by right]. by apply H1.
Qed.

Lemma stamps_grow_stamped iter V V' u :
  stamps_grow iter V V' → stamped iter V u → stamped iter V' u.
Proof.
  intros [Hlen H] (z & Hz & Hle).
  destruct (lookup_lt_is_Some_2 V' (Z.to_nat u)) as [z' Hz'].
  { rewrite Hlen. by eapply lookup_lt_Some. }
  exists z'. split; [done|]. destruct (H _ _ Hz') as [?| ->]; [|lia]. simplify_eq. lia.
Qed.

Lemma stamps_grow_unstamped iter V V' u :
  stamps_grow iter V V' → unstamped iter V' u → unstamped iter V u.
Proof.
  intros [Hlen H] (z & Hz & Hlt). exists z. split; [|done].
  destruct (H _ _ Hz) as [?| ->]; [done|lia].
Qed.

Lemma stamps_grow_insert iter V j :
  stamps_grow iter V (<[j:=iter]> V).
Proof.
  split; [by rewrite length_insert|]. intros k z.
  destruct (decide (j = k)) as [->|Hne].
  - intros Hz. right. apply list_lookup_insert_Some in Hz as [(_ & ? & _)|[? _]]; done.
  - rewrite list_lookup_insert_ne by done. by left.
Qed.

Lemma rtc_remove_edge (R : relation Z) p w a b :
  rtc R a b →
  rtc (λ u v, R u v ∧ (u, v) ≠ (p, w)) a b
  ∨ rtc (λ u v, R u v ∧ (u, v) ≠ (p, w)) w b.
Proof.
  induction 1 as [a|a a' b Hstep Hrtc IH]; [by left|].
  destruct IH as [IH|IH]; [|by right].
  destruct (decide ((a, a') = (p, w))) as [[= -> ->]|Hne]; [by right|].
  left. by eapply rtc_l.
Qed.

Lemma rtc_impl (R1 R2 : relation Z) a b :
  (∀ u v, R1 u v → R2 u v) → rtc R1 a b → rtc R2 a b.
Proof. intros H. induction 1; [done|]. eapply rtc_l; eauto. Qed.

(** A path that ends at [x] and all of whose edges are kept. *)
Lemma rtc_kept (R1 R2 : relation Z) a x :
  (∀ u v, R1 u v → rtc R1 v x → R2 u v) → rtc R1 a x → rtc R2 a x.
Proof.
  intros H. induction 1 as [|a a' x Hstep Hrtc IH]; [done|].
  eapply rtc_l; [by apply H|]. by apply IH.
Qed.

Lemma pred_closed_path iter g0 V b x :
  pred_closed iter g0 V → rtc (dg_edge g0) b x → stamped iter V x → stamped iter V b.
Proof.
  intros Hcl. induction 1 as [|b b' x Hstep Hrtc IH]; [done|].
  intros Hx. eapply Hcl; [done|]. by apply IH.
Qed.

Lemma augmented_weaken state iter srcs g0 V V' x g' :
  stamps_grow iter V V' →
  augmented state iter srcs g0 V' x g' → augmented state iter srcs g0 V x g'.
Proof.
  intros Hg (A1 & A2 & A3 & A4 & A5 & A6 & A7 & A8 & A9 & A10).
  split_and!; try done.
  - intros a b H0 H'. destruct (A4 a b H0 H') as [Hu ?]. split; [|done].
    by eapply stamps_grow_unstamped.
  - intros a b H' H0. destruct (A5 a b H' H0) as (Ha & Hb & ?). split_and!; [|by eapply stamps_grow_unstamped|done].
    destruct Ha as [?|?]; [by left|right; by eapply stamps_grow_unstamped].
Qed.

Section Augment.
Context (state : GraphStateCircuit) (iter : Z) (srcs : list Z) (g0 : DiGraph).
Hypothesis Hinv : chains_inv state srcs g0.

(** The search from an output node leaves the family as it is. *)
Lemma augmented_output V x : augmented state iter srcs g0 V x g0.
Proof.
  destruct Hinv as (Hok & Hnodes & Hclosed & Hout & Hin & Hroot).
  split_and!; try done.
  - intros u w1 w2 _. apply Hout.
  - exists 0. intros w ?. by left.
  - intros y Hy. left. by apply Hroot.
Qed.

(** Lines 192-195: the neighbour [w] is not in the family, the search from
    [w] has succeeded, and the edge from [x] to [w] is added. *)
Lemma augmented_add V x w g1 :
  stamped iter V x → unstamped iter V w → pred_closed iter g0 V →
  x ∈ graph_nodes (graph state) → w ∈ graph_nodes (graph state) →
  w ∉ dg_nodes g0 →
  augmented state iter srcs g0 V w g1 →
  augmented state iter srcs g0 V x (dg_add_edge g1 x w).
Proof.
  destruct Hinv as (Hok & Hnodes & Hclosed & Hout & Hin & Hroot).
  intros Hx Hw Hcl Hxn Hwn Hfresh (A1 & A2 & A3 & A4 & A5 & A6 & A7 & A8 & A9 & A10).
  assert (x ≠ w) as Hxw by (intros ->; by eapply stamped_unstamped).
  assert (∀ a b, dg_edge (dg_add_edge g1 x w) a b ↔ dg_edge g1 a b ∨ (a, b) = (x, w)) as Hedge
    by (intros; apply dg_add_edge_edges).
  assert (∀ b, ¬ dg_edge g0 w b) as Hw0
    by (intros b Hb; by apply Hclosed in Hb as [? _]).
  assert (∀ a, ¬ dg_edge g0 a w) as Hw0'
    by (intros a Ha; by apply Hclosed in Ha as [_ ?]).
  assert (∀ a, ¬ dg_edge g1 a w) as Hw1.
  { intros a Ha. destruct (A5 a w Ha) as (_ & _ & ?); [apply Hw0'|done]. }
  assert (∀ b, dg_edge g1 x b → dg_edge g0 x b) as Hx1.
  { intros b Hb. destruct (decide (dg_edge g0 x b)) as [|Hn]; [done|].
    destruct (A5 x b Hb Hn) as ([?|Hu] & _); [done|]. by destruct (stamped_unstamped iter V x). }
  split_and!.
  - intros y [Hy|[->| ->]]%dg_add_edge_nodes_iff; [by apply A1|done..].
  - intros a b [Hab|Heq]%Hedge; rewrite !dg_add_edge_nodes_iff.
    + destruct (A2 a b Hab). by split; left.
    + simplify_eq. split; [right; by left|right; by right].
  - intros y Hy. apply dg_add_edge_nodes_iff. left. by apply A3.
  - intros a b H0 H'. destruct (A4 a b H0) as [Hu ?]; [intros ?; apply H', Hedge; by left|].
    split; [done|]. intros ->. by eapply stamped_unstamped.
  - intros a b [Hab|Heq]%Hedge H0.
    + destruct (A5 a b Hab H0) as (Ha & Hb & Hbw). split_and!; [|done|].
      * destruct Ha as [->|?]; right; done.
      * intros ->. by eapply stamped_unstamped.
    + simplify_eq. split_and!; [by left|done|done].
  - intros u w1 w2 Hu [H1|Heq1]%Hedge [H2|Heq2]%Hedge; [|by simplify_eq..].
    destruct (decide (u = w)) as [->|Huw]; [|by eapply A6].
    destruct A7 as [t Ht].
    destruct (Ht w1 H1) as [?| ->]; [by destruct (Hw0 w1)|].
    destruct (Ht w2 H2) as [?| ->]; [by destruct (Hw0 w2)|done].
  - exists w. intros b [Hb|Heq]%Hedge; [left; by apply Hx1|simplify_eq; by right].
  - intros u1 u2 y [H1|Heq1]%Hedge [H2|Heq2]%Hedge.
    + by eapply A8.
    + simplify_eq. by destruct (Hw1 u1).
    + simplify_eq. by destruct (Hw1 u2).
    + by simplify_eq.
  - intros y [Hy|[->| ->]]%dg_add_edge_nodes_iff.
    + destruct (A9 y Hy) as [(i & Hi & Hpath)|Hpath].
      * left. exists i. split; [done|]. eapply rtc_impl; [|done]. intros; apply Hedge; by left.
      * right. eapply rtc_l; [apply Hedge; by right|].
        eapply rtc_impl; [|done]. intros; apply Hedge; by left.
    + by right.
    + right. apply rtc_once. apply Hedge. by right.
  - intros a b H0 Hpath. apply Hedge. left.
    destruct (decide (dg_edge g1 a b)) as [|Hn]; [done|].
    destruct (A4 a b H0 Hn) as [Hu _].
    destruct (stamped_unstamped iter V a); [|done].
    eapply Hcl; [done|]. by eapply pred_closed_path.
Qed.

(** Lines 196-203: the neighbour [w] has the predecessor [p], the search
    from [p] has succeeded, the edge from [p] to [w] is removed and the
    edge from [x] to [w] is added. *)
Lemma augmented_replace V x w p g1 g1' :
  stamped iter V x → unstamped iter V w → unstamped iter V p → pred_closed iter g0 V →
  x ∈ graph_nodes (graph state) →
  dg_edge g0 p w → ¬ dg_edge g0 x w →
  augmented state iter srcs g0 V p g1 →
  dg_remove_edge g1 p w = Ok g1' →
  augmented state iter srcs g0 V x (dg_add_edge g1' x w).
Proof.
  destruct Hinv as (Hok & Hnodes & Hclosed & Hout & Hin & Hroot).
  intros Hx Hw Hp Hcl Hxn Hpw Hxw0 (A1 & A2 & A3 & A4 & A5 & A6 & A7 & A8 & A9 & A10) Hrem.
  assert (x ≠ w) as Hxw by (intros ->; by eapply stamped_unstamped).
  assert (x ≠ p) as Hxp by (intros ->; by eapply stamped_unstamped).
  assert (dg_nodes g1' = dg_nodes g1) as Hn1 by by eapply dg_remove_edge_nodes.
  assert (∀ a b, dg_edge g1' a b ↔ dg_edge g1 a b ∧ (a, b) ≠ (p, w)) as Hedge1.
  { intros a b. unfold dg_remove_edge in Hrem. case_decide; [|done].
    injection Hrem as <-. unfold dg_edge. cbn [dg_edges].
    by rewrite list_elem_of_filter, (comm and). }
  assert (∀ a b, dg_edge (dg_add_edge g1' x w) a b
                 ↔ (dg_edge g1 a b ∧ (a, b) ≠ (p, w)) ∨ (a, b) = (x, w)) as Hedge.
  { intros a b. unfold dg_edge at 1. rewrite dg_add_edge_edges. by rewrite <-Hedge1. }
  assert (dg_edge g1 p w) as Hpw1.
  { destruct (decide (dg_edge g1 p w)) as [|Hn]; [done|].
    by destruct (A4 p w Hpw Hn) as [_ ?]. }
  assert (∀ b, dg_edge g1 x b → dg_edge g0 x b) as Hx1.
  { intros b Hb. destruct (decide (dg_edge g0 x b)) as [|Hn]; [done|].
    destruct (A5 x b Hb Hn) as ([?|Hu] & _); [done|]. by destruct (stamped_unstamped iter V x). }
  assert (w ∈ dg_nodes g1) as Hwn1 by (apply A3; by apply Hclosed in Hpw as [_ ?]).
  assert (∀ y, y ∈ dg_nodes g1 → ∃ i, i ∈ srcs ∧ rtc (dg_edge g1) i y) as Hroot1.
  { assert (∃ i, i ∈ srcs ∧ rtc (dg_edge g1) i p) as (i & Hi & Hip).
    { destruct (Hroot p) as (i & Hi & Hip); [by apply Hclosed in Hpw as [? _]|].
      exists i. split; [done|]. eapply rtc_kept; [|done]. apply A10. }
    intros y Hy. destruct (A9 y Hy) as [?|Hpy]; [done|].
    exists i. split; [done|]. by etrans. }
  split_and!.
  - intros y [Hy|[->| ->]]%dg_add_edge_nodes_iff; [apply A1; by rewrite <-Hn1|done|by apply A1].
  - intros a b [[Hab _]|Heq]%Hedge; rewrite !dg_add_edge_nodes_iff, !Hn1.
    + destruct (A2 a b Hab). by split; left.
    + simplify_eq. split; [right; by left|right; by right].
  - intros y Hy. apply dg_add_edge_nodes_iff. left. rewrite Hn1. by apply A3.
  - intros a b H0 H'.
    destruct (decide ((a, b) = (p, w))) as [Heq|Hne]; [by simplify_eq|].
    destruct (A4 a b H0) as [Hu ?]; [intros ?; apply H', Hedge; by left|].
    split; [done|]. intros ->. by eapply stamped_unstamped.
  - intros a b [[Hab _]|Heq]%Hedge H0.
    + destruct (A5 a b Hab H0) as (Ha & Hb & Hbw). split_and!; [|done|].
      * destruct Ha as [->|?]; right; done.
      * intros ->. by eapply stamped_unstamped.
    + simplify_eq. split_and!; [by left|done|done].
  - intros u w1 w2 Hu [[H1 Hn1']|Heq1]%Hedge [[H2 Hn2']|Heq2]%Hedge; [|by simplify_eq..].
    destruct (decide (u = p)) as [->|Hup]; [|by eapply A6].
    destruct A7 as [t Ht].
    assert (∀ b, dg_edge g1 p b → (p, b) ≠ (p, w) → b = t) as Hpt.
    { intros b Hb Hne. destruct (Ht b Hb) as [Hb0|?]; [|done].
      destruct Hne. f_equal. by eapply Hout. }
    rewrite (Hpt w1), (Hpt w2); done.
  - exists w. intros b [[Hb _]|Heq]%Hedge; [left; by apply Hx1|simplify_eq; by right].
  - intros u1 u2 y [[H1 Hn1']|Heq1]%Hedge [[H2 Hn2']|Heq2]%Hedge.
    + by eapply A8.
    + simplify_eq. destruct Hn1'. f_equal. by eapply A8.
    + simplify_eq. destruct Hn2'. f_equal. by eapply A8.
    + by simplify_eq.
  - intros y [Hy|[->| ->]]%dg_add_edge_nodes_iff.
    + rewrite Hn1 in Hy. destruct (Hroot1 y Hy) as (i & Hi & Hpath).
      destruct (rtc_remove_edge _ p w _ _ Hpath) as [Hp'|Hp'].
      * left. exists i. split; [done|]. eapply rtc_impl; [|done].
        intros u v ?. apply Hedge. by left.
      * right. eapply rtc_l; [apply Hedge; by right|].
        eapply rtc_impl; [|done]. intros u v ?. apply Hedge. by left.
    + by right.
    + right. apply rtc_once. apply Hedge. by right.
  - intros a b H0 Hpath. apply Hedge. left.
    assert (stamped iter V a) as Ha.
    { eapply Hcl; [done|]. by eapply pred_closed_path. }
    split.
    + destruct (decide (dg_edge g1 a b)) as [|Hn]; [done|].
      destruct (A4 a b H0 Hn) as [Hu _]. by destruct (stamped_unstamped iter V a).
    + intros Heq. simplify_eq. by eapply stamped_unstamped.
Qed.
End Augment.

Lemma first_pred_edge g w p : first_pred (FamRef g) w = Ok p → dg_edge g p w.
Proof.
  unfold first_pred. cbn [with_fam]. intros (ps & Hps & Hp)%res_bind_Ok.
  unfold dg_predecessors in Hps. case_decide; [|done]. injection Hps as <-.
  destruct (filter _ _) as [|[a b] l] eqn:Hfl; [done|]. cbn in Hp. injection Hp as ->.
  assert ((p, b) ∈ filter (λ e : Z * Z, e.2 = w) (dg_edges g)) as Hin
    by (rewrite Hfl; by left).
  apply list_elem_of_filter in Hin as [Hb Hin]. cbn in Hb. by subst b.
Qed.

Lemma stamped_insert_eq iter V x :
  (Z.to_nat x < length V)%nat → stamped iter (<[Z.to_nat x:=iter]> V) x.
Proof. intros. exists iter. split; [by apply list_lookup_insert_eq|lia]. Qed.

Lemma stamped_insert_ne iter V x u :
  0 ≤ x → 0 ≤ u → u ≠ x →
  stamped iter (<[Z.to_nat x:=iter]> V) u → stamped iter V u.
Proof.
  intros Hx Hu Hne (z & Hz & Hle). exists z. split; [|done].
  rewrite list_lookup_insert_ne in Hz by lia. done.
Qed.

Section SearchChains.
Context (state : GraphStateCircuit) (iter : Z) (srcs : list Z) (g0 : DiGraph).
Hypothesis Hwf : wf_graph (graph state).
Hypothesis Hrange : labels_in_range state.
Hypothesis Hcover : cover_inv state (FamRef g0).
Hypothesis Hinv : chains_inv state srcs g0.
Context (rec : fam_var → list Z → Z → res search_ret).
Hypothesis Hrec : ∀ V x,
  length V = number_of_nodes state → x ∈ graph_nodes (graph state) →
  unstamped iter V x → pred_closed_but iter g0 V x →
  res_post (rec (FamRef g0) V x) (search_ok state iter srcs g0 V x).

Lemma chains_node_range x :
  x ∈ graph_nodes (graph state) → 0 ≤ x < Z.of_nat (number_of_nodes state).
Proof. intros Hx. by apply (proj1 (Forall_forall _ _) Hrange). Qed.

Lemma chains_np_get V x z :
  length V = number_of_nodes state → x ∈ graph_nodes (graph state) →
  np_get V x = Ok z → V !! Z.to_nat x = Some z.
Proof.
  intros Hlen Hx Hz. destruct (np_get_in_range V x) as (z' & Hz' & Hl).
  { rewrite Hlen. by apply chains_node_range. }
  congruence.
Qed.

Lemma scan_neighbors_chains x ws V :
  length V = number_of_nodes state → x ∈ graph_nodes (graph state) →
  stamped iter V x → pred_closed iter g0 V →
  (∀ w, w ∈ ws → w ∈ graph_nodes (graph state)) →
  res_post (scan_neighbors state iter rec x ws (FamRef g0) V) (λ ret,
    stamps_grow iter V ret.1.2
    ∧ (ret.2 = 0 → ret.1.1 = FamRef g0 ∧ pred_closed iter g0 ret.1.2)
    ∧ (ret.2 ≠ 0 → ∃ g', ret.1.1 = FamRef g' ∧ augmented state iter srcs g0 V x g')).
Proof.
  destruct Hinv as (Hok & Hnodes & Hclosed & Hout & Hin & Hroot).
  intros Hlen Hx. revert V Hlen. induction ws as [|w ws IH]; intros V Hlen Hst Hcl Hws ret.
  { intros [= <-]. split_and!; [apply stamps_grow_refl|done|done]. }
  assert (w ∈ graph_nodes (graph state)) as Hw by (apply Hws; by left).
  assert (∀ w', w' ∈ ws → w' ∈ graph_nodes (graph state)) as Hws'
    by (intros; apply Hws; by right).
  (* what the loop does after a failed call *)
  assert (∀ V', length V' = number_of_nodes state → stamps_grow iter V V' →
            pred_closed iter g0 V' →
            scan_neighbors state iter rec x ws (FamRef g0) V' = Ok ret →
            stamps_grow iter V ret.1.2
            ∧ (ret.2 = 0 → ret.1.1 = FamRef g0 ∧ pred_closed iter g0 ret.1.2)
            ∧ (ret.2 ≠ 0 → ∃ g', ret.1.1 = FamRef g' ∧ augmented state iter srcs g0 V x g'))
    as Hnext.
  { intros V' Hlen' Hgrow Hcl' Hscan.
    destruct (IH V' Hlen' (stamps_grow_stamped _ _ _ _ Hgrow Hst) Hcl' Hws' ret Hscan)
      as (Hg & H0 & H1).
    split_and!; [by eapply stamps_grow_trans|done|].
    intros Hne. destruct (H1 Hne) as (g' & ? & Haug). exists g'. split; [done|].
    by eapply augmented_weaken. }
  cbn [scan_neighbors].
  intros (z & Hz & Hscan)%res_bind_Ok.
  apply chains_np_get in Hz; [|done..].
  apply res_bind_Ok in Hscan as (c & Hc & Hscan).
  destruct c; cycle 1.
  { apply (Hnext V); [done|apply stamps_grow_refl|done|done]. }
  destruct (decide (z < iter)) as [Hzlt|]; [|done].
  destruct (decide (w ∉ input_nodes state)) as [Hwin|]; [|done].
  cbn [with_fam mbind res_bind] in Hc. injection Hc as Hhe.
  apply negb_true_iff in Hhe. unfold dg_has_edge in Hhe.
  apply bool_decide_eq_false in Hhe.
  assert (unstamped iter V w) as Hwun by by exists z.
  cbn [with_fam mbind res_bind] in Hscan.
  destruct (decide (w ∉ dg_nodes g0)) as [Hfresh|Hold].
  - (* the neighbour is not in the family *)
    apply res_bind_Ok in Hscan as ([[fam' V'] status] & Hcall & Hscan).
    apply Hrec in Hcall as (Hgrow & Hstw & H0 & H1); [|done|done|done|].
    2: { intros p u Hpu Hu. left. by eapply Hcl. }
    cbn [fst snd] in *.
    assert (length V' = number_of_nodes state) as Hlen' by (destruct Hgrow; congruence).
    destruct (py_truth status) eqn:Hs.
    + unfold py_truth in Hs. apply bool_decide_eq_true in Hs.
      destruct (H1 Hs) as [(g & -> & _)|(g1 & -> & Haug)]; [done|].
      cbn [with_fam mbind res_bind] in Hscan. injection Hscan as <-. cbn [fst snd].
      split_and!; [done|done|]. intros _. eexists. split; [done|].
      by apply augmented_add.
    + unfold py_truth in Hs. apply bool_decide_eq_false, dec_stable in Hs.
      destruct (H0 Hs) as [-> Hcl']. by apply (Hnext V').
  - (* the neighbour has a predecessor *)
    apply dec_stable in Hold.
    apply res_bind_Ok in Hscan as (c' & Hc' & Hscan).
    unfold pred_unvisited in Hc'.
    apply res_bind_Ok in Hc' as (p & Hp & Hc').
    apply res_bind_Ok in Hc' as (zp & Hzp & [= <-]).
    pose proof (first_pred_edge _ _ _ Hp) as Hpw.
    assert (p ∈ graph_nodes (graph state)) as Hpn
      by (apply Hnodes; by apply Hclosed in Hpw as [? _]).
    apply chains_np_get in Hzp; [|done..].
    case_bool_decide as Hzp'; cycle 1.
    { apply (Hnext V); [done|apply stamps_grow_refl|done|done]. }
    rewrite Hp in Hscan. cbn [mbind res_bind] in Hscan.
    assert (unstamped iter V p) as Hpun by by exists zp.
    apply res_bind_Ok in Hscan as ([[fam' V'] status] & Hcall & Hscan).
    apply Hrec in Hcall as (Hgrow & Hstp & H0 & H1); [|done|done|done|].
    2: { intros p' u Hpu Hu. left. by eapply Hcl. }
    cbn [fst snd] in *.
    assert (length V' = number_of_nodes state) as Hlen' by (destruct Hgrow; congruence).
    destruct (py_truth status) eqn:Hs.
    + unfold py_truth in Hs. apply bool_decide_eq_true in Hs.
      destruct (H1 Hs) as [(g & -> & _)|(g1 & -> & Haug)]; [done|].
      cbn [with_fam] in Hscan.
      apply res_bind_Ok in Hscan as (fam'' & Hfam & [= <-]). cbn [fst snd].
      apply res_bind_Ok in Hfam as (ps & Hps & Hfam).
      apply res_bind_Ok in Hfam as (p' & Hp' & Hfam).
      apply res_bind_Ok in Hfam as (g1' & Hrem & [= <-]).
      assert (first_pred (FamRef g1) w = Ok p') as Hfp
        by (unfold first_pred; cbn [with_fam]; by rewrite Hps).
      apply first_pred_edge in Hfp.
      assert (dg_edge g1 p w) as Hpw1.
      { destruct Haug as (_ & _ & _ & A4 & _).
        destruct (decide (dg_edge g1 p w)) as [|Hn]; [done|].
        by destruct (A4 p w Hpw Hn) as [_ ?]. }
      assert (p' = p) as ->.
      { destruct Haug as (_ & _ & _ & _ & _ & _ & _ & A8 & _). by eapply A8. }
      split_and!; [done|done|]. intros _. eexists. split; [done|].
      by eapply (augmented_replace state iter srcs g0 Hinv V x w p).
    + unfold py_truth in Hs. apply bool_decide_eq_false, dec_stable in Hs.
      destruct (H0 Hs) as [-> Hcl']. by apply (Hnext V').
Qed.

Lemma search_body_chains V x :
  length V = number_of_nodes state → x ∈ graph_nodes (graph state) →
  unstamped iter V x → pred_closed_but iter g0 V x →
  res_post (search_body state iter rec (FamRef g0) V x) (search_ok state iter srcs g0 V x).
Proof.
  pose proof Hinv as (Hok & Hnodes & Hclosed & Hout & Hin & Hroot).
  intros Hlen Hx Hun Hcl ret. unfold search_body.
  pose proof (chains_node_range x Hx) as Hxr.
  rewrite np_set_in_range by (by rewrite Hlen). cbn [mbind res_bind].
  set (V1 := <[Z.to_nat x:=iter]> V).
  assert (stamps_grow iter V V1) as Hg1 by apply stamps_grow_insert.
  assert (length V1 = number_of_nodes state) as Hlen1 by (destruct Hg1; congruence).
  assert (stamped iter V1 x) as Hst1 by (apply stamped_insert_eq; lia).
  case_decide as Hout'.
  { intros [= <-]. split_and!; [done|done|done|]. intros _. right. eexists. split; [done|].
    by apply augmented_output. }
  (* the predecessors of stamped vertices other than [x] are stamped *)
  assert (∀ p u, dg_edge g0 p u → u ≠ x → stamped iter V1 u → stamped iter V1 p) as Hother.
  { intros p u Hpu Hux Hu.
    assert (u ∈ graph_nodes (graph state)) as Hun'
      by (apply Hnodes; by apply Hclosed in Hpu as [_ ?]).
    pose proof (chains_node_range u Hun').
    apply stamped_insert_ne in Hu; [|lia..|done].
    destruct (Hcl p u Hpu Hu) as [?| ->]; [by eapply stamps_grow_stamped|done]. }
  intros (c & Hc & Hbody)%res_bind_Ok.
  apply res_bind_Ok in Hbody as (r & Hr & Hbody).
  (* after lines 173-183, if the search goes on *)
  assert (∀ V2, r = inr (FamRef g0, V2) → stamps_grow iter V1 V2 →
            pred_closed iter g0 V2 → search_ok state iter srcs g0 V x ret) as Hscan.
  { intros V2 -> Hg2 Hcl2.
    assert (length V2 = number_of_nodes state) as Hlen2 by (destruct Hg2; congruence).
    unfold graph_neighbors in Hbody.
    destruct (graph_adj (graph state) x) as [ws|] eqn:Hws; [|done].
    cbn [mbind res_bind] in Hbody.
    apply scan_neighbors_chains in Hbody as (Hg & H0 & H1);
      [|done|done|by eapply stamps_grow_stamped|done|].
    2: { intros w Hw. by eapply wf_graph_neighbor. }
    pose proof (stamps_grow_trans _ _ _ _ Hg1 Hg2) as Hg12.
    pose proof (stamps_grow_trans _ _ _ _ Hg12 Hg) as Hgrow.
    split_and!; [done| |done|].
    - eapply stamps_grow_stamped; [|done]. by eapply stamps_grow_trans.
    - intros Hne. right. destruct (H1 Hne) as (g' & ? & Haug). exists g'. split; [done|].
      eapply augmented_weaken; [exact Hg12|done]. }
  unfold owns_unvisited_pred in Hc. cbn [with_fam mbind res_bind] in Hc.
  destruct (decide (x ∈ dg_nodes g0)) as [Hxg|Hxg]; cycle 1.
  { injection Hc as <-. injection Hr as <-. apply (Hscan V1); [done|apply stamps_grow_refl|].
    intros p u Hpu Hu. destruct (decide (u = x)) as [->|Hne]; [|by eapply Hother].
    by apply Hclosed in Hpu as [_ ?]. }
  destruct (decide (x ∉ input_nodes state)) as [Hxi|Hxi]; cycle 1.
  { injection Hc as <-. injection Hr as <-. apply (Hscan V1); [done|apply stamps_grow_refl|].
    intros p u Hpu Hu. destruct (decide (u = x)) as [->|Hne]; [|by eapply Hother].
    apply dec_stable in Hxi. destruct (Hcover g0 eq_refl) as [He _].
    apply (proj1 (Forall_forall _ _) He) in Hpu as (_ & ? & _). done. }
  unfold pred_unvisited in Hc.
  apply res_bind_Ok in Hc as (p & Hp & Hc).
  apply res_bind_Ok in Hc as (zp & Hzp & [= <-]).
  pose proof (first_pred_edge _ _ _ Hp) as Hpx.
  assert (p ∈ graph_nodes (graph state)) as Hpn
    by (apply Hnodes; by apply Hclosed in Hpx as [? _]).
  apply chains_np_get in Hzp; [|done..].
  case_bool_decide as Hzp'; cycle 1.
  { injection Hr as <-. apply (Hscan V1); [done|apply stamps_grow_refl|].
    intros p' u Hpu Hu. destruct (decide (u = x)) as [->|Hne]; [|by eapply Hother].
    assert (p' = p) as -> by by eapply Hin. exists zp. split; [done|lia]. }
  (* lines 178-183 *)
  unfold reroot_pred in Hr. rewrite Hp in Hr. cbn [mbind res_bind] in Hr.
  apply res_bind_Ok in Hr as ([[fam' V2] status] & Hcall & Hr).
  apply Hrec in Hcall as (Hg2 & Hstp & H0 & H1); [|done|done|by exists zp|].
  2: { intros p' u Hpu Hu. destruct (decide (u = x)) as [->|Hne].
       - right. by eapply Hin.
       - left. by eapply Hother. }
  cbn [fst snd] in *.
  destruct (py_truth status) eqn:Hs.
  - apply res_bind_Ok in Hr as (g & Hg & [= <-]). injection Hbody as <-.
    split_and!; [by eapply stamps_grow_trans|by eapply stamps_grow_stamped|done|].
    intros _. left. by eexists.
  - injection Hr as <-. unfold py_truth in Hs. apply bool_decide_eq_false, dec_stable in Hs.
    destruct (H0 Hs) as [-> Hcl2]. by apply (Hscan V2).
Qed.
End SearchChains.

Lemma _augmented_search_chains fuel state iter srcs g0 V x :
  wf_graph (graph state) → labels_in_range state →
  cover_inv state (FamRef g0) → chains_inv state srcs g0 →
  length V = number_of_nodes state → x ∈ graph_nodes (graph state) →
  unstamped iter V x → pred_closed_but iter g0 V x →
  res_post (_augmented_search fuel state (FamRef g0) iter V x)
           (search_ok state iter srcs g0 V x).
Proof.
  intros Hwf Hrange Hcover Hinv. revert V x.
  induction fuel as [|fuel IH]; intros V x Hlen Hx Hun Hcl; [done|].
  cbn [_augmented_search]. by apply search_body_chains.
Qed.

Lemma chains_inv_empty state : chains_inv state [] dg_empty.
Proof.
  split_and!; try done.
  - by intros x ?%elem_of_nil.
  - by intros u w ?%elem_of_nil.
  - by intros u w1 w2 ?%elem_of_nil.
  - by intros u1 u2 w ?%elem_of_nil.
  - by intros x ?%elem_of_nil.
Qed.

(** After a successful search from the input node [i] the family consists
    of chains from [i] and the input nodes before it. *)
Lemma augmented_chains state iter srcs g0 V i g' :
  chains_inv state srcs g0 → cover_inv state (FamRef g') →
  i ∉ srcs → i ∈ input_nodes state →
  augmented state iter srcs g0 V i g' →
  chains_inv state (i :: srcs) g'.
Proof.
  intros (Hok & Hnodes & Hclosed & Hout & Hin & Hroot) Hcover Hi Hinp
    (A1 & A2 & A3 & A4 & A5 & A6 & A7 & A8 & A9 & A10).
  assert (i ∉ dg_nodes g0) as Hfresh.
  { intros Hig. destruct (Hroot i Hig) as (j & Hj & Hpath).
    apply rtc_inv_r in Hpath as [->|(a & _ & Ha)]; [done|].
    apply (proj1 (Forall_forall _ _) Hok) in Ha as (_ & ? & _). done. }
  split_and!; try done.
  - by destruct (Hcover g' eq_refl).
  - intros u w1 w2 H1 H2. destruct (decide (u = i)) as [->|Hne]; [|by eapply A6].
    destruct A7 as [t Ht].
    destruct (Ht w1 H1) as [H0| ->]; [by apply Hclosed in H0 as [? _]|].
    destruct (Ht w2 H2) as [H0| ->]; [by apply Hclosed in H0 as [? _]|done].
  - intros y Hy. destruct (A9 y Hy) as [(j & Hj & Hpath)|Hpath].
    + exists j. split; [by right|done].
    + exists i. split; [by left|done].
Qed.

Lemma path_cover_loop_chains fuel state ins srcs g V iter0 :
  wf_graph (graph state) → labels_in_range state →
  cover_inv state (FamRef g) → chains_inv state srcs g →
  length V = number_of_nodes state → (∀ j z, V !! j = Some z → z ≤ iter0) →
  NoDup ins →
  (∀ i, i ∈ ins → (i ∉ srcs) ∧ i ∈ graph_nodes (graph state) ∧ i ∈ input_nodes state) →
  srcs ⊆ input_nodes state →
  res_post (path_cover_loop fuel state ins (FamRef g) V iter0)
           (λ r, match r with
                 | inl _ => True
                 | inr p => ∃ g' srcs', p.1 = FamRef g' ∧ srcs' ⊆ input_nodes state
                                        ∧ chains_inv state srcs' g'
                 end).
Proof.
  intros Hwf Hrange. revert srcs g V iter0.
  induction ins as [|i ins IH]; intros srcs g V iter0 Hcover Hinv Hlen Hcells Hnd Hins Hsrcs;
    cbn [path_cover_loop].
  { intros r [= <-]. by exists g, srcs. }
  destruct (Hins i) as (Hi & Hig & Hii); [by left|].
  apply NoDup_cons in Hnd as [Hni Hnd].
  intros r ([[fam' V'] status] & Hcall & Hloop)%res_bind_Ok.
  pose proof (_augmented_search_edges _ _ _ _ _ _ Hcover _ Hcall) as Hcover'.
  cbn [fst] in Hcover'.
  assert (0 ≤ i < Z.of_nat (number_of_nodes state)) as Hir
    by by apply (proj1 (Forall_forall _ _) Hrange).
  apply (_augmented_search_chains fuel state (iter0 + 1) srcs g V i) in Hcall
    as (Hgrow & _ & _ & H1); try done; cycle 1.
  { destruct (lookup_lt_is_Some_2 V (Z.to_nat i)) as [z Hz]; [lia|].
    exists z. split; [done|]. specialize (Hcells _ _ Hz). lia. }
  { intros p u _ (z & Hz & Hle). specialize (Hcells _ _ Hz). lia. }
  cbn [fst snd] in *.
  destruct (py_truth status) eqn:Hs; cbn [negb] in Hloop; [|by injection Hloop as <-].
  unfold py_truth in Hs. apply bool_decide_eq_true in Hs.
  destruct (H1 Hs) as [(g1 & _ & ?)|(g' & -> & Haug)]; [done|].
  revert r Hloop. apply (IH (i :: srcs)).
  - done.
  - by eapply augmented_chains.
  - destruct Hgrow; congruence.
  - intros j z Hz. destruct Hgrow as [_ Hg]. destruct (Hg j z Hz) as [Hz'| ->]; [|lia].
    specialize (Hcells _ _ Hz'). lia.
  - done.
  - intros j Hj. destruct (Hins j) as (? & ? & ?); [by right|]. split_and!; [|done..].
    intros [->|?]%elem_of_cons; done.
  - intros j [->|?]%elem_of_cons; [done|by apply Hsrcs].
Qed.

(** On a state with a well-formed graph, the labels 0..|V|-1 and pairwise
    distinct input nodes among the vertices, the family that
    [_build_path_cover] returns consists of vertex-disjoint chains that
    start at input nodes: no node has two successors or two predecessors,
    and every node is reached from an input node. *)
Lemma _build_path_cover_chains fuel state g :
  wf_graph (graph state) → labels_in_range state →
  NoDup (input_nodes state) → input_nodes state ⊆ graph_nodes (graph state) →
  _build_path_cover fuel state = Ok (PyDiGraph g) →
  ∃ srcs, srcs ⊆ input_nodes state ∧ chains_inv state srcs g.
Proof.
  intros Hwf Hrange Hnd Hsub. unfold _build_path_cover.
  intros ([ret|[fam V]] & Hloop & H)%res_bind_Ok.
  - injection H as ->.
    apply path_cover_loop_edges in Hloop as (z & ? & _); [done|by intros ? [= <-]].
  - assert (res_post (path_cover_loop fuel state (input_nodes state) (FamRef dg_empty)
                        (np_zeros (number_of_nodes state)) 0)
              (λ r, match r with
                    | inl _ => True
                    | inr p => ∃ g' srcs', p.1 = FamRef g' ∧ srcs' ⊆ input_nodes state
                                           ∧ chains_inv state srcs' g'
                    end)) as Hpost.
    { apply (path_cover_loop_chains _ _ _ []).
      - done.
      - done.
      - by intros ? [= <-].
      - apply chains_inv_empty.
      - apply length_replicate.
      - intros j z [-> _]%lookup_replicate. done.
      - done.
      - intros i Hi. split_and!; [by intros ?%elem_of_nil|by apply Hsub|done].
      - by intros ? ?%elem_of_nil. }
    apply Hpost in Hloop as (g' & srcs & Hfam & Hsrcs & Hinv).
    cbn [fst] in Hfam. subst fam. cbn [with_fam mbind res_bind] in H.
    case_decide; [|done]. injection H as <-. by exists srcs.
Qed.

Lemma walk_to_rtc state g a vs o v :
  walk_to state (PyDiGraph g) a vs o → v ∈ vs → rtc (dg_edge g) a v.
Proof.
  induction 1 as [a Ha|a w ss vs o Ha Hss Hw Hwalk IH]; [by intros ?%elem_of_nil|].
  intros [->|Hv]%elem_of_cons; [done|].
  eapply rtc_l; [|by apply IH]. by eapply first_successor_edge.
Qed.

Lemma walk_to_through state g a vs o v :
  out_unique g → Forall (cover_edge_ok state) (dg_edges g) →
  rtc (dg_edge g) a v → walk_to state (PyDiGraph g) a vs o → v ∈ vs ∨ v = o.
Proof.
  intros Hout Hok Hpath. revert vs.
  induction Hpath as [a|a a' v Hstep Hpath IH]; intros vs Hwalk.
  - inversion Hwalk; subst; [by right|left; by left].
  - inversion Hwalk as [|? w ss vs' ? Ha Hss Hw Hwalk']; subst.
    + apply (proj1 (Forall_forall _ _) Hok) in Hstep as (? & _). done.
    + assert (w = a') as -> by (eapply Hout; [by eapply first_successor_edge|done]).
      destruct (IH _ Hwalk') as [?|?]; [left; by right|by right].
Qed.

(** Two chains that pass through the same vertex start at the same input
    node. *)
Lemma chain_source_unique state g i j v :
  in_unique g → Forall (cover_edge_ok state) (dg_edges g) →
  i ∈ input_nodes state → j ∈ input_nodes state →
  rtc (dg_edge g) i v → rtc (dg_edge g) j v → i = j.
Proof.
  intros Hin Hok Hi Hj Hiv. revert j Hj.
  assert (∀ a b, dg_edge g a b → b ∉ input_nodes state) as Hent.
  { intros a b Hab. by apply (proj1 (Forall_forall _ _) Hok) in Hab as (_ & ? & _). }
  revert v Hiv.
  apply (rtc_ind_r (λ v, ∀ j, j ∈ input_nodes state → rtc (dg_edge g) j v → i = j)).
  - intros j Hj Hjv.
    apply rtc_inv_r in Hjv as [?|(b & _ & Hb)]; [done|]. by apply Hent in Hb.
  - intros a v Hia Hav IH j Hj Hjv.
    apply rtc_inv_r in Hjv as [->|(b & Hjb & Hb)]; [by apply Hent in Hav|].
    assert (b = a) as -> by by eapply Hin. by apply IH.
Qed.

(** X25. On a state with a well-formed graph, the labels 0..|V|-1 and
    pairwise distinct input nodes among the vertices, the family that
    [_build_path_cover] returns consists of vertex-disjoint chains that
    start at input nodes: no node has two successors, no node has two
    predecessors, and every node is reached along the edges from an input
    node, so that no cycle is left aside. *)
Theorem build_path_cover_disjoint_chains fuel state g :
  wf_graph (graph state) → labels_in_range state →
  NoDup (input_nodes state) → input_nodes state ⊆ graph_nodes (graph state) →
  _build_path_cover fuel state = Ok (PyDiGraph g) →
  (∀ u w1 w2, (u, w1) ∈ dg_edges g → (u, w2) ∈ dg_edges g → w1 = w2)
  ∧ (∀ u1 u2 w, (u1, w) ∈ dg_edges g → (u2, w) ∈ dg_edges g → u1 = u2)
  ∧ (∀ x, x ∈ dg_nodes g → ∃ i, i ∈ input_nodes state ∧ rtc (dg_edge g) i x).
Proof.
  intros Hwf Hrange Hnd Hsub Hpc.
  destruct (_build_path_cover_chains _ _ _ Hwf Hrange Hnd Hsub Hpc)
    as (srcs & Hsrcs & (_ & _ & _ & Hout & Hin & Hroot)).
  split_and!; [done..|].
  intros x Hx. destruct (Hroot x Hx) as (i & Hi & Hpath). exists i. split; [|done].
  by apply Hsrcs.
Qed.

Lemma build_path_cover_disjoint_chains_witness :
  (∀ u w1 w2, (u, w1) ∈ dg_edges path_cover → (u, w2) ∈ dg_edges path_cover → w1 = w2)
  ∧ (∀ u1 u2 w, (u1, w) ∈ dg_edges path_cover → (u2, w) ∈ dg_edges path_cover → u1 = u2)
  ∧ (∀ x, x ∈ dg_nodes path_cover →
       ∃ i, i ∈ input_nodes path_state ∧ rtc (dg_edge path_cover) i x).
Proof.
  apply (build_path_cover_disjoint_chains 5 path_state path_cover);
    [by_compute|by_compute|by_compute|by_compute|vm_compute; reflexivity].
Defined.

(** ** The chains of the decomposition (C7) *)

Lemma chain_walk_on fuel state C i v l f P L f' P' L' :
  chain_walk fuel state C i v l f P L = Ok (f', P', L') →
  ∀ u, f' !! u = f !! u ∨ chain_of state C v u.
Proof.
  revert v l f P L. induction fuel as [|fuel IH]; intros v l f P L; [done|].
  cbn [chain_walk]. case_decide as Hout.
  - intros (P1 & _ & (L1 & _ & [= <- _ _])%res_bind_Ok)%res_bind_Ok u. by left.
  - intros (ss & Hss & (w & Hw & (P1 & _ & (L1 & _ & Hrec)%res_bind_Ok)%res_bind_Ok)%res_bind_Ok)%res_bind_Ok u.
    destruct (IH _ _ _ _ _ Hrec u) as [Hu|(vs & o & Hwalk & Hu)].
    + destruct (decide (u = v)) as [->|Hne].
      * right. apply chain_walk_spec in Hrec as ((vs & o & Hwalk & _) & _).
        exists (v :: vs), o. split; [by econstructor|by left].
      * left. by rewrite Hu, lookup_insert_ne.
    + right. exists (v :: vs), o. split; [by econstructor|by right].
Qed.

Lemma chain_loop_on fuel state C ins f P L f' P' L' :
  chain_loop fuel state C ins f P L = Ok (f', P', L') →
  ∀ u, f' !! u = f !! u ∨ ∃ i, i ∈ ins ∧ chain_of state C i u.
Proof.
  revert f P L. induction ins as [|i ins IH]; intros f P L; cbn [chain_loop].
  - intros [= <- _ _] u. by left.
  - intros ([[f1 P1] L1] & Hwalk & Hloop)%res_bind_Ok u.
    destruct (IH _ _ _ Hloop u) as [Hu|(j & Hj & Hc)].
    + destruct (chain_walk_on _ _ _ _ _ _ _ _ _ _ _ _ Hwalk u) as [Hu1|Hc].
      * left. congruence.
      * right. exists i. split; [by left|done].
    + right. exists j. split; [by right|done].
Qed.

(** C7, amended. When [find_flow] returns a flow, the successor dict of
    the chain decomposition has exactly one value for every vertex of the
    output complement, and [flow] returns it. For a vertex on the chain
    that the decomposition walks from an input node, the value is the first
    successor of the vertex in the path cover, which is a neighbour of the
    vertex in the graph; for a vertex on no such chain it is the 0 that
    line 77 put there. From every input node, following the successor dict
    reaches an output node in at most [|V|] steps. When the labels are
    0..|V|-1 and the input nodes are pairwise distinct vertices of the
    graph, the path cover consists of vertex-disjoint chains: every vertex
    of the output complement is on the chain of exactly one input node, and
    the value of the successor dict is its only successor in the cover. *)
Theorem find_flow_chains set_iter fuel state sanity_check flow top_order :
  wf_graph (graph state) →
  find_flow set_iter fuel state sanity_check = Ok (RetFlow flow top_order) →
  ∃ C f P L,
    _build_path_cover fuel state = Ok C ∧
    _get_chain_decomposition fuel state C = Ok (f, P, L) ∧
    (∀ v, v ∈ outputc state →
       ∃ w, f !! v = Some w ∧ flow v = Ok w
            ∧ (on_chain state C v →
                 (∃ ss, tau_successors C v = Ok ss ∧ py_next ss = Ok w)
                 ∧ (∃ ns, graph_neighbors (graph state) v = Ok ns ∧ w ∈ ns))
            ∧ (¬ on_chain state C v → w = 0)) ∧
    (∀ i, i ∈ input_nodes state →
       ∃ k o, (k ≤ number_of_nodes state)%nat ∧ follow f k i = Some o
              ∧ o ∈ output_nodes state) ∧
    (labels_in_range state → NoDup (input_nodes state) →
     input_nodes state ⊆ graph_nodes (graph state) →
     ∀ v, v ∈ outputc state →
       (∃ i, i ∈ input_nodes state ∧ chain_of state C i v
             ∧ ∀ j, j ∈ input_nodes state → chain_of state C j v → j = i)
       ∧ (∃ ss w, tau_successors C v = Ok ss ∧ py_next ss = Ok w ∧ f !! v = Some w
                  ∧ ∀ w', w' ∈ ss → w' = w)).
Proof.
  intros Hwf Hff.
  apply find_flow_RetFlow_inv in Hff as (C & f & P & L & sup & g & _ & Hpc & HC & Hcd & _ & _ & _ & ->).
  exists C, f, P, L. split; [done|]. split; [done|].
  unfold _get_chain_decomposition in Hcd.
  pose proof (chain_loop_on _ _ _ _ _ _ _ _ _ _ Hcd) as Hon.
  apply chain_loop_spec in Hcd as (Hins & _ & Hkeys).
  assert (∀ v, v ∈ outputc state → ∃ w, f !! v = Some w) as Hkey.
  { intros v [Hvo Hvn]%list_elem_of_filter. apply Hkeys.
    rewrite lookup_gset_to_gmap, option_guard_True; [by eexists|].
    unfold output_complement_set.
    rewrite elem_of_difference, !elem_of_list_to_set. done. }
  split_and!.
  - intros v Hv. destruct (Hkey v Hv) as [w Hw].
    exists w. split_and!; [done| | |].
    + unfold _flow_from_array, dict_get. rewrite decide_True by done. by rewrite Hw.
    + intros (i & Hi & vs & o & Hwalk & Hin).
      destruct (Hins i Hi) as (vs' & o' & Hwalk' & Hvs).
      destruct (walk_to_det _ _ _ _ _ _ _ Hwalk Hwalk') as [<- <-].
      destruct (Hvs v Hin) as (ss & w' & Hss & Hw' & Hfv).
      assert (w' = w) as -> by congruence.
      split; [by exists ss|].
      destruct C as [z|g']; [done|]. cbn [tau_successors] in Hss.
      pose proof (first_successor_edge _ _ _ _ Hss Hw') as Hedge.
      apply _build_path_cover_edges in Hpc as (He & _ & _).
      apply (proj1 (Forall_forall _ _) He) in Hedge as (_ & _ & ns & Hns & Hwn).
      cbn [fst snd] in *. exists ns. unfold graph_neighbors. by rewrite Hns.
    + intros Hnot. destruct (Hon v) as [Hfv|(i & Hi & Hc)].
      * rewrite Hw in Hfv. symmetry in Hfv.
        by apply lookup_gset_to_gmap_Some in Hfv as [_ ?].
      * destruct Hnot. by exists i.
  - intros i Hi. destruct (Hins i Hi) as (vs & o & Hwalk & Hvs).
    exists (length vs), o. split_and!.
    + apply submseteq_length, NoDup_submseteq; [by eapply walk_to_NoDup|].
      intros u Hu. destruct (walk_to_nodes _ _ _ _ _ u Hwalk Hu) as (g' & -> & Hg').
      by eapply _build_path_cover_nodes.
    + by eapply walk_to_follow.
    + by eapply walk_to_output.
  - intros Hrange Hnd Hsub v Hv. pose proof Hv as [Hvo Hvn]%list_elem_of_filter.
    destruct C as [z|g'].
    { apply _build_path_cover_spec in Hpc; [|done]. cbn [truthy] in HC. congruence. }
    pose proof (_build_path_cover_edges _ _ _ Hpc) as (He & _ & Hcov).
    destruct (_build_path_cover_chains _ _ _ Hwf Hrange Hnd Hsub Hpc)
      as (srcs & Hsrcs & (_ & _ & _ & Hout & Hin & Hroot)).
    destruct (Hroot v) as (i & Hi & Hpath); [by apply Hcov|].
    apply Hsrcs in Hi.
    destruct (Hins i Hi) as (vs & o & Hwalk & Hvs).
    assert (v ∈ vs) as Hin'.
    { destruct (walk_to_through _ _ _ _ _ _ Hout He Hpath Hwalk) as [?| ->]; [done|].
      by apply walk_to_output in Hwalk. }
    split.
    + exists i. split_and!; [done|by exists vs, o|].
      intros j Hj (vs' & o' & Hwalk' & Hin'').
      eapply chain_source_unique; [done|done|done|done| |].
      * by eapply walk_to_rtc.
      * by eapply walk_to_rtc.
    + destruct (Hvs v Hin') as (ss & w & Hss & Hw & Hfv).
      exists ss, w. split_and!; [done..|].
      intros w' Hw'. cbn [tau_successors] in Hss.
      pose proof (first_successor_edge _ _ _ _ Hss Hw) as Hedge.
      eapply Hout; [|done]. unfold dg_successors in Hss. case_decide; [|done].
      injection Hss as <-. apply list_elem_of_fmap in Hw' as ([a b] & -> & Hab).
      apply list_elem_of_filter in Hab as [Ha Hab]. cbn in Ha. by subst a.
Qed.

(** The preconditions of the last part hold of the path 0-1-2-3-4. *)
Lemma path_state_labels :
  labels_in_range path_state ∧ NoDup (input_nodes path_state)
  ∧ input_nodes path_state ⊆ graph_nodes (graph path_state).
Proof. split_and!; by_compute. Qed.

Lemma find_flow_chains_witness :
  ∃ C f P L,
    _build_path_cover 5 path_state = Ok C ∧
    _get_chain_decomposition 5 path_state C = Ok (f, P, L) ∧
    (∀ v, v ∈ outputc path_state →
       ∃ w, f !! v = Some w ∧ _flow_from_array path_state path_f v = Ok w
            ∧ (on_chain path_state C v →
                 (∃ ss, tau_successors C v = Ok ss ∧ py_next ss = Ok w)
                 ∧ (∃ ns, graph_neighbors (graph path_state) v = Ok ns ∧ w ∈ ns))
            ∧ (¬ on_chain path_state C v → w = 0)) ∧
    (∀ i, i ∈ input_nodes path_state →
       ∃ k o, (k ≤ number_of_nodes path_state)%nat ∧ follow f k i = Some o
              ∧ o ∈ output_nodes path_state) ∧
    (∀ v, v ∈ outputc path_state →
       (∃ i, i ∈ input_nodes path_state ∧ chain_of path_state C i v
             ∧ ∀ j, j ∈ input_nodes path_state → chain_of path_state C j v → j = i)
       ∧ (∃ ss w, tau_successors C v = Ok ss ∧ py_next ss = Ok w ∧ f !! v = Some w
                  ∧ ∀ w', w' ∈ ss → w' = w)).
Proof.
  destruct (find_flow_chains ascending 5 path_state false
              (_flow_from_array path_state path_f) [0; 1; 2; 3; 4])
    as (C & f & P & L & Hpc & Hcd & Hf & Hins & Hchains);
    [by_compute|vm_compute; reflexivity|].
  exists C, f, P, L. split_and!; [done..|].
  destruct path_state_labels as (Hrange & Hnd & Hsub). by apply Hchains.
Defined.

(** C7, as stated, fails at [dup_state], where the input node 0 is listed
    twice: [find_flow] returns a flow, also with the sanity check; the
    vertex 2 is no output and has the successor 3 in the path cover, but it
    is on no chain that the decomposition walks, and the successor dict and
    the flow give it the value 0. *)
Lemma find_flow_chains_placeholder :
  wf_graph (graph dup_state) ∧ labels_in_range dup_state
  ∧ ¬ NoDup (input_nodes dup_state)
  ∧ _build_path_cover 3 dup_state = Ok (PyDiGraph dup_cover)
  ∧ _get_chain_decomposition 3 dup_state (PyDiGraph dup_cover)
    = Ok (dup_f, [0; 0; 0; 0], [0; 1; 0; 0])
  ∧ find_flow ascending 3 dup_state true
    = Ok (RetFlow (_flow_from_array dup_state dup_f) [2; 0; 1])
  ∧ 2 ∈ outputc dup_state
  ∧ tau_successors (PyDiGraph dup_cover) 2 = Ok [3]
  ∧ dup_f !! 2 = Some 0
  ∧ _flow_from_array dup_state dup_f 2 = Ok 0.
Proof.
  split_and!; try by_compute; try (vm_compute; reflexivity).
Qed.
